(** * Crossword maker: grid placement engine and validation engine

    A shallow embedding of [src/js/helpers/gridHelper.js] (GridHelper),
    [src/js/validators/gridValidator.js] (GridValidator) and of the scoring
    functions of the word validator and the word helper, with the properties
    of the specification stated over it.

    Conventions of the embedding
    - a JavaScript string is the list of its UTF-16 code units;
    - a JavaScript array is a list, a [Map] is an association list in
      insertion order, the validation cache is a finite map over keys;
    - a method that mutates its arguments returns their new state;
    - a method that can raise an exception returns an [outcome]. *)

From Stdlib Require Import ZArith QArith Qround Qabs Qminmax Qpower Lia Lqa List Ascii String.
From stdpp Require Import base list gmap strings pretty sorting.

Local Open Scope Z_scope.

(** ** JavaScript values *)

(** A string is the sequence of its UTF-16 code units; [s[i]] is the
    one-unit string at index [i], [s.length] is [length s]. *)
Abbreviation jsstring := (list N).

(** An ASCII literal as a JavaScript string. *)
Definition js (s : string) : jsstring :=
  map N_of_ascii (list_ascii_of_string s).

(** Truthiness of a string: only the empty string is falsy. *)
Definition truthy (s : jsstring) : bool :=
  match s with [] => false | _ => true end.

(** The result of a call that may raise an exception. *)
Inductive outcome (A : Type) : Type :=
| Returned (a : A)
| Thrown.
Arguments Returned {A} a.
Arguments Thrown {A}.

(** [a[i]] for an integer index: [undefined] ([None]) out of range. *)
Definition at_index {A} (l : list A) (i : Z) : option A :=
  if i <? 0 then None else l !! Z.to_nat i.

(** [Array.prototype.indexOf]: the first index holding [x]. *)
Fixpoint indexOf (x : jsstring) (l : list jsstring) : option nat :=
  match l with
  | [] => None
  | y :: l' => if bool_decide (y = x) then Some O else S <$> indexOf x l'
  end.

(** [Array.prototype.includes] on strings. *)
Definition includes (x : jsstring) (l : list jsstring) : bool :=
  bool_decide (x ∈ l).

(** [Array.prototype.sort] with a comparator: the sort is stable, an
    element stays in front of a later one unless the comparator is
    positive on the pair. *)
Section Sort.
Context {A : Type} (cmp : A -> A -> Z).

Fixpoint sortInsert (x : A) (l : list A) : list A :=
  match l with
  | [] => [x]
  | y :: l' => if cmp x y <=? 0 then x :: y :: l' else y :: sortInsert x l'
  end.

Fixpoint jsSort (l : list A) : list A :=
  match l with
  | [] => []
  | x :: l' => sortInsert x (jsSort l')
  end.
End Sort.

(** ** Numbers

    A JavaScript number is a rational, or one of [NaN], [Infinity] and
    [-Infinity]; zero has no sign. The operations of this module are
    exact. They are the code's operations on whole numbers and on the
    comparison of a quotient of two counts with a decimal constant; the
    figures of the word helper (difficulty, rarity, quality of a
    crossing) are computed with them too, without the rounding of each
    step. The quality analysis and the scores of the two validators,
    where a rounding decides the result, are computed with the
    operations of [Double] below, which round as the code does. *)
Module JSNumber.

Inductive num : Type :=
| NaN
| Fin (q : Q)
| PosInf
| NegInf.

Definition ofZ (z : Z) : num := Fin (inject_Z z).
Definition ofNat (n : nat) : num := ofZ (Z.of_nat n).

Definition neg (a : num) : num :=
  match a with
  | NaN => NaN
  | Fin q => Fin (- q)
  | PosInf => NegInf
  | NegInf => PosInf
  end.

Definition add (a b : num) : num :=
  match a, b with
  | NaN, _ | _, NaN => NaN
  | Fin x, Fin y => Fin (x + y)
  | PosInf, NegInf | NegInf, PosInf => NaN
  | PosInf, _ | _, PosInf => PosInf
  | NegInf, _ | _, NegInf => NegInf
  end.

Definition sub (a b : num) : num := add a (neg b).

(** The sign of a number that is not [NaN]. *)
Definition sign (a : num) : comparison :=
  match a with
  | NaN => Eq
  | Fin q => (0 ?= q)%Q
  | PosInf => Lt
  | NegInf => Gt
  end.

Definition infinite (a : num) : bool :=
  match a with PosInf | NegInf => true | _ => false end.

Definition signedInf (s1 s2 : comparison) : num :=
  match s1, s2 with
  | Eq, _ | _, Eq => NaN
  | Lt, Lt | Gt, Gt => PosInf
  | _, _ => NegInf
  end.

Definition mul (a b : num) : num :=
  match a, b with
  | NaN, _ | _, NaN => NaN
  | Fin x, Fin y => Fin (x * y)
  | _, _ => signedInf (sign a) (sign b)
  end.

Definition div (a b : num) : num :=
  match a, b with
  | NaN, _ | _, NaN => NaN
  | Fin x, Fin y =>
      if Qeq_bool y 0 then
        match (0 ?= x)%Q with Eq => NaN | Lt => PosInf | Gt => NegInf end
      else Fin (x / y)
  | Fin _, _ => Fin 0
  | _, Fin y =>
      if Qeq_bool y 0 then a else signedInf (sign a) (sign b)
  | _, _ => NaN
  end.

Definition lt (a b : num) : bool :=
  match a, b with
  | NaN, _ | _, NaN => false
  | Fin x, Fin y => negb (Qle_bool y x)
  | NegInf, NegInf => false
  | NegInf, _ => true
  | _, PosInf => negb (infinite a)
  | _, _ => false
  end.

Definition gt (a b : num) : bool := lt b a.

Definition le (a b : num) : bool :=
  match a, b with
  | NaN, _ | _, NaN => false
  | Fin x, Fin y => Qle_bool x y
  | NegInf, _ => true
  | _, PosInf => true
  | _, _ => false
  end.

Definition ge (a b : num) : bool := le b a.

Definition abs (a : num) : num :=
  match a with
  | NaN => NaN
  | Fin q => Fin (Qabs q)
  | _ => PosInf
  end.

(** [Math.round]: the nearest integer, halves towards [+Infinity]. *)
Definition round (a : num) : num :=
  match a with
  | Fin q => ofZ (Qfloor (q + (1 # 2)))
  | _ => a
  end.

(** [Math.min] and [Math.max] of two numbers. *)
Definition min (a b : num) : num :=
  match a, b with
  | NaN, _ | _, NaN => NaN
  | _, _ => if lt b a then b else a
  end.

Definition max (a b : num) : num :=
  match a, b with
  | NaN, _ | _, NaN => NaN
  | _, _ => if lt a b then b else a
  end.

(** Truthiness: [NaN] and zero are falsy. *)
Definition truthyNum (a : num) : bool :=
  match a with
  | NaN => false
  | Fin q => negb (Qeq_bool q 0)
  | _ => true
  end.

(** [a || 0]. *)
Definition orZero (a : num) : num := if truthyNum a then a else Fin 0.

(** The quotient of two counts. *)
Definition ratio (n d : nat) : num := div (ofNat n) (ofNat d).

End JSNumber.
Import JSNumber.

(** ** Double-precision arithmetic

    Where the code adds and multiplies numbers that are not whole, the
    result is the double nearest to the exact one (IEEE 754 binary64,
    round to nearest, ties to even), and a score can fall on the other
    side of a half. [nearest] is that rounding on the rationals; the
    operations of this module are the exact ones followed by it. *)
Module Double.

Import JSNumber.

Definition pow2 (e : Z) : Q := (2 ^ e)%Q.

(** The binary exponent of a rational that is not zero: the greatest [k]
    with [2^k <= |q|]. It is [log2 |numerator| - log2 denominator], or one
    less. *)
Definition mag (q : Q) : Z :=
  let k := Z.log2 (Z.abs (Qnum q)) - Z.log2 (Zpos (Qden q)) in
  if Qle_bool (pow2 k) (Qabs q) then k else k - 1.

(** The nearest integer, a half going to the even neighbour. *)
Definition nearestEven (x : Q) : Z :=
  let f := Qfloor x in
  match (x - inject_Z f ?= 1 # 2)%Q with
  | Lt => f
  | Gt => f + 1
  | Eq => if Z.even f then f else f + 1
  end.

(** The exponent of the last place of the doubles around [q]: 53 binary
    digits, and no exponent under -1074 (the subnormal numbers). *)
Definition lastPlace (q : Q) : Z := Z.max (mag q - 52) (-1074).

(** The double nearest to [q]; beyond the largest double it is an
    infinity. *)
Definition nearest (q : Q) : num :=
  if Qeq_bool q 0 then Fin 0
  else
    let e := lastPlace q in
    let x := Qred (inject_Z (nearestEven (q / pow2 e)) * pow2 e) in
    if Qle_bool (pow2 1024) (Qabs x) then (if Qle_bool 0 q then PosInf else NegInf)
    else Fin x.

(** A number as the double the code holds. *)
Definition double (a : num) : num :=
  match a with
  | Fin q => nearest q
  | _ => a
  end.

Definition add (a b : num) : num := double (JSNumber.add a b).
Definition sub (a b : num) : num := double (JSNumber.sub a b).
Definition mul (a b : num) : num := double (JSNumber.mul a b).
Definition div (a b : num) : num := double (JSNumber.div a b).

(** A decimal literal of the code. *)
Definition literal (q : Q) : num := nearest q.

(** The terms added to [start] one after the other, from the left. *)
Definition sum (start : num) (terms : list num) : num := fold_left add terms start.

(** Bounds of a number: at most [n], or at least [n], the infinity on
    that side included; [NaN] has no bound. *)
Definition atMost (n : Z) (a : num) : Prop :=
  match a with
  | Fin x => (x <= inject_Z n)%Q
  | NegInf => True
  | _ => False
  end.

Definition atLeast (n : Z) (a : num) : Prop :=
  match a with
  | Fin x => (inject_Z n <= x)%Q
  | PosInf => True
  | _ => False
  end.

(** A finite number within [delta] of the rational [q]. *)
Definition near (delta : Q) (a : num) (q : Q) : Prop :=
  exists x : Q, a = Fin x /\ (q - delta <= x <= q + delta)%Q.

End Double.

(** ** The grid model (gridHelper.js) *)

(** A cell, as [createEmptyCell] builds it (the [metadata] object, which
    no method reads or writes, is left out). [number] is [None] for
    [null]. *)
Record cell : Type := mkCell {
  cellRow : Z;
  cellCol : Z;
  letter : jsstring;
  number : option Z;
  blocked : bool;
  wordIds : list jsstring;
  directions : list jsstring;
  isStart : bool;
  isEnd : bool;
  isIntersection : bool;
  gameValue : option jsstring;
  userInput : jsstring;
  isCorrect : option bool;
  highlighted : bool;
  selected : bool
}.

Definition set_letter (v : jsstring) (c : cell) : cell :=
  mkCell (cellRow c) (cellCol c) v (number c) (blocked c) (wordIds c)
    (directions c) (isStart c) (isEnd c) (isIntersection c) (gameValue c)
    (userInput c) (isCorrect c) (highlighted c) (selected c).
Definition set_number (v : option Z) (c : cell) : cell :=
  mkCell (cellRow c) (cellCol c) (letter c) v (blocked c) (wordIds c)
    (directions c) (isStart c) (isEnd c) (isIntersection c) (gameValue c)
    (userInput c) (isCorrect c) (highlighted c) (selected c).
Definition set_blocked (v : bool) (c : cell) : cell :=
  mkCell (cellRow c) (cellCol c) (letter c) (number c) v (wordIds c)
    (directions c) (isStart c) (isEnd c) (isIntersection c) (gameValue c)
    (userInput c) (isCorrect c) (highlighted c) (selected c).
Definition set_wordIds (v : list jsstring) (c : cell) : cell :=
  mkCell (cellRow c) (cellCol c) (letter c) (number c) (blocked c) v
    (directions c) (isStart c) (isEnd c) (isIntersection c) (gameValue c)
    (userInput c) (isCorrect c) (highlighted c) (selected c).
Definition set_directions (v : list jsstring) (c : cell) : cell :=
  mkCell (cellRow c) (cellCol c) (letter c) (number c) (blocked c) (wordIds c)
    v (isStart c) (isEnd c) (isIntersection c) (gameValue c)
    (userInput c) (isCorrect c) (highlighted c) (selected c).
Definition set_isStart (v : bool) (c : cell) : cell :=
  mkCell (cellRow c) (cellCol c) (letter c) (number c) (blocked c) (wordIds c)
    (directions c) v (isEnd c) (isIntersection c) (gameValue c)
    (userInput c) (isCorrect c) (highlighted c) (selected c).
Definition set_isEnd (v : bool) (c : cell) : cell :=
  mkCell (cellRow c) (cellCol c) (letter c) (number c) (blocked c) (wordIds c)
    (directions c) (isStart c) v (isIntersection c) (gameValue c)
    (userInput c) (isCorrect c) (highlighted c) (selected c).
Definition set_isIntersection (v : bool) (c : cell) : cell :=
  mkCell (cellRow c) (cellCol c) (letter c) (number c) (blocked c) (wordIds c)
    (directions c) (isStart c) (isEnd c) v (gameValue c)
    (userInput c) (isCorrect c) (highlighted c) (selected c).

(** The grid: an array of rows, each an array of cells. Every cell is an
    object of its own (as [createEmptyGrid] and [cloneGrid] build them), so
    that writing through one position changes no other position. *)
Abbreviation grid := (list (list cell)).

(** A word of the puzzle, as [WordHelper.createWord] builds it (the fields
    the grid helper and the grid validator read); [wWord] is its [word]
    field, [wNumber] is [None] for [null]. *)
Record wordData : Type := mkWord {
  wId : jsstring;
  wWord : jsstring;
  wClue : jsstring;
  wDirection : jsstring;
  wStartRow : Z;
  wStartCol : Z;
  wNumber : option Z;
  wDifficulty : num
}.

Definition horizontal : jsstring := js "horizontal".
Definition vertical : jsstring := js "vertical".

Module GridHelper.

Definition minSize : Z := 5.
Definition maxSize : Z := 25.

Definition createEmptyCell (row col : Z) : cell :=
  {| cellRow := row; cellCol := col; letter := []; number := None;
     blocked := false; wordIds := []; directions := [];
     isStart := false; isEnd := false; isIntersection := false;
     gameValue := None; userInput := []; isCorrect := None;
     highlighted := false; selected := false |}.

Definition isValidSize (width height : Z) : bool :=
  (minSize <=? width) && (width <=? maxSize) &&
  (minSize <=? height) && (height <=? maxSize).

Definition createEmptyGrid (width height : Z) : outcome grid :=
  if negb (isValidSize width height) then Thrown
  else Returned
    (map (fun row => map (fun col => createEmptyCell (Z.of_nat row) (Z.of_nat col))
                         (seq 0 (Z.to_nat width)))
         (seq 0 (Z.to_nat height))).

(** [grid[0].length]; it is only evaluated after [row < grid.length] held
    for a [row >= 0], that is on a grid with a first row. *)
Definition firstRowLength (g : grid) : Z :=
  match g with
  | [] => 0
  | r :: _ => Z.of_nat (length r)
  end.

Definition isValidPosition (g : grid) (row col : Z) : bool :=
  (0 <=? row) && (row <? Z.of_nat (length g)) &&
  (0 <=? col) && (col <? firstRowLength g).

(** [null] for a position outside the grid, [grid[row][col]] otherwise,
    which is [undefined] when that row is shorter than the first one:
    both are [None]. *)
Definition getCell (g : grid) (row col : Z) : option cell :=
  if negb (isValidPosition g row col) then None
  else r ← at_index g row; at_index r col.

(** The state of the grid after the cell object at [(row, col)] has been
    mutated into [c]. *)
Definition putCell (g : grid) (row col : Z) (c : cell) : grid :=
  alter (fun r => <[Z.to_nat col := c]> r) (Z.to_nat row) g.

Definition blockCell (g : grid) (row col : Z) : grid * bool :=
  match getCell g row col with
  | None => (g, false)
  | Some c =>
      (putCell g row col
         (set_isEnd false (set_isStart false (set_directions []
            (set_wordIds [] (set_number None (set_letter []
               (set_blocked true c))))))), true)
  end.

Definition unblockCell (g : grid) (row col : Z) : grid * bool :=
  match getCell g row col with
  | None => (g, false)
  | Some c => (putCell g row col (set_blocked false c), true)
  end.

Definition hasWordsOnGrid (g : grid) : bool :=
  existsb (existsb (fun c => truthy (letter c) && (0 <? length (wordIds c))%nat)) g.

(** *** canPlaceWord *)

(** The [reason] of a verdict; the message texts are not modelled, their
    interpolated values are kept. *)
Inductive reason : Type :=
| NoReason
| TooShort
| BadDirection
| StartOutsideGrid
| LeavesGrid (i : nat)
| CellBlocked (row col : Z)
| FullDuplicate
| LetterConflict (count : nat)
| Isolated.

Record conflict : Type := mkConflict {
  conflictPosition : Z * Z;
  existing : jsstring;
  required : jsstring
}.

Record crossing : Type := mkCrossing {
  crossingPosition : Z * Z;
  crossingLetter : jsstring
}.

Record verdict : Type := mkVerdict {
  canPlace : bool;
  conflicts : list conflict;
  intersections : list crossing;
  why : reason
}.

Definition rejected (res : verdict) (r : reason) : verdict :=
  mkVerdict (canPlace res) (conflicts res) (intersections res) r.

Definition rowOf (direction : jsstring) (startRow : Z) (i : nat) : Z :=
  if bool_decide (direction = vertical) then startRow + Z.of_nat i else startRow.

Definition colOf (direction : jsstring) (startCol : Z) (i : nat) : Z :=
  if bool_decide (direction = horizontal) then startCol + Z.of_nat i else startCol.

(** The loop over the letters, from index [i] on, [letters] being the
    letters not yet visited. [inl] is an early [return result], [inr] the
    result at the loop's end. *)
Fixpoint checkLetters (g : grid) (startRow startCol : Z) (direction : jsstring)
    (i : nat) (letters : list N) (result : verdict) : outcome (verdict + verdict) :=
  match letters with
  | [] => Returned (inr result)
  | ch :: letters' =>
      let row := rowOf direction startRow i in
      let col := colOf direction startCol i in
      if negb (isValidPosition g row col) then
        Returned (inl (rejected result (LeavesGrid i)))
      else
        match getCell g row col with
        | None => Thrown
        | Some c =>
            if blocked c then Returned (inl (rejected result (CellBlocked row col)))
            else
              let result1 :=
                if truthy (letter c) && negb (bool_decide (letter c = [ch])) then
                  mkVerdict (canPlace result)
                    (conflicts result ++ [mkConflict (row, col) (letter c) [ch]])
                    (intersections result) (why result)
                else result in
              let result2 :=
                if truthy (letter c) && bool_decide (letter c = [ch]) then
                  mkVerdict (canPlace result1) (conflicts result1)
                    (intersections result1 ++ [mkCrossing (row, col) [ch]])
                    (why result1)
                else result1 in
              checkLetters g startRow startCol direction (S i) letters' result2
        end
  end.

Definition canPlaceWord (g : grid) (word : jsstring) (startRow startCol : Z)
    (direction : jsstring) : outcome verdict :=
  let result := mkVerdict false [] [] NoReason in
  if (length word <? 2)%nat then Returned (rejected result TooShort)
  else if negb (includes direction [horizontal; vertical]) then
    Returned (rejected result BadDirection)
  else if negb (isValidPosition g startRow startCol) then
    Returned (rejected result StartOutsideGrid)
  else
    match checkLetters g startRow startCol direction 0 word result with
    | Thrown => Thrown
    | Returned (inl early) => Returned early
    | Returned (inr res) =>
        if (length (intersections res) =? length word)%nat then
          Returned (rejected res FullDuplicate)
        else if (0 <? length (conflicts res))%nat then
          Returned (rejected res (LetterConflict (length (conflicts res))))
        else if hasWordsOnGrid g && (length (intersections res) =? 0)%nat then
          Returned (rejected res Isolated)
        else
          Returned (mkVerdict true (conflicts res) (intersections res) (why res))
    end.

(** *** placeWord and removeWord *)

(** What the body of the placement loop does to the cell of letter [i]. *)
Definition placeLetter (w : wordData) (i : nat) (ch : N) (c : cell) : cell :=
  let c1 := set_letter [ch] c in
  let c2 := if includes (wId w) (wordIds c1) then c1
            else set_wordIds (wordIds c1 ++ [wId w]) c1 in
  let c3 := if includes (wDirection w) (directions c2) then c2
            else set_directions (directions c2 ++ [wDirection w]) c2 in
  let c4 := if (1 <? length (wordIds c3))%nat then set_isIntersection true c3 else c3 in
  let c5 := if (i =? 0)%nat then set_number (wNumber w) (set_isStart true c4) else c4 in
  if Z.of_nat i =? Z.of_nat (length (wWord w)) - 1 then set_isEnd true c5 else c5.

(** The placement loop from index [i] on. Writing to a missing cell
    raises a TypeError, with the letters before it already written. *)
Fixpoint placeLetters (g : grid) (w : wordData) (i : nat) (letters : list N)
    : grid * outcome unit :=
  match letters with
  | [] => (g, Returned tt)
  | ch :: letters' =>
      let row := rowOf (wDirection w) (wStartRow w) i in
      let col := colOf (wDirection w) (wStartCol w) i in
      match getCell g row col with
      | None => (g, Thrown)
      | Some c => placeLetters (putCell g row col (placeLetter w i ch c)) w (S i) letters'
      end
  end.

Definition placeWord (g : grid) (w : wordData) : grid * outcome bool :=
  match canPlaceWord g (wWord w) (wStartRow w) (wStartCol w) (wDirection w) with
  | Thrown => (g, Thrown)
  | Returned res =>
      if negb (canPlace res) then (g, Returned false)
      else
        match placeLetters g w 0 (wWord w) with
        | (g', Thrown) => (g', Thrown)
        | (g', Returned _) => (g', Returned true)
        end
  end.

(** What [removeWord] does to one cell, and whether it removed the id. *)
Definition removeFromCell (wordId : jsstring) (c : cell) : cell * bool :=
  match indexOf wordId (wordIds c) with
  | None => (c, false)
  | Some k =>
      let c1 := set_wordIds (delete k (wordIds c)) c in
      if (length (wordIds c1) =? 0)%nat then
        (set_isIntersection false (set_isEnd false (set_isStart false
           (set_directions [] (set_number None (set_letter [] c1))))), true)
      else
        (set_isIntersection (1 <? length (wordIds c1))%nat c1, true)
  end.

Definition removeWord (g : grid) (wordId : jsstring) : grid * bool :=
  (map (map (fun c => fst (removeFromCell wordId c))) g,
   existsb (existsb (fun c => snd (removeFromCell wordId c))) g).

(** *** autoPlaceWords *)

Record candidate : Type := mkCandidate {
  candidateRow : Z;
  candidateCol : Z;
  candidateDirection : jsstring;
  intersectionLetter : jsstring;
  intersectionPos : nat * nat
}.

Definition findPossibleIntersections (newWord : jsstring) (existingWord : wordData)
    : list candidate :=
  concat (imap (fun i a =>
    concat (imap (fun j b =>
      if bool_decide (a = b) then
        let newDirection :=
          if bool_decide (wDirection existingWord = horizontal) then vertical
          else horizontal in
        let startRow :=
          if bool_decide (wDirection existingWord = horizontal)
          then wStartRow existingWord - Z.of_nat i
          else wStartRow existingWord + Z.of_nat j in
        let startCol :=
          if bool_decide (wDirection existingWord = horizontal)
          then wStartCol existingWord + Z.of_nat j
          else wStartCol existingWord - Z.of_nat i in
        [mkCandidate startRow startCol newDirection [a] (i, j)]
      else []) (wWord existingWord))) newWord).

(** [{...word, startRow, startCol, direction}], and the same three
    assignments made on the first word. *)
Definition withPlacement (w : wordData) (startRow startCol : Z) (direction : jsstring)
    : wordData :=
  mkWord (wId w) (wWord w) (wClue w) direction startRow startCol (wNumber w)
    (wDifficulty w).

(** The loop over the candidate intersections with one placed word. *)
Fixpoint tryCandidates (g : grid) (word : wordData) (candidates : list candidate)
    : grid * outcome (option wordData) :=
  match candidates with
  | [] => (g, Returned None)
  | cand :: candidates' =>
      let newWordData :=
        withPlacement word (candidateRow cand) (candidateCol cand)
          (candidateDirection cand) in
      match canPlaceWord g (wWord word) (candidateRow cand) (candidateCol cand)
              (candidateDirection cand) with
      | Thrown => (g, Thrown)
      | Returned res =>
          if canPlace res then
            match placeWord g newWordData with
            | (g', Thrown) => (g', Thrown)
            | (g', Returned true) => (g', Returned (Some newWordData))
            | (g', Returned false) => tryCandidates g' word candidates'
            end
          else tryCandidates g word candidates'
      end
  end.

(** The loop over the words placed so far. *)
Fixpoint tryPlacedWords (g : grid) (word : wordData) (placedWords : list wordData)
    : grid * outcome (option wordData) :=
  match placedWords with
  | [] => (g, Returned None)
  | placedWord :: placedWords' =>
      match tryCandidates g word
              (findPossibleIntersections (wWord word) placedWord) with
      | (g', Thrown) => (g', Thrown)
      | (g', Returned (Some newWordData)) => (g', Returned (Some newWordData))
      | (g', Returned None) => tryPlacedWords g' word placedWords'
      end
  end.

(** The loop over [sortedWords[1..]]. *)
Fixpoint placeRemaining (g : grid) (remaining placedWords : list wordData)
    : grid * outcome (list wordData) :=
  match remaining with
  | [] => (g, Returned placedWords)
  | word :: remaining' =>
      match tryPlacedWords g word placedWords with
      | (g', Thrown) => (g', Thrown)
      | (g', Returned (Some newWordData)) =>
          placeRemaining g' remaining' (placedWords ++ [newWordData])
      | (g', Returned None) => placeRemaining g' remaining' placedWords
      end
  end.

(** The state the call leaves behind: the grid, the caller's [words]
    array, and the returned [placedWords] unless the call threw. *)
Record autoPlaced : Type := mkAutoPlaced {
  gridAfter : grid;
  wordsAfter : list wordData;
  placedResult : outcome (list wordData)
}.

Definition byLengthDescending (a b : wordData) : Z :=
  Z.of_nat (length (wWord b)) - Z.of_nat (length (wWord a)).

(** What an entry of the array is, apart from where it is placed. *)
Definition payload (w : wordData) : jsstring * jsstring * jsstring * option Z * num :=
  (wId w, wWord w, wClue w, wNumber w, wDifficulty w).

(** [words.sort] sorts the array in place and returns that same array:
    [sortedWords] and [words] are one object from there on. *)
Definition autoPlaceWords (g : grid) (words : list wordData) : autoPlaced :=
  let sortedWords := jsSort byLengthDescending words in
  match sortedWords with
  | [] => mkAutoPlaced g sortedWords (Returned [])
  | firstWord :: others =>
      match g with
      | [] => mkAutoPlaced g sortedWords Thrown
      | row0 :: _ =>
          let centerRow := Z.of_nat (length g) / 2 in
          let centerCol :=
            (Z.of_nat (length row0) - Z.of_nat (length (wWord firstWord))) / 2 in
          let firstWord' := withPlacement firstWord centerRow centerCol horizontal in
          let words' := firstWord' :: others in
          match placeWord g firstWord' with
          | (g1, Thrown) => mkAutoPlaced g1 words' Thrown
          | (g1, Returned ok) =>
              let placedWords := if ok then [firstWord'] else [] in
              let '(g2, res) := placeRemaining g1 others placedWords in
              mkAutoPlaced g2 words' res
          end
      end
  end.

End GridHelper.

(** ** The grid quality validator (gridValidator.js) *)

Module GridValidator.

Import GridHelper.

(** [this.rules]. *)
Record rules : Type := mkRules {
  minGridSize : Z;
  maxGridSize : Z;
  minWordLength : nat;
  maxWordLength : nat;
  minWordsCount : nat;
  maxWordsCount : nat;
  minDensity : Q;
  maxDensity : Q;
  minIntersections : Q;
  maxIsolatedCells : nat
}.

Definition defaultRules : rules :=
  {| minGridSize := 5; maxGridSize := 25; minWordLength := 2;
     maxWordLength := 25; minWordsCount := 2; maxWordsCount := 100;
     minDensity := 1 # 10; maxDensity := 8 # 10; minIntersections := 1;
     maxIsolatedCells := 0 |}.

Definition RELAXED : jsstring := js "relaxed".
Definition NORMAL : jsstring := js "normal".
Definition STRICT : jsstring := js "strict".

(** The entries of [errors], [warnings] and [suggestions]: one
    constructor per message of the source, carrying the values the
    message interpolates. *)
Inductive message : Type :=
| GridNotArray
| GridIsEmpty
| RowHasBadLength (i : nat)
| CellHasBadStructure (row col : nat)
| GridTooSmall (width height : Z)
| GridTooLarge (width height : Z)
| AwkwardAspectRatio (aspectRatio : num)
| LargeGrid
| TooFewWords (n : nat)
| TooManyWords (n : nat)
| WordHasBadStructure (position : nat)
| WordTooShort (word : jsstring)
| WordTooLong (word : jsstring)
| ClueTooShort (word : jsstring)
| DuplicateWords (n : nat)
| DuplicateNumbers (n : nat)
| WordLeavesGrid (word : jsstring)
| WordThroughBlockedCell (word : jsstring) (row col : Z)
| LetterMismatch (row col : Z) (expected actual : jsstring)
| WordNotRegistered (word : jsstring) (row col : Z)
| FewIntersections (averagePerWord : num)
| IsolatedWords (words : list jsstring)
| NumberMismatch (word : jsstring)
| NumberedCellWithoutWords (n : Z)
| UnknownWordReference (row col : nat) (wordId : jsstring)
| LowDensity (density : num)
| HighDensity (density : num)
| ManyBlockedCells (blockedRatio : num)
| SeparateGroups (n : nat)
| IsolatedCells (n : nat)
| BalanceDirections
| GoodSymmetry
| AddSymmetry
| PuzzleTooSimple
| PuzzleTooHard
| CriticalFailure.

(** [result.details]: every sub-object is absent until its check has
    run. The lists that are only written for display (the intersection
    list, the letter distribution) are left out. *)
Record gridSize : Type := mkGridSize {
  gsWidth : Z; gsHeight : Z; gsAspectRatio : num }.

Record densityDetails : Type := mkDensity {
  filled : num; blockedRatio : num; filledCells : nat; blockedCells : nat;
  totalCells : nat }.

Record connectivity : Type := mkConnectivity {
  components : nat; isolatedCells : nat; largestComponent : nat }.

Record wordDistribution : Type := mkWordDistribution {
  wdTotal : nat; wdHorizontal : nat; wdVertical : nat; wdRatio : num;
  averageLength : num; lengthMin : nat; lengthMax : nat }.

Record symmetry : Type := mkSymmetry {
  symHorizontal : num; symVertical : num }.

Record complexity : Type := mkComplexity {
  wordDifficulty : num; intersectionDensity : num; overallComplexity : num }.

Record quadrants : Type := mkQuadrants {
  topLeft : nat; topRight : nat; bottomLeft : nat; bottomRight : nat }.

Record aesthetics : Type := mkAesthetics {
  balance : num; centerFocus : num; quadrantDistribution : quadrants }.

Record quality : Type := mkQuality {
  qWordDistribution : wordDistribution;
  qLettersTotal : nat;
  qSymmetry : symmetry;
  qComplexity : complexity;
  qAesthetics : aesthetics }.

Record details : Type := mkDetails {
  dGridSize : option gridSize;
  dWordsCount : option nat;
  dDuplicates : option (nat * nat);
  dPlacementErrors : option (nat * nat);
  dIntersections : option (nat * num * nat);
  dIntegrityIssues : option nat;
  dDensity : option densityDetails;
  dConnectivity : option connectivity;
  dQuality : option quality
}.

Record report : Type := mkReport {
  isValid : bool;
  errors : list message;
  warnings : list message;
  suggestions : list message;
  score : num;
  reportDetails : details
}.

Definition emptyDetails : details :=
  mkDetails None None None None None None None None None.

Definition set_isValid (v : bool) (r : report) : report :=
  mkReport v (errors r) (warnings r) (suggestions r) (score r) (reportDetails r).
Definition set_score (v : num) (r : report) : report :=
  mkReport (isValid r) (errors r) (warnings r) (suggestions r) v (reportDetails r).
Definition set_details (v : details) (r : report) : report :=
  mkReport (isValid r) (errors r) (warnings r) (suggestions r) (score r) v.

(** *** Checks as computations over the report under construction

    A check mutates [result] and may raise an exception; what it pushed
    before raising stays in [result]. *)
Definition check (A : Type) : Type := report -> report * outcome A.

Definition done_with {A} (a : A) : check A := fun r => (r, Returned a).

Definition andThen {A B} (m : check A) (f : A -> check B) : check B :=
  fun r =>
    match m r with
    | (r', Returned a) => f a r'
    | (r', Thrown) => (r', Thrown)
    end.

Definition raise {A} : check A := fun r => (r, Thrown).

Definition pushError (m : message) : check unit :=
  fun r => (mkReport (isValid r) (errors r ++ [m]) (warnings r) (suggestions r)
              (score r) (reportDetails r), Returned tt).

Definition pushWarning (m : message) : check unit :=
  fun r => (mkReport (isValid r) (errors r) (warnings r ++ [m]) (suggestions r)
              (score r) (reportDetails r), Returned tt).

Definition pushWarnings (ms : list message) : check unit :=
  fun r => (mkReport (isValid r) (errors r) (warnings r ++ ms) (suggestions r)
              (score r) (reportDetails r), Returned tt).

Definition pushSuggestions (ms : list message) : check unit :=
  fun r => (mkReport (isValid r) (errors r) (warnings r) (suggestions r ++ ms)
              (score r) (reportDetails r), Returned tt).

Definition updateDetails (f : details -> details) : check unit :=
  fun r => (set_details (f (reportDetails r)) r, Returned tt).

Definition when (b : bool) (m : check unit) : check unit :=
  if b then m else done_with tt.

(** A value that is [undefined] cannot be dereferenced. *)
Definition defined {A} (o : option A) : check A :=
  match o with
  | Some a => done_with a
  | None => raise
  end.

Notation "'do' x <- m ; k" := (andThen m (fun x => k))
  (at level 10, x name, m at level 100, k at level 200).
Notation "m ;; k" := (andThen m (fun _ => k))
  (at level 100, k at level 200, right associativity).

(** A loop whose body threads an accumulator. *)
Fixpoint forEach {A S} (body : S -> A -> check S) (l : list A) (s : S) : check S :=
  match l with
  | [] => done_with s
  | x :: l' => do s' <- body s x; forEach body l' s'
  end.

(** [grid[row][col]] followed by a property access. *)
Definition cellOf (g : grid) (row col : Z) : check cell :=
  do r <- defined (at_index g row);
  defined (at_index r col).

(** The positions [(row, col)] of a loop nest, in the order visited. *)
Definition positions (rows cols : list Z) : list (Z * Z) :=
  r ← rows; c ← cols; [(r, c)].

Definition upto (n : Z) : list Z := map Z.of_nat (seq 0 (Z.to_nat n)).

(** [grid[0]?.length || 0]. *)
Definition widthOf (g : grid) : Z := firstRowLength g.

Definition heightOf (g : grid) : Z := Z.of_nat (length g).

(** The cells of the grid with their indices, as the nested [forEach]
    visits them. *)
Definition indexedCells (g : grid) : list (nat * nat * cell) :=
  concat (imap (fun i r => imap (fun j c => (i, j, c)) r) g).

Definition allCells (g : grid) : list cell := concat g.

Definition count {A} (p : A -> bool) (l : list A) : nat :=
  length (List.filter p l).

(** The first argument of [validateGrid]: [null], or an array of rows
    of cells. *)
Inductive gridArg : Type :=
| GridNull
| GridArray (rows : grid).

(** The second argument: a [Map] from word id to word, in insertion
    order. *)
Abbreviation wordMap := (list (jsstring * wordData)).

Definition mapValues (words : wordMap) : list wordData := map snd words.
Definition mapHas (words : wordMap) (key : jsstring) : bool :=
  includes key (map fst words).

(** *** The cache key *)

(** The decimal text of an integer. *)
Definition showZ (z : Z) : jsstring := js (pretty z).

(** Conversion to a signed 32-bit integer. *)
Definition toInt32 (z : Z) : Z := (z + 2 ^ 31) mod 2 ^ 32 - 2 ^ 31.

Definition simpleHashValue (str : jsstring) : Z :=
  fold_left (fun hash char => toInt32 (toInt32 (hash * 32) - hash + Z.of_N char))
    str 0.

Definition simpleHash (str : jsstring) : jsstring := showZ (simpleHashValue str).

Definition cellText (c : cell) : jsstring :=
  letter c ++ (if blocked c then js "B" else []) ++
  match number c with
  | Some n => if n =? 0 then [] else showZ n
  | None => []
  end.

(** [grid.forEach] on [null] raises a TypeError. *)
Definition hashGrid (ga : gridArg) : outcome jsstring :=
  match ga with
  | GridNull => Thrown
  | GridArray g => Returned (simpleHash (concat (map cellText (allCells g))))
  end.

Definition wordText (w : wordData) : jsstring :=
  wWord w ++ js "-" ++ wDirection w ++ js "-" ++ showZ (wStartRow w) ++ js "-" ++
  showZ (wStartCol w).

(** [Array.prototype.join]. *)
Fixpoint join (sep : jsstring) (l : list jsstring) : jsstring :=
  match l with
  | [] => []
  | [x] => x
  | x :: l' => x ++ sep ++ join sep l'
  end.

Section Validator.

(** [String.prototype.localeCompare], whose order depends on the
    host's locale. *)
Variable localeCompare : jsstring -> jsstring -> Z.

Definition hashWords (words : wordMap) : jsstring :=
  let wordsArray :=
    jsSort (fun a b => localeCompare (wId a) (wId b)) (mapValues words) in
  simpleHash (join (js "|") (map wordText wordsArray)).

Definition generateCacheKey (ga : gridArg) (words : wordMap) (strictness : jsstring)
    : outcome jsstring :=
  match hashGrid ga with
  | Thrown => Thrown
  | Returned gridHash =>
      Returned (gridHash ++ js "-" ++ hashWords words ++ js "-" ++ strictness)
  end.

(** *** The validator instance *)

Record validator : Type := mkValidator {
  vRules : rules;
  currentStrictness : jsstring;
  validationCache : gmap jsstring report
}.

(** [new GridValidator()]. *)
Definition newValidator : validator := mkValidator defaultRules NORMAL ∅.

Variable this : validator.

(** *** validateGridStructure *)

(** The [typeof] tests hold of every cell of a typed grid. *)
Definition isValidCellStructure (c : cell) : bool := true.

Definition validateGridStructure (ga : gridArg) : check unit :=
  match ga with
  | GridNull => pushError GridNotArray
  | GridArray g =>
      if (length g =? 0)%nat then pushError GridIsEmpty
      else
        let firstRowLength := widthOf g in
        forEach (fun _ ir =>
            when (negb (Z.of_nat (length (snd ir)) =? firstRowLength))
              (pushError (RowHasBadLength (fst ir))))
          (tail (imap pair g)) tt ;;
        forEach (fun _ ijc =>
            when (negb (isValidCellStructure (snd ijc)))
              (pushError (CellHasBadStructure (fst (fst ijc)) (snd (fst ijc)))))
          (indexedCells g) tt
  end.

(** *** validateGridSize ([grid.length] of [null] raises) *)

Definition validateGridSize (ga : gridArg) : check unit :=
  match ga with
  | GridNull => raise
  | GridArray g =>
      let height := heightOf g in
      let width := widthOf g in
      when ((height <? minGridSize (vRules this)) || (width <? minGridSize (vRules this)))
        (pushError (GridTooSmall width height)) ;;
      when ((maxGridSize (vRules this) <? height) || (maxGridSize (vRules this) <? width))
        (pushError (GridTooLarge width height)) ;;
      let aspectRatio := div (ofZ (Z.max width height)) (ofZ (Z.min width height)) in
      when (gt aspectRatio (ofZ 2)) (pushWarning (AwkwardAspectRatio aspectRatio)) ;;
      when (400 <? width * height) (pushWarning LargeGrid) ;;
      updateDetails (fun d =>
        mkDetails (Some (mkGridSize width height aspectRatio)) (dWordsCount d)
          (dDuplicates d) (dPlacementErrors d) (dIntersections d)
          (dIntegrityIssues d) (dDensity d) (dConnectivity d) (dQuality d))
  end.

(** *** validateWords *)

Definition isValidWordStructure (w : wordData) : bool :=
  includes (wDirection w) [horizontal; vertical].

(** The code units [String.prototype.trim] strips. *)
Definition isWhiteSpace (c : N) : bool :=
  bool_decide (c ∈ [9; 10; 11; 12; 13; 32; 160; 5760; 8232; 8233; 8239; 8287;
                    12288; 65279]%N)
  || ((8192 <=? c)%N && (c <=? 8202)%N).

Fixpoint trimStart (s : jsstring) : jsstring :=
  match s with
  | [] => []
  | c :: s' => if isWhiteSpace c then trimStart s' else s
  end.

Definition trim (s : jsstring) : jsstring :=
  rev (trimStart (rev (trimStart s))).

(** The two sets and the two counters of the loop over the words. *)
Record seen : Type := mkSeen {
  wordTexts : list jsstring;
  wordNumbers : list Z;
  duplicateWords : nat;
  duplicateNumbers : nat
}.

Definition validateWords (words : wordMap) : check unit :=
  let wordsArray := mapValues words in
  when (length wordsArray <? minWordsCount (vRules this))%nat
    (pushError (TooFewWords (length wordsArray))) ;;
  when (maxWordsCount (vRules this) <? length wordsArray)%nat
    (pushWarning (TooManyWords (length wordsArray))) ;;
  do st <- forEach (fun st iw =>
      let index := fst iw in
      let word := snd iw in
      if negb (isValidWordStructure word) then
        pushError (WordHasBadStructure (index + 1)) ;; done_with st
      else
        when (length (wWord word) <? minWordLength (vRules this))%nat
          (pushError (WordTooShort (wWord word))) ;;
        when (maxWordLength (vRules this) <? length (wWord word))%nat
          (pushError (WordTooLong (wWord word))) ;;
        let st1 :=
          if includes (wWord word) (wordTexts st) then
            mkSeen (wordTexts st) (wordNumbers st) (S (duplicateWords st))
              (duplicateNumbers st)
          else
            mkSeen (wordTexts st ++ [wWord word]) (wordNumbers st)
              (duplicateWords st) (duplicateNumbers st) in
        let st2 :=
          match wNumber word with
          | Some n =>
              if n =? 0 then st1
              else if bool_decide (n ∈ wordNumbers st1) then
                mkSeen (wordTexts st1) (wordNumbers st1) (duplicateWords st1)
                  (S (duplicateNumbers st1))
              else
                mkSeen (wordTexts st1) (wordNumbers st1 ++ [n]) (duplicateWords st1)
                  (duplicateNumbers st1)
          | None => st1
          end in
        when (negb (truthy (wClue word)) || (length (trim (wClue word)) <? 5)%nat)
          (pushWarning (ClueTooShort (wWord word))) ;;
        done_with st2)
    (imap pair wordsArray) (mkSeen [] [] 0 0);
  when (0 <? duplicateWords st)%nat (pushError (DuplicateWords (duplicateWords st))) ;;
  when (0 <? duplicateNumbers st)%nat
    (pushWarning (DuplicateNumbers (duplicateNumbers st))) ;;
  updateDetails (fun d =>
    mkDetails (dGridSize d) (Some (length wordsArray))
      (Some (duplicateWords st, duplicateNumbers st)) (dPlacementErrors d)
      (dIntersections d) (dIntegrityIssues d) (dDensity d) (dConnectivity d)
      (dQuality d)).

(** *** validateWordPlacements *)

Definition validateWordPlacements (g : grid) (words : wordMap) : check unit :=
  let gridHeight := heightOf g in
  let gridWidth := widthOf g in
  do counts <- forEach (fun counts word =>
      let len := Z.of_nat (length (wWord word)) in
      let endRow :=
        if bool_decide (wDirection word = vertical) then wStartRow word + len - 1
        else wStartRow word in
      let endCol :=
        if bool_decide (wDirection word = horizontal) then wStartCol word + len - 1
        else wStartCol word in
      if (wStartRow word <? 0) || (wStartCol word <? 0) ||
         (gridHeight <=? endRow) || (gridWidth <=? endCol) then
        pushError (WordLeavesGrid (wWord word)) ;;
        done_with (S (fst counts), snd counts)
      else
        do overlapping <- forEach (fun overlapping ich =>
            let row := rowOf (wDirection word) (wStartRow word) (fst ich) in
            let col := colOf (wDirection word) (wStartCol word) (fst ich) in
            let expectedLetter := [snd ich] in
            do c <- cellOf g row col;
            if blocked c then
              pushError (WordThroughBlockedCell (wWord word) row col) ;;
              done_with overlapping
            else
              do overlapping1 <-
                (if truthy (letter c) && negb (bool_decide (letter c = expectedLetter))
                 then pushError (LetterMismatch row col expectedLetter (letter c)) ;;
                      done_with (S overlapping)
                 else done_with overlapping);
              when (negb (includes (wId word) (wordIds c)))
                (pushWarning (WordNotRegistered (wWord word) row col)) ;;
              done_with overlapping1)
          (imap pair (wWord word)) (snd counts);
        done_with (fst counts, overlapping))
    (mapValues words) (O, O);
  updateDetails (fun d =>
    mkDetails (dGridSize d) (dWordsCount d) (dDuplicates d) (Some counts)
      (dIntersections d) (dIntegrityIssues d) (dDensity d) (dConnectivity d)
      (dQuality d)).

(** *** validateIntersections *)

(** The inner loop over the letters of a word, left at the first cell
    that holds more than one word. *)
Fixpoint hasIntersections (g : grid) (word : wordData) (i : nat) (letters : list N)
    : check bool :=
  match letters with
  | [] => done_with false
  | _ :: letters' =>
      do c <- cellOf g (rowOf (wDirection word) (wStartRow word) i)
                (colOf (wDirection word) (wStartCol word) i);
      if (1 <? length (wordIds c))%nat then done_with true
      else hasIntersections g word (S i) letters'
  end.

Definition validateIntersections (g : grid) (words : wordMap) : check unit :=
  let totalIntersections :=
    count (fun c => (1 <? length (wordIds c))%nat) (allCells g) in
  do isolatedWords <- forEach (fun isolatedWords word =>
      do found <- hasIntersections g word 0 (wWord word);
      done_with (if negb found && (1 <? length words)%nat
                 then isolatedWords ++ [wWord word] else isolatedWords))
    (mapValues words) [];
  let averageIntersectionsPerWord :=
    if (0 <? length words)%nat then ratio totalIntersections (length words)
    else Fin 0 in
  when (bool_decide (currentStrictness this = STRICT) &&
        lt averageIntersectionsPerWord (Fin (minIntersections (vRules this))))
    (pushWarning (FewIntersections averageIntersectionsPerWord)) ;;
  when (0 <? length isolatedWords)%nat (pushWarning (IsolatedWords isolatedWords)) ;;
  updateDetails (fun d =>
    mkDetails (dGridSize d) (dWordsCount d) (dDuplicates d) (dPlacementErrors d)
      (Some (totalIntersections, averageIntersectionsPerWord, length isolatedWords))
      (dIntegrityIssues d) (dDensity d) (dConnectivity d) (dQuality d)).

(** *** validateGridIntegrity *)

(** Truthiness of a cell or word number: [null] and [0] are falsy. *)
Definition truthyNumber (n : option Z) : bool :=
  match n with
  | Some z => negb (z =? 0)
  | None => false
  end.

Definition validateGridIntegrity (g : grid) (words : wordMap) : check unit :=
  let numberedCells := List.filter (fun c => truthyNumber (number c)) (allCells g) in
  do issues1 <- forEach (fun issues word =>
      do r <- defined (at_index g (wStartRow word));
      let startCell := at_index r (wStartCol word) in
      if truthyNumber (wNumber word) then
        do c <- defined startCell;
        done_with (if bool_decide (number c = wNumber word) then issues
                   else issues ++ [NumberMismatch (wWord word)])
      else done_with issues)
    (mapValues words) [];
  let issues2 :=
    issues1 ++
    flat_map (fun c =>
        if (length (wordIds c) =? 0)%nat
        then [NumberedCellWithoutWords (default 0 (number c))] else [])
      numberedCells in
  let issues3 :=
    issues2 ++
    flat_map (fun ijc =>
        flat_map (fun wordId =>
            if negb (mapHas words wordId)
            then [UnknownWordReference (fst (fst ijc)) (snd (fst ijc)) wordId]
            else [])
          (wordIds (snd ijc)))
      (indexedCells g) in
  when (0 <? length issues3)%nat (pushWarnings issues3) ;;
  updateDetails (fun d =>
    mkDetails (dGridSize d) (dWordsCount d) (dDuplicates d) (dPlacementErrors d)
      (dIntersections d) (Some (length issues3)) (dDensity d) (dConnectivity d)
      (dQuality d)).

(** *** validateDensity *)

Definition isFilled (c : cell) : bool := truthy (letter c) && negb (blocked c).

Definition validateDensity (g : grid) : check unit :=
  let totalCells := Z.to_nat (heightOf g * widthOf g) in
  let blockedCells := count blocked (allCells g) in
  let filledCells :=
    count (fun c => negb (blocked c) && truthy (letter c)) (allCells g) in
  let density :=
    if (0 <? totalCells)%nat then ratio filledCells totalCells else Fin 0 in
  let blockedRatio :=
    if (0 <? totalCells)%nat then ratio blockedCells totalCells else Fin 0 in
  when (lt density (Fin (minDensity (vRules this)))) (pushWarning (LowDensity density)) ;;
  when (gt density (Fin (maxDensity (vRules this)))) (pushWarning (HighDensity density)) ;;
  when (gt blockedRatio (Fin (3 # 10))) (pushWarning (ManyBlockedCells blockedRatio)) ;;
  updateDetails (fun d =>
    mkDetails (dGridSize d) (dWordsCount d) (dDuplicates d) (dPlacementErrors d)
      (dIntersections d) (dIntegrityIssues d)
      (Some (mkDensity density blockedRatio filledCells blockedCells totalCells))
      (dConnectivity d) (dQuality d)).

(** *** validateIsolation *)

(** [visited[row][col]], [undefined] (falsy) outside the row. *)
Definition isVisited (visited : list (list bool)) (row col : Z) : bool :=
  default false (r ← at_index visited row; at_index r col).

Definition markVisited (visited : list (list bool)) (row col : Z) : list (list bool) :=
  alter (fun r => <[Z.to_nat col := true]> r) (Z.to_nat row) visited.

(** The recursive flood fill. Every call that goes on to recurse has
    marked a cell that was not marked, so the calls nest at most one
    deeper than the grid has cells: [depth] starts above that bound and
    is never used up. The host's own limit on the depth of the call
    stack is not modelled. *)
Fixpoint dfs (depth : nat) (g : grid) (row col : Z)
    (st : list (list bool) * list (Z * Z)) : check (list (list bool) * list (Z * Z)) :=
  match depth with
  | O => raise
  | S depth' =>
      if (row <? 0) || (heightOf g <=? row) || (col <? 0) || (firstRowLength g <=? col)
         || isVisited (fst st) row col then done_with st
      else
        do c <- cellOf g row col;
        if blocked c || negb (truthy (letter c)) then done_with st
        else
          let st0 := (markVisited (fst st) row col, snd st ++ [(row, col)]) in
          do st1 <- dfs depth' g (row - 1) col st0;
          do st2 <- dfs depth' g (row + 1) col st1;
          do st3 <- dfs depth' g row (col - 1) st2;
          dfs depth' g row (col + 1) st3
  end.

Definition findConnectedComponents (g : grid) : check (list (list (Z * Z))) :=
  let visited0 := map (map (fun _ => false)) g in
  do res <- forEach (fun vc rc =>
      let row := fst rc in
      let col := snd rc in
      if isVisited (fst vc) row col then done_with vc
      else
        do c <- cellOf g row col;
        if negb (blocked c) && truthy (letter c) then
          do st <- dfs (S (S (length (allCells g)))) g row col (fst vc, []);
          done_with (fst st,
                     if (0 <? length (snd st))%nat then snd vc ++ [snd st] else snd vc)
        else done_with vc)
    (positions (upto (heightOf g)) (upto (firstRowLength g))) (visited0, []);
  done_with (snd res).

Definition findIsolatedCells (g : grid) : check (list (Z * Z * jsstring)) :=
  forEach (fun isolated rc =>
      do c <- cellOf g (fst rc) (snd rc);
      done_with (if truthy (letter c) && negb (blocked c) &&
                    (length (wordIds c) =? 0)%nat
                 then isolated ++ [(fst rc, snd rc, letter c)] else isolated))
    (positions (upto (heightOf g)) (upto (firstRowLength g))) [].

Definition validateIsolation (g : grid) (words : wordMap) : check unit :=
  do connectedComponents <- findConnectedComponents g;
  do isolated <- findIsolatedCells g;
  when (1 <? length connectedComponents)%nat
    (pushWarning (SeparateGroups (length connectedComponents))) ;;
  when (maxIsolatedCells (vRules this) <? length isolated)%nat
    (pushWarning (IsolatedCells (length isolated))) ;;
  updateDetails (fun d =>
    mkDetails (dGridSize d) (dWordsCount d) (dDuplicates d) (dPlacementErrors d)
      (dIntersections d) (dIntegrityIssues d) (dDensity d)
      (Some (mkConnectivity (length connectedComponents) (length isolated)
               (foldr Nat.max O (map length connectedComponents))))
      (dQuality d)).

(** *** analyzeGridQuality *)

Definition sumNat (l : list nat) : nat := foldr Nat.add O l.

Definition analyzeWordDistribution (words : wordMap) : wordDistribution :=
  let wordsArray := mapValues words in
  let nHorizontal :=
    count (fun w => bool_decide (wDirection w = horizontal)) wordsArray in
  let nVertical :=
    count (fun w => bool_decide (wDirection w = vertical)) wordsArray in
  let lengths := map (fun w => length (wWord w)) wordsArray in
  let avgLength := orZero (ratio (sumNat lengths) (length lengths)) in
  mkWordDistribution (length wordsArray) nHorizontal nVertical
    (if (0 <? nHorizontal)%nat then ratio nVertical nHorizontal else Fin 0)
    avgLength
    (match lengths with [] => O | x :: l => foldr Nat.min x l end)
    (foldr Nat.max O lengths).

(** [analyzeLetterFrequency]: the number of filled cells (its
    per-letter table is only displayed). *)
Definition analyzeLetterFrequency (g : grid) : nat := count isFilled (allCells g).

Definition analyzeSymmetry (g : grid) : check symmetry :=
  let height := heightOf g in
  let width := widthOf g in
  do horizontalSymmetry <- forEach (fun n rc =>
      do a <- cellOf g (fst rc) (snd rc);
      do b <- cellOf g (height - 1 - fst rc) (snd rc);
      done_with (if eqb (blocked a) (blocked b) then S n else n))
    (positions (upto (height / 2)) (upto width)) O;
  do verticalSymmetry <- forEach (fun n cr =>
      do a <- cellOf g (snd cr) (fst cr);
      do b <- cellOf g (snd cr) (width - 1 - fst cr);
      done_with (if eqb (blocked a) (blocked b) then S n else n))
    (positions (upto (width / 2)) (upto height)) O;
  (* the counter is reset before the second loop nest *)
  let totalComparisons := Z.to_nat ((width / 2) * height) in
  done_with
    (mkSymmetry
       (if (0 <? totalComparisons)%nat then ratio horizontalSymmetry totalComparisons
        else Fin 0)
       (if (0 <? totalComparisons)%nat then ratio verticalSymmetry totalComparisons
        else Fin 0)).

Definition sumNum (l : list num) : num := fold_left add l (Fin 0).

Definition analyzeComplexity (g : grid) (words : wordMap) : complexity :=
  let wordsArray := mapValues words in
  let avgDifficulty :=
    orZero (Double.div
              (fold_left (fun sum w =>
                            Double.add sum (orZero (Double.double (wDifficulty w))))
                 wordsArray (Fin 0))
              (ofNat (length wordsArray))) in
  let crossings := List.filter (fun c => (1 <? length (wordIds c))%nat) (allCells g) in
  let intersectionCount := length crossings in
  let intersectionComplexity :=
    sumNat (map (fun c => (length (wordIds c) - 1)%nat) crossings) in
  let avgIntersectionComplexity :=
    if (0 <? intersectionCount)%nat
    then Double.div (ofNat intersectionComplexity) (ofNat intersectionCount)
    else Fin 0 in
  mkComplexity avgDifficulty avgIntersectionComplexity
    (Double.div (Double.add avgDifficulty avgIntersectionComplexity) (Fin 2)).

Definition analyzeQuadrantDistribution (g : grid) : check quadrants :=
  let height := heightOf g in
  let width := widthOf g in
  let midRow := height / 2 in
  let midCol := width / 2 in
  forEach (fun q rc =>
      let row := fst rc in
      let col := snd rc in
      do c <- cellOf g row col;
      done_with
        (if isFilled c then
           if (row <? midRow) && (col <? midCol) then
             mkQuadrants (S (topLeft q)) (topRight q) (bottomLeft q) (bottomRight q)
           else if (row <? midRow) && (midCol <=? col) then
             mkQuadrants (topLeft q) (S (topRight q)) (bottomLeft q) (bottomRight q)
           else if (midRow <=? row) && (col <? midCol) then
             mkQuadrants (topLeft q) (topRight q) (S (bottomLeft q)) (bottomRight q)
           else
             mkQuadrants (topLeft q) (topRight q) (bottomLeft q) (S (bottomRight q))
         else q))
    (positions (upto height) (upto width)) (mkQuadrants O O O O).

(** The rows and columns from [lo] up to [hi] excluded. *)
Definition fromTo (lo hi : Z) : list Z := map (fun k => lo + k) (upto (hi - lo)).

Definition analyzeCenterFilling (g : grid) : check num :=
  let height := heightOf g in
  let width := widthOf g in
  let centerRowStart := height / 4 in
  let centerRowEnd := (3 * height) / 4 in
  let centerColStart := width / 4 in
  let centerColEnd := (3 * width) / 4 in
  do counts <- forEach (fun counts rc =>
      if (fst rc <? height) && (snd rc <? width) then
        do c <- cellOf g (fst rc) (snd rc);
        done_with (S (fst counts),
                   if isFilled c then S (snd counts) else snd counts)
      else done_with counts)
    (positions (fromTo centerRowStart centerRowEnd) (fromTo centerColStart centerColEnd))
    (O, O);
  done_with (if (0 <? fst counts)%nat then ratio (snd counts) (fst counts) else Fin 0).

Definition analyzeAesthetics (g : grid) : check aesthetics :=
  let height := heightOf g in
  let width := widthOf g in
  do quarters <- analyzeQuadrantDistribution g;
  do centerFilled <- analyzeCenterFilling g;
  let imbalance :=
    Z.abs (Z.of_nat (topLeft quarters) + Z.of_nat (bottomRight quarters)
           - Z.of_nat (topRight quarters) - Z.of_nat (bottomLeft quarters)) in
  done_with
    (mkAesthetics
       (Double.sub (Fin 1) (Double.div (ofZ imbalance) (ofZ (height * width))))
       centerFilled quarters).

(** The fields are read as the doubles they hold, the constants are the
    doubles nearest to the decimals. *)
Definition generateQualityRecommendations (q : quality) : check unit :=
  let ratio := Double.double (wdRatio (qWordDistribution q)) in
  let horizontal := Double.double (symHorizontal (qSymmetry q)) in
  let vertical := Double.double (symVertical (qSymmetry q)) in
  let overall := Double.double (overallComplexity (qComplexity q)) in
  let s1 :=
    if gt (abs (Double.sub ratio (Fin 1))) (Double.literal (3 # 10))
    then [BalanceDirections] else [] in
  let s2 :=
    if gt horizontal (Double.literal (8 # 10)) ||
       gt vertical (Double.literal (8 # 10)) then [GoodSymmetry]
    else if lt horizontal (Double.literal (3 # 10)) &&
            lt vertical (Double.literal (3 # 10)) then [AddSymmetry]
    else [] in
  let s3 :=
    if lt overall (Double.literal (3 # 10)) then [PuzzleTooSimple]
    else if gt overall (Double.literal (8 # 10)) then [PuzzleTooHard]
    else [] in
  pushSuggestions (s1 ++ s2 ++ s3).

Definition analyzeGridQuality (g : grid) (words : wordMap) : check unit :=
  let distribution := analyzeWordDistribution words in
  let letters := analyzeLetterFrequency g in
  do sym <- analyzeSymmetry g;
  let cx := analyzeComplexity g words in
  do aes <- analyzeAesthetics g;
  let q := mkQuality distribution letters sym cx aes in
  generateQualityRecommendations q ;;
  updateDetails (fun d =>
    mkDetails (dGridSize d) (dWordsCount d) (dDuplicates d) (dPlacementErrors d)
      (dIntersections d) (dIntegrityIssues d) (dDensity d) (dConnectivity d)
      (Some q)).

(** *** calculateOverallScore *)

(** Every step of the sum is a double operation; the fields of the
    report and the rules are read as the doubles they hold. *)
Definition calculateOverallScore (result : report) : num :=
  let score0 := ofZ 100 in
  let score1 :=
    Double.sub score0 (Double.mul (ofNat (length (errors result))) (Fin 20)) in
  let score2 :=
    Double.sub score1 (Double.mul (ofNat (length (warnings result))) (Fin 5)) in
  let score5 :=
    match dQuality (reportDetails result) with
    | Some q =>
        let horizontal := Double.double (symHorizontal (qSymmetry q)) in
        let vertical := Double.double (symVertical (qSymmetry q)) in
        let symmetryBonus := Double.mul (Double.add horizontal vertical) (Fin 5) in
        let score3 := Double.add score2 symmetryBonus in
        let score4 :=
          Double.add score3
            (Double.mul (Double.double (balance (qAesthetics q))) (Fin 10)) in
        match dDensity (reportDetails result) with
        | Some d =>
            let density := Double.double (filled d) in
            if lt density (Double.nearest (minDensity (vRules this))) ||
               gt density (Double.nearest (maxDensity (vRules this)))
            then Double.sub score4 (Fin 10) else score4
        | None => score4
        end
    | None => score2
    end in
  max (Fin 0) (min (Fin 100) (round score5)).

(** *** validateGrid *)

(** The body of the [try] block. The checks after [validateGridSize]
    are only reached with an array. *)
Definition runChecks (ga : gridArg) (words : wordMap) : check unit :=
  validateGridStructure ga ;;
  validateGridSize ga ;;
  match ga with
  | GridNull => raise
  | GridArray g =>
      validateWords words ;;
      validateWordPlacements g words ;;
      validateIntersections g words ;;
      validateGridIntegrity g words ;;
      validateDensity g ;;
      validateIsolation g words ;;
      analyzeGridQuality g words ;;
      (fun result =>
         let result1 := set_score (calculateOverallScore result) result in
         (set_isValid (length (errors result1) =? 0)%nat result1, Returned tt))
  end.

(** The [catch] block. *)
Definition onFailure (result : report) : report :=
  set_score (Fin 0)
    (fst (pushError CriticalFailure (set_isValid false result))).

End Validator.

Definition freshResult : report := mkReport true [] [] [] (Fin 0) emptyDetails.

(** [validateGrid]: the instance after the call and what the call
    returned. *)
Definition validateGrid (localeCompare : jsstring -> jsstring -> Z) (this : validator)
    (ga : gridArg) (words : wordMap) (strictness : jsstring)
    : validator * outcome report :=
  match generateCacheKey localeCompare ga words strictness with
  | Thrown => (this, Thrown)
  | Returned cacheKey =>
      match validationCache this !! cacheKey with
      | Some cached => (this, Returned cached)
      | None =>
          let this1 := mkValidator (vRules this) strictness (validationCache this) in
          let result :=
            match runChecks this1 ga words freshResult with
            | (r, Returned _) => r
            | (r, Thrown) => onFailure r
            end in
          (mkValidator (vRules this1) (currentStrictness this1)
             (<[cacheKey := result]> (validationCache this1)),
           Returned result)
      end
  end.

(** [clearCache], [setRules] and [setStrictness]. *)
Definition clearCache (this : validator) : validator :=
  mkValidator (vRules this) (currentStrictness this) ∅.

Definition setRules (this : validator) (newRules : rules) : validator :=
  clearCache (mkValidator newRules (currentStrictness this) (validationCache this)).

Definition setStrictness (this : validator) (strictness : jsstring) : validator :=
  if includes strictness [RELAXED; NORMAL; STRICT] then
    clearCache (mkValidator (vRules this) strictness (validationCache this))
  else this.

End GridValidator.

(** ** The word quality validator: calculateWordScore *)

Module WordValidator.

(** The parts of a validation result the score reads. A field that has
    not been set is [undefined] ([None]). *)
Record metadata : Type := mkMetadata {
  complexity : option num;
  uniqueCharsRatio : option num;
  semanticRelevance : option num
}.

Record metrics : Type := mkMetrics {
  crosswordFriendliness : option num;
  readabilityScore : option num
}.

Record result : Type := mkResult {
  errors : list jsstring;
  warnings : list jsstring;
  resultMetadata : metadata;
  resultMetrics : option metrics
}.

(** A field as the double it holds; [undefined] compares as [NaN]: every
    comparison with it is false. *)
Definition numberOf (o : option num) : num := Double.double (default NaN o).

(** [o || 0]. *)
Definition orZeroOpt (o : option num) : num := orZero (numberOf o).

(** Every step of the sum is a double operation. *)
Definition calculateWordScore (r : result) : num :=
  let score0 := ofZ 100 in
  let score1 := Double.sub score0 (Double.mul (ofNat (length (errors r))) (Fin 30)) in
  let score2 := Double.sub score1 (Double.mul (ofNat (length (warnings r))) (Fin 10)) in
  let score3 :=
    if ge (numberOf (complexity (resultMetadata r))) (Double.literal (3 # 10)) &&
       le (numberOf (complexity (resultMetadata r))) (Double.literal (7 # 10))
    then Double.add score2 (Fin 10) else score2 in
  let score4 :=
    if gt (numberOf (uniqueCharsRatio (resultMetadata r))) (Double.literal (6 # 10))
    then Double.add score3 (Fin 5) else score3 in
  let score5 :=
    if gt (numberOf (semanticRelevance (resultMetadata r))) (Double.literal (6 # 10))
    then Double.add score4 (Fin 10) else score4 in
  let score7 :=
    match resultMetrics r with
    | Some m =>
        let score6 :=
          Double.add score5
            (Double.mul (orZeroOpt (crosswordFriendliness m)) (Fin 15)) in
        Double.add score6 (Double.mul (orZeroOpt (readabilityScore m)) (Fin 10))
    | None => score5
    end in
  max (Fin 0) (min (Fin 100) (round score7)).

(** The three conditions of the quality bonuses. *)
Definition optimalComplexity (r : result) : bool :=
  ge (numberOf (complexity (resultMetadata r))) (Double.literal (3 # 10)) &&
  le (numberOf (complexity (resultMetadata r))) (Double.literal (7 # 10)).

Definition manyUniqueLetters (r : result) : bool :=
  gt (numberOf (uniqueCharsRatio (resultMetadata r))) (Double.literal (6 # 10)).

Definition relevantClue (r : result) : bool :=
  gt (numberOf (semanticRelevance (resultMetadata r))) (Double.literal (6 # 10)).

(** The score as the specification words it: penalties and the three
    quality bonuses, clamped, and nothing else. *)
Definition specifiedBonuses (r : result) : Z :=
  (if optimalComplexity r then 10 else 0) +
  (if manyUniqueLetters r then 5 else 0) +
  (if relevantClue r then 10 else 0).

Definition specifiedRawScore (r : result) : Z :=
  100 - 30 * Z.of_nat (length (errors r)) - 10 * Z.of_nat (length (warnings r))
  + specifiedBonuses r.

Definition specifiedWordScore (r : result) : num :=
  ofZ (Z.max 0 (Z.min 100 (specifiedRawScore r))).

(** What is added to 100, in this order: the two penalties, the bonuses
    that apply and, when the result has its metrics, 15 times the
    crossword friendliness and 10 times the readability score. *)
Definition scoreTerms (r : result) : list num :=
  [neg (Double.mul (ofNat (length (errors r))) (Fin 30));
   neg (Double.mul (ofNat (length (warnings r))) (Fin 10))]
  ++ (if optimalComplexity r then [Fin 10] else [])
  ++ (if manyUniqueLetters r then [Fin 5] else [])
  ++ (if relevantClue r then [Fin 10] else [])
  ++ match resultMetrics r with
     | Some m =>
         [Double.mul (orZeroOpt (crosswordFriendliness m)) (Fin 15);
          Double.mul (orZeroOpt (readabilityScore m)) (Fin 10)]
     | None => []
     end.

End WordValidator.

(** ** The word helper: calculateWordDifficulty *)

Module WordHelper.

(** Ї Є Ґ Ь X Z Q *)
Definition rareLetters : list N := [1031; 1028; 1168; 1068; 88; 90; 81]%N.

(** The class [БВГДЖЗЙКЛМНПРСТФХЦЧШЩ] of the cluster pattern. *)
Definition clusterConsonants : list N :=
  [1041; 1042; 1043; 1044; 1046; 1047; 1049; 1050; 1051; 1052; 1053; 1055; 1056;
   1057; 1058; 1060; 1061; 1062; 1063; 1064; 1065]%N.

(** ЯЄ ЮЯ ЩЯ ЬЯ *)
Definition rareCombinations : list jsstring :=
  [[1071; 1028]; [1070; 1071]; [1065; 1071]; [1068; 1071]]%N.

Definition isRare (c : N) : bool := bool_decide (c ∈ rareLetters).
Definition isClusterConsonant (c : N) : bool := bool_decide (c ∈ clusterConsonants).

(** [word.split('').filter(char => rareLetters.includes(char)).length] *)
Definition rareCount (word : jsstring) : nat := length (List.filter isRare word).

(** The number of matches of [/[...]{3,}/g]: the maximal runs of at
    least three consonants, [run] being the length of the run that ends
    where the scan stands. *)
Fixpoint clusterRuns (run : nat) (word : jsstring) : nat :=
  match word with
  | [] => if (3 <=? run)%nat then 1 else 0
  | c :: word' =>
      if isClusterConsonant c then clusterRuns (S run) word'
      else ((if (3 <=? run)%nat then 1 else 0) + clusterRuns 0 word')%nat
  end.

Definition consonantClusters (word : jsstring) : nat := clusterRuns 0 word.

Fixpoint startsWith (word combo : jsstring) : bool :=
  match combo, word with
  | [], _ => true
  | _ :: _, [] => false
  | x :: combo', y :: word' => bool_decide (x = y) && startsWith word' combo'
  end.

(** [String.prototype.includes]. *)
Fixpoint stringIncludes (word combo : jsstring) : bool :=
  startsWith word combo ||
  match word with
  | [] => false
  | _ :: word' => stringIncludes word' combo
  end.

Definition rareComboCount (word : jsstring) : nat :=
  fold_left (fun count combo => (count + (if stringIncludes word combo then 1 else 0))%nat)
    rareCombinations O.

Definition calculateWordDifficulty (word : jsstring) : num :=
  let difficulty0 := Fin 0 in
  let difficulty1 :=
    add difficulty0 (min (div (ofNat (length word)) (Fin 15)) (Fin (4 # 10))) in
  let difficulty2 :=
    add difficulty1
      (mul (div (ofNat (rareCount word)) (ofNat (length word))) (Fin (3 # 10))) in
  let difficulty3 :=
    add difficulty2 (mul (ofNat (consonantClusters word)) (Fin (1 # 10))) in
  let difficulty4 :=
    add difficulty3 (mul (ofNat (rareComboCount word)) (Fin (1 # 10))) in
  min difficulty4 (Fin 1).

End WordHelper.

(** ** Notions of the specification *)

Module Specified.

Import GridValidator.

(** *** The scores *)

(** The grid score of the specification: ten times the sum of the two
    symmetry ratios, ten times the balance, minus ten outside the density
    band, rounded and clamped. *)
Definition overallScore (this : validator) (result : report) : num :=
  let penalties :=
    ofZ (100 - 20 * Z.of_nat (length (errors result))
             - 5 * Z.of_nat (length (warnings result))) in
  match dQuality (reportDetails result), dDensity (reportDetails result) with
  | Some q, Some d =>
      let bonus :=
        add (mul (Fin 10) (add (symHorizontal (qSymmetry q)) (symVertical (qSymmetry q))))
            (mul (Fin 10) (balance (qAesthetics q))) in
      let penalty :=
        if lt (filled d) (Fin (minDensity (vRules this))) ||
           gt (filled d) (Fin (maxDensity (vRules this)))
        then Fin 10 else Fin 0 in
      JSNumber.max (Fin 0)
        (JSNumber.min (Fin 100) (round (sub (add penalties bonus) penalty)))
  | _, _ => JSNumber.max (Fin 0) (JSNumber.min (Fin 100) (round penalties))
  end.

(** *** The placement rules *)

Import GridHelper.

(** The cell under letter [i] of a candidate. *)
Definition spanCell (g : grid) (startRow startCol : Z) (direction : jsstring) (i : nat)
    : option cell :=
  getCell g (rowOf direction startRow i) (colOf direction startCol i).

(** Steps 1 to 6 of the legality check: at least two letters, one of
    the two directions, every letter over a cell of the grid that is not
    blocked and holds no other letter, and not every letter over a cell
    that already holds it. *)
Definition passesEarlierChecks (g : grid) (word : jsstring) (startRow startCol : Z)
    (direction : jsstring) : Prop :=
  (2 <= length word)%nat /\
  direction ∈ [horizontal; vertical] /\
  (forall i ch, word !! i = Some ch ->
     exists c, spanCell g startRow startCol direction i = Some c /\
               blocked c = false /\ (letter c = [] \/ letter c = [ch])) /\
  (exists i ch c, word !! i = Some ch /\
     spanCell g startRow startCol direction i = Some c /\ letter c <> [ch]).

(** No letter of the candidate lies over a cell that holds it. *)
Definition noIntersection (g : grid) (word : jsstring) (startRow startCol : Z)
    (direction : jsstring) : Prop :=
  forall i ch c, word !! i = Some ch ->
    spanCell g startRow startCol direction i = Some c -> letter c <> [ch].

(** [grid[a][b]], for natural indices. *)
Definition lookup2 (g : grid) (a b : nat) : option cell :=
  r ← g !! a; r !! b.

(** The word lies over position [(a, b)]. *)
Definition touches (w : wordData) (a b : nat) : Prop :=
  exists k ch, wWord w !! k = Some ch /\
    rowOf (wDirection w) (wStartRow w) k = Z.of_nat a /\
    colOf (wDirection w) (wStartCol w) k = Z.of_nat b.


(** No cell of the grid refers to the word id. *)
Definition idUnused (g : grid) (wordId : jsstring) : Prop :=
  forall row c, row ∈ g -> c ∈ row -> wordId ∉ wordIds c.

(** The number of letters, from index [i] on, over a cell that holds the
    same letter, and over a cell that holds another letter. *)
Fixpoint crossingCount (g : grid) (startRow startCol : Z) (direction : jsstring)
    (i : nat) (letters : list N) : nat :=
  match letters with
  | [] => O
  | ch :: letters' =>
      ((match spanCell g startRow startCol direction i with
        | Some c => if bool_decide (letter c = [ch]) then 1 else 0
        | None => 0
        end) + crossingCount g startRow startCol direction (S i) letters')%nat
  end.

Fixpoint conflictCount (g : grid) (startRow startCol : Z) (direction : jsstring)
    (i : nat) (letters : list N) : nat :=
  match letters with
  | [] => O
  | ch :: letters' =>
      ((match spanCell g startRow startCol direction i with
        | Some c =>
            if truthy (letter c) && negb (bool_decide (letter c = [ch])) then 1 else 0
        | None => 0
        end) + conflictCount g startRow startCol direction (S i) letters')%nat
  end.

(** The difficulty of a word of [len] letters as a rational, from its
    counts of rare letters, consonant clusters and rare combinations. *)
Definition difficultyValue (len rare clusters combos : nat) : Q :=
  Qmin (Qmin (inject_Z (Z.of_nat len) / 15) (4 # 10)
        + inject_Z (Z.of_nat rare) / inject_Z (Z.of_nat len) * (3 # 10)
        + inject_Z (Z.of_nat clusters) * (1 # 10)
        + inject_Z (Z.of_nat combos) * (1 # 10)) 1.

(** Whether the density of the report, as the double it holds, lies
    outside the band of the rules. *)
Definition outsideBand (r : rules) (d : densityDetails) : bool :=
  lt (Double.double (filled d)) (Double.nearest (minDensity r)) ||
  gt (Double.double (filled d)) (Double.nearest (maxDensity r)).

(** What the grid score adds to 100, in this order: the two penalties
    and, with the quality details, 5 times the sum of the two symmetry
    ratios and 10 times the balance, then, with the density details and
    a density outside the band, the last penalty. *)
Definition scoreTerms (this : validator) (result : report) : list num :=
  [neg (Double.mul (ofNat (length (errors result))) (Fin 20));
   neg (Double.mul (ofNat (length (warnings result))) (Fin 5))]
  ++ match dQuality (reportDetails result) with
     | Some q =>
         [Double.mul
            (Double.add (Double.double (symHorizontal (qSymmetry q)))
                        (Double.double (symVertical (qSymmetry q))))
            (Fin 5);
          Double.mul (Double.double (balance (qAesthetics q))) (Fin 10)]
         ++ match dDensity (reportDetails result) with
            | Some d => if outsideBand (vRules this) d then [Fin (-10)] else []
            | None => []
            end
     | None => []
     end.

(** The exact value of these terms and of 100, for the symmetry ratios
    [h] and [v] and the balance [b]. *)
Definition exactSum (this : validator) (result : report) (h v b : Q) : Q :=
  (inject_Z (100 - 20 * Z.of_nat (length (errors result))
                 - 5 * Z.of_nat (length (warnings result)))
   + 5 * (h + v) + 10 * b
   - match dDensity (reportDetails result) with
     | Some d => if outsideBand (vRules this) d then 10 else 0
     | None => 0
     end)%Q.

(** The penalties alone, in whole numbers. *)
Definition penalizedScore (result : report) : Z :=
  Z.max 0 (Z.min 100 (100 - 20 * Z.of_nat (length (errors result))
                          - 5 * Z.of_nat (length (warnings result)))).

End Specified.

(** ** Sample puzzles *)

Module Sample.

Import GridHelper GridValidator.

(** A collation of the host: by code units, the shorter string first. *)
Fixpoint byCodeUnits (a b : jsstring) : Z :=
  match a, b with
  | [], [] => 0
  | [], _ :: _ => -1
  | _ :: _, [] => 1
  | x :: a', y :: b' =>
      match (x ?= y)%N with
      | Lt => -1
      | Gt => 1
      | Eq => byCodeUnits a' b'
      end
  end.

(** [createEmptyGrid(5, 5)]. *)
Definition emptyGrid : grid :=
  map (fun row => map (fun col => createEmptyCell row col) [0; 1; 2; 3; 4])
    [0; 1; 2; 3; 4].

Definition cat : wordData :=
  mkWord (js "word_1") (js "CAT") (js "A small pet") horizontal 2 2 (Some 1) (Fin 0).

Definition car : wordData :=
  mkWord (js "word_2") (js "CAR") (js "It has four wheels") vertical 2 2 (Some 2) (Fin 0).

(** CAR registered under the id of CAT. *)
Definition carAsCat : wordData :=
  mkWord (js "word_1") (js "CAR") (js "It has four wheels") vertical 2 2 (Some 2) (Fin 0).

Definition dog : wordData :=
  mkWord (js "word_3") (js "DOG") (js "It barks") horizontal 0 0 (Some 3) (Fin 0).

Definition tiger : wordData :=
  mkWord (js "word_4") (js "TIGER") (js "A striped cat") [] 0 0 None (Fin 0).

(** The grid after [placeWord(grid, cat)], and after CAR was placed
    across it and removed again. *)
Definition catGrid : grid := fst (placeWord emptyGrid cat).

Definition catGridAfterCar : grid :=
  fst (removeWord (fst (placeWord catGrid car)) (wId car)).

(** The same letters and the same number in the same cells, and no word
    registered in any cell. *)
Definition typedGrid : grid :=
  putCell (putCell (putCell emptyGrid 2 2
                      (set_number (Some 1) (set_letter (js "C") (createEmptyCell 2 2))))
             2 3 (set_letter (js "A") (createEmptyCell 2 3)))
    2 4 (set_letter (js "T") (createEmptyCell 2 4)).

Definition catWords : wordMap := [(wId cat, cat)].

(** The same word before its clue was lengthened. *)
Definition catShortClue : wordData :=
  mkWord (wId cat) (wWord cat) (js "Pet") (wDirection cat) (wStartRow cat)
    (wStartCol cat) (wNumber cat) (wDifficulty cat).

Definition shortClueWords : wordMap := [(wId cat, catShortClue)].

(** The report of a first validation of the CAT puzzle. *)
Definition catReport : report :=
  match snd (validateGrid byCodeUnits newValidator (GridArray catGrid) catWords NORMAL) with
  | Returned r => r
  | Thrown => freshResult
  end.

(** A word result with one error and both metrics at one. *)
Definition oneError : WordValidator.result :=
  WordValidator.mkResult [js "error"] []
    (WordValidator.mkMetadata None None None)
    (Some (WordValidator.mkMetrics (Some (Fin 1)) (Some (Fin 1)))).

(** A report with four errors and two warnings, for a grid of 7 rows and
    5 columns with one word of three letters in its first quadrant: the
    symmetry ratios are 15/14 and 1, the balance is 1 - 3/35 and the
    density 3/35. *)
Definition lowReport : report :=
  mkReport false
    [TooFewWords 1; DuplicateWords 1; WordTooShort (js "A"); WordLeavesGrid (js "OWL")]
    [ClueTooShort (js "DOG"); LowDensity (Fin (3 # 35))] [] (Fin 0)
    (mkDetails None None None None None None
       (Some (mkDensity (Fin (3 # 35)) (Fin 0) 3 0 35)) None
       (Some (mkQuality (mkWordDistribution 1 1 0 (Fin 0) (Fin 3) 3 3) 3
                (mkSymmetry (Fin (15 # 14)) (Fin 1))
                (mkComplexity (Fin 0) (Fin 0) (Fin 0))
                (mkAesthetics (Double.sub (Fin 1) (Double.div (Fin 3) (Fin 35))) (Fin 0)
                   (mkQuadrants 3 0 0 0))))).

(** The quality of a puzzle with seven vertical words for ten
    horizontal ones. *)
Definition unevenQuality : quality :=
  mkQuality (mkWordDistribution 17 10 7 (ratio 7 10) (Fin 4) 4 4) 40
    (mkSymmetry (Fin (1 # 2)) (Fin (1 # 2)))
    (mkComplexity (Fin (1 # 2)) (Fin (1 # 2)) (Fin (1 # 2)))
    (mkAesthetics (Fin 1) (Fin (1 # 2)) (mkQuadrants 10 10 10 10)).

(** A word result with three errors and the metrics 0.36 and 0.01. *)
Definition threeErrors : WordValidator.result :=
  WordValidator.mkResult [js "first"; js "second"; js "third"] []
    (WordValidator.mkMetadata None None None)
    (Some (WordValidator.mkMetrics (Some (Fin (36 # 100))) (Some (Fin (1 # 100))))).

(** ЇААА and БВГА *)
Definition oneRareLetter : jsstring := [1031; 1040; 1040; 1040]%N.
Definition oneCluster : jsstring := [1041; 1042; 1043; 1040]%N.

End Sample.

(** ** The rest of the grid helper (gridHelper.js) *)

Module GridTools.

Import GridHelper.

(** What [clearGrid] does to one cell: a blocked cell is skipped; with
    [keepAnswers] the letter is first saved as [gameValue]. *)
Definition clearCell (keepAnswers : bool) (c : cell) : cell :=
  if blocked c then c
  else
    mkCell (cellRow c) (cellCol c) [] (number c) (blocked c) (wordIds c)
      (directions c) (isStart c) (isEnd c) (isIntersection c)
      (if keepAnswers then Some (letter c) else gameValue c) [] None false false.

Definition clearGrid (g : grid) (keepAnswers : bool) : grid :=
  map (map (clearCell keepAnswers)) g.

End GridTools.

(** ** The rest of the grid validator (gridValidator.js) *)

Module GridChecks.

Import GridHelper GridValidator.

(** The entries of [errors] of [validateSingleWord]. *)
Inductive finding : Type :=
| BadWordStructure
| WordOutsideGrid
| ThroughBlockedCell (row col : Z)
| ConflictingLetter (row col : Z).

Record wordVerdict : Type := mkWordVerdict {
  wordIsValid : bool;
  wordErrors : list finding
}.

(** The loop of [validateSingleWord] over the letters from index [i] on;
    a cell missing from its row raises a TypeError. *)
Fixpoint checkWordCells (g : grid) (word : wordData) (i : nat) (letters : list N)
    (result : wordVerdict) : outcome wordVerdict :=
  match letters with
  | [] => Returned result
  | ch :: letters' =>
      let row := rowOf (wDirection word) (wStartRow word) i in
      let col := colOf (wDirection word) (wStartCol word) i in
      if (0 <=? row) && (row <? heightOf g) && (0 <=? col) && (col <? widthOf g) then
        match r ← at_index g row; at_index r col with
        | None => Thrown
        | Some c =>
            let result1 :=
              if blocked c then
                mkWordVerdict false (wordErrors result ++ [ThroughBlockedCell row col])
              else result in
            let result2 :=
              if truthy (letter c) && negb (bool_decide (letter c = [ch])) then
                mkWordVerdict false (wordErrors result1 ++ [ConflictingLetter row col])
              else result1 in
            checkWordCells g word (S i) letters' result2
        end
      else checkWordCells g word (S i) letters' result
  end.

Definition validateSingleWord (g : grid) (word : wordData) : outcome wordVerdict :=
  let result := mkWordVerdict true [] in
  if negb (isValidWordStructure word) then
    Returned (mkWordVerdict false [BadWordStructure])
  else
    let len := Z.of_nat (length (wWord word)) in
    let endRow :=
      if bool_decide (wDirection word = vertical) then wStartRow word + len - 1
      else wStartRow word in
    let endCol :=
      if bool_decide (wDirection word = horizontal) then wStartCol word + len - 1
      else wStartCol word in
    let result1 :=
      if (wStartRow word <? 0) || (wStartCol word <? 0) ||
         (heightOf g <=? endRow) || (widthOf g <=? endCol)
      then mkWordVerdict false (wordErrors result ++ [WordOutsideGrid])
      else result in
    checkWordCells g word 0 (wWord word) result1.

(** [quickValidate]: every failure, raised or found, is [false]. *)
Definition quickValidate (this : validator) (ga : gridArg) (words : wordMap) : bool :=
  match ga with
  | GridNull => false
  | GridArray g =>
      if (length g =? 0)%nat || (length words =? 0)%nat then false
      else
        let height := heightOf g in
        let width := widthOf g in
        if (height <? minGridSize (vRules this)) || (width <? minGridSize (vRules this)) ||
           (maxGridSize (vRules this) <? height) || (maxGridSize (vRules this) <? width)
        then false
        else if (length words <? minWordsCount (vRules this))%nat ||
                (maxWordsCount (vRules this) <? length words)%nat
        then false
        else
          forallb (fun word =>
              let len := Z.of_nat (length (wWord word)) in
              let endRow :=
                if bool_decide (wDirection word = vertical) then wStartRow word + len - 1
                else wStartRow word in
              let endCol :=
                if bool_decide (wDirection word = horizontal) then wStartCol word + len - 1
                else wStartCol word in
              negb ((wStartRow word <? 0) || (wStartCol word <? 0) ||
                    (height <=? endRow) || (width <=? endCol)))
            (mapValues words)
  end.

End GridChecks.

(** ** The rest of the word helper *)

Module WordTools.

Import WordHelper.

(** The order of the default [sort] on one-unit strings: by code unit. *)
Definition byCodeUnit (a b : N) : Z := Z.of_N a - Z.of_N b.

Definition areAnagrams (word1 word2 : jsstring) : bool :=
  if negb (length word1 =? length word2)%nat then false
  else bool_decide (jsSort byCodeUnit word1 = jsSort byCodeUnit word2).

Definition calculateIntersectionQuality (word1 word2 : jsstring) (index1 index2 : nat)
    : num :=
  let quality0 := Fin (5 # 10) in
  let centerDistance1 :=
    abs (sub (ofNat index1) (div (ofNat (length word1)) (Fin 2))) in
  let centerDistance2 :=
    abs (sub (ofNat index2) (div (ofNat (length word2)) (Fin 2))) in
  let avgCenterDistance := div (add centerDistance1 centerDistance2) (Fin 2) in
  let quality1 :=
    add quality0
      (mul (sub (Fin 1)
              (div avgCenterDistance (ofNat (Nat.max (length word1) (length word2)))))
           (Fin (3 # 10))) in
  let quality2 :=
    match word1 !! index1 with
    | Some ch => if isRare ch then add quality1 (Fin (2 # 10)) else quality1
    | None => quality1
    end in
  JSNumber.min quality2 (Fin 1).

Record crossingOption : Type := mkCrossingOption {
  optionLetter : jsstring;
  word1Index : nat;
  word2Index : nat;
  quality : num
}.

(** The sign a comparator's value has for [sort]; [NaN] counts as 0. *)
Definition comparatorSign (n : num) : Z :=
  match n with
  | NaN => 0
  | Fin q => match (0 ?= q)%Q with Lt => 1 | Eq => 0 | Gt => -1 end
  | PosInf => 1
  | NegInf => -1
  end.

Definition byQualityDescending (a b : crossingOption) : Z :=
  comparatorSign (sub (quality b) (quality a)).

Definition findIntersections (word1 word2 : jsstring) : list crossingOption :=
  let intersections :=
    concat (imap (fun i a =>
      concat (imap (fun j b =>
        if bool_decide (a = b) then
          [mkCrossingOption [a] i j (calculateIntersectionQuality word1 word2 i j)]
        else []) word2)) word1) in
  jsSort byQualityDescending intersections.

Record gridSize : Type := mkSize { sizeWidth : Z; sizeHeight : Z }.

Record placementOption : Type := mkPlacementOption {
  optionRow : Z;
  optionCol : Z;
  optionDirection : jsstring;
  optionQuality : num;
  optionIntersections : list crossingOption
}.

Definition calculatePlacementFromIntersection (newWord existingWord : wordData)
    (intersection : crossingOption) (size : gridSize) : option placementOption :=
  let newDirection :=
    if bool_decide (wDirection existingWord = horizontal) then vertical else horizontal in
  let startRow :=
    if bool_decide (wDirection existingWord = horizontal)
    then wStartRow existingWord - Z.of_nat (word1Index intersection)
    else wStartRow existingWord + Z.of_nat (word2Index intersection) in
  let startCol :=
    if bool_decide (wDirection existingWord = horizontal)
    then wStartCol existingWord + Z.of_nat (word2Index intersection)
    else wStartCol existingWord - Z.of_nat (word1Index intersection) in
  let len := Z.of_nat (length (wWord newWord)) in
  let endRow := if bool_decide (newDirection = vertical) then startRow + len - 1 else startRow in
  let endCol :=
    if bool_decide (newDirection = horizontal) then startCol + len - 1 else startCol in
  if (startRow <? 0) || (startCol <? 0) || (sizeHeight size <=? endRow) ||
     (sizeWidth size <=? endCol)
  then None
  else Some (mkPlacementOption startRow startCol newDirection (quality intersection)
               [intersection]).

Definition byOptionQualityDescending (a b : placementOption) : Z :=
  comparatorSign (sub (optionQuality b) (optionQuality a)).

Definition generatePlacementOptions (word : wordData) (existingWords : list wordData)
    (size : gridSize) : list placementOption :=
  if (length existingWords =? 0)%nat then
    let centerRow := sizeHeight size / 2 in
    let centerCol := (sizeWidth size - Z.of_nat (length (wWord word))) / 2 in
    [mkPlacementOption centerRow centerCol horizontal (Fin 1) []]
  else
    let options :=
      flat_map (fun existingWord =>
          omap (fun intersection =>
                  calculatePlacementFromIntersection word existingWord intersection size)
            (findIntersections (wWord word) (wWord existingWord)))
        existingWords in
    jsSort byOptionQualityDescending options.

(** [for (const char of word)] walks the code points: a high surrogate
    followed by a low one is a single [char]. *)
Definition isHighSurrogate (c : N) : bool := (55296 <=? c)%N && (c <=? 56319)%N.
Definition isLowSurrogate (c : N) : bool := (56320 <=? c)%N && (c <=? 57343)%N.

Fixpoint codePoints (word : jsstring) : list jsstring :=
  match word with
  | [] => []
  | c :: rest =>
      match rest with
      | c' :: rest' =>
          if isHighSurrogate c && isLowSurrogate c' then [c; c'] :: codePoints rest'
          else [c] :: codePoints rest
      | [] => [[c]]
      end
  end.

(** А О І Е Н Т Р С *)
Definition commonLetters : list jsstring :=
  [[1040]; [1054]; [1030]; [1045]; [1053]; [1058]; [1056]; [1057]]%N.

(** Ї Є Ґ Ь Ф Х Ц Ч Ш Щ *)
Definition rarityLetters : list jsstring :=
  [[1031]; [1028]; [1168]; [1068]; [1060]; [1061]; [1062]; [1063]; [1064]; [1065]]%N.

Definition rarityPoints (char : jsstring) : nat :=
  if includes char rarityLetters then 2
  else if negb (includes char commonLetters) then 1
  else 0.

Definition calculateWordRarity (word : jsstring) : num :=
  let rarity := fold_left (fun rarity char => (rarity + rarityPoints char)%nat)
                  (codePoints word) O in
  div (ofNat rarity) (ofNat (length word)).

End WordTools.

(** ** Notions for the properties of the grid *)

Module GridNotions.

(** Every row has the length of the first. *)
Definition rectangular (g : grid) : Prop :=
  forall row, row ∈ g -> Z.of_nat (length row) = GridHelper.firstRowLength g.

(** What the mutators keep of a cell: no id twice, the intersection flag
    following the number of ids, a cell without ids empty, a cell with ids
    lettered and not blocked. *)
Definition cellInvariant (c : cell) : Prop :=
  NoDup (wordIds c) /\
  isIntersection c = (1 <? length (wordIds c))%nat /\
  (wordIds c = [] ->
     letter c = [] /\ number c = None /\ directions c = [] /\
     isStart c = false /\ isEnd c = false) /\
  (wordIds c <> [] -> letter c <> [] /\ blocked c = false).

Definition gridInvariant (g : grid) : Prop :=
  forall row c, row ∈ g -> c ∈ row -> cellInvariant c.

(** The rows [createEmptyGrid] builds. *)
Definition emptyRows (width height : Z) : grid :=
  map (fun row => map (fun col => GridHelper.createEmptyCell (Z.of_nat row) (Z.of_nat col))
                       (seq 0 (Z.to_nat width)))
      (seq 0 (Z.to_nat height)).

(** The word lies on the grid: each of its letters is over a cell that
    holds that letter and lists the word's id. *)
Definition onGrid (g : grid) (w : wordData) : Prop :=
  forall k ch, wWord w !! k = Some ch ->
    exists c,
      GridHelper.getCell g (GridHelper.rowOf (wDirection w) (wStartRow w) k)
        (GridHelper.colOf (wDirection w) (wStartCol w) k) = Some c /\
      letter c = [ch] /\ wId w ∈ wordIds c.

(** The pairs [(i, j)] with letter [i] of the first word equal to letter
    [j] of the second, in the order of [i], then of [j]. *)
Definition equalLetterPairs (word1 word2 : jsstring) : list (nat * nat) :=
  List.filter (fun p => bool_decide (word1 !! fst p = word2 !! snd p))
    (list_prod (seq 0 (length word1)) (seq 0 (length word2))).

End GridNotions.

Module ReportNotions.

Import GridValidator.

(** A report says it is valid exactly when it lists no error. *)
Definition coherent (r : report) : Prop := isValid r = true <-> errors r = [].

Definition cacheCoherent (this : validator) : Prop :=
  forall key r, validationCache this !! key = Some r -> coherent r.

(** The relation [R] holds between the report before and the report
    after the computation, whether it returns or raises. *)
Definition via (R : report -> report -> Prop) {A : Type} (m : check A) : Prop :=
  forall r, R r (fst (m r)).

(** The polynomial [s[0] * 31^(n-1) + ... + s[n-1]] over the code units
    of a string, without wrap-around. *)
Definition polynomialHash (str : jsstring) : Z :=
  fold_left (fun hash char => 31 * hash + Z.of_N char) str 0.

(** [localeCompare] orders the ids of the words: it is asymmetric and
    transitive on them and tells any two of them apart. *)
Definition ordersIds (localeCompare : jsstring -> jsstring -> Z) (words : wordMap) : Prop :=
  let ids := map wId (mapValues words) in
  (forall a b, a ∈ ids -> b ∈ ids -> 0 < localeCompare a b -> localeCompare b a <= 0) /\
  (forall a b c, a ∈ ids -> b ∈ ids -> c ∈ ids ->
     localeCompare a b <= 0 -> localeCompare b c <= 0 -> localeCompare a c <= 0) /\
  (forall a b, a ∈ ids -> b ∈ ids ->
     localeCompare a b <= 0 -> localeCompare b a <= 0 -> a = b).

(** The numbers of the quality details that the score reads have upper
    bounds: the symmetry ratios are at most 2, the balance is at most 1. *)
Definition boundedScoreInputs (d : details) : Prop :=
  match dQuality d with
  | Some q =>
      Double.atMost 2 (symHorizontal (qSymmetry q)) /\
      Double.atMost 2 (symVertical (qSymmetry q)) /\
      Double.atMost 1 (balance (qAesthetics q))
  | None => True
  end.

(** Nothing was pushed to [errors]. *)
Definition sameErrors (r r' : report) : Prop := errors r' = errors r.

End ReportNotions.

(** * Properties *)

(** ** Numbers *)

Section NumberFacts.

Lemma Qle_bool_inject (a b : Z) : Qle_bool (inject_Z a) (inject_Z b) = (a <=? b).
Proof.
  destruct (Z.leb_spec a b) as [H|H].
  - apply Qle_bool_iff. rewrite <- Zle_Qle. exact H.
  - destruct (Qle_bool (inject_Z a) (inject_Z b)) eqn:E; [|reflexivity].
    apply Qle_bool_iff in E. rewrite <- Zle_Qle in E. lia.
Qed.

Lemma min_ofZ (a b : Z) : JSNumber.min (ofZ a) (ofZ b) = ofZ (Z.min a b).
Proof.
  unfold JSNumber.min, ofZ, lt. rewrite Qle_bool_inject.
  destruct (Z.leb_spec a b) as [H|H]; simpl.
  - rewrite Z.min_l by lia. reflexivity.
  - rewrite Z.min_r by lia. reflexivity.
Qed.

Lemma max_ofZ (a b : Z) : JSNumber.max (ofZ a) (ofZ b) = ofZ (Z.max a b).
Proof.
  unfold JSNumber.max, ofZ, lt. rewrite Qle_bool_inject.
  destruct (Z.leb_spec b a) as [H|H]; simpl.
  - rewrite Z.max_l by lia. reflexivity.
  - rewrite Z.max_r by lia. reflexivity.
Qed.

(** Rounding and clamping a finite number gives an integer of [0..100]. *)
Lemma clamp_round (q : Q) :
  JSNumber.max (Fin 0) (JSNumber.min (Fin 100) (round (Fin q))) =
  ofZ (Z.max 0 (Z.min 100 (Qfloor (q + (1 # 2))))).
Proof.
  change (Fin 0) with (ofZ 0). change (Fin 100) with (ofZ 100).
  unfold round. rewrite min_ofZ, max_ofZ. reflexivity.
Qed.

End NumberFacts.

(** ** Rounding to a double *)

Section DoubleFacts.

Import Double.

Local Open Scope Q_scope.

Lemma pow2_pos (e : Z) : 0 < pow2 e.
Proof. apply Qpower_0_lt. reflexivity. Qed.

Lemma pow2_plus (a b : Z) : pow2 (a + b) == pow2 a * pow2 b.
Proof. apply Qpower_plus. discriminate. Qed.

Lemma pow2_le (a b : Z) : (a <= b)%Z -> pow2 a <= pow2 b.
Proof. intros H. apply Qpower_le_compat_l; [exact H | discriminate]. Qed.

Lemma pow2_lt (a b : Z) : (a < b)%Z -> pow2 a < pow2 b.
Proof. intros H. apply Qpower_lt_compat_l; [exact H | reflexivity]. Qed.

Lemma pow2_lt_inv (a b : Z) : pow2 a < pow2 b -> (a < b)%Z.
Proof. intros H. apply Qpower_lt_compat_l_inv with (q := 2); [exact H | reflexivity]. Qed.

Lemma pow2_inject (n : Z) : (0 <= n)%Z -> pow2 n == inject_Z (2 ^ n).
Proof. intros H. unfold pow2. rewrite Zpower_Qpower by exact H. reflexivity. Qed.

Lemma pow2_opp (e : Z) : pow2 e * pow2 (- e) == 1.
Proof. rewrite <- pow2_plus. rewrite Z.add_opp_diag_r. reflexivity. Qed.

Lemma Qmake_inject (n : Z) (d : positive) : (n # d) * inject_Z (Zpos d) == inject_Z n.
Proof. unfold Qeq, Qmult, inject_Z. simpl. lia. Qed.

(** [mag q] is the binary exponent of [q]. *)
Lemma mag_spec (q : Q) : ~ q == 0 -> pow2 (mag q) <= Qabs q < pow2 (mag q + 1).
Proof.
  destruct q as [n d]. intros Hq.
  assert (0 < Z.abs n)%Z as Hn.
  { destruct (Z.eq_dec n 0%Z) as [->|]; [exfalso; apply Hq; reflexivity | lia]. }
  unfold mag. cbn [Qnum Qden]. change (Qabs (n # d)) with (Z.abs n # d).
  set (ln := Z.log2 (Z.abs n)). set (ld := Z.log2 (Zpos d)).
  assert (0 <= ln)%Z as Hln by apply Z.log2_nonneg.
  assert (0 <= ld)%Z as Hld by apply Z.log2_nonneg.
  destruct (Z.log2_spec (Z.abs n) Hn) as [Hn1 Hn2]. fold ln in Hn1, Hn2.
  destruct (Z.log2_spec (Zpos d) eq_refl) as [Hd1 Hd2]. fold ld in Hd1, Hd2.
  assert (pow2 ln <= inject_Z (Z.abs n)) as Qn1.
  { rewrite pow2_inject by exact Hln. rewrite <- Zle_Qle. exact Hn1. }
  assert (inject_Z (Z.abs n) < pow2 (ln + 1)) as Qn2.
  { rewrite pow2_inject by lia. rewrite <- Zlt_Qlt. exact Hn2. }
  assert (pow2 ld <= inject_Z (Zpos d)) as Qd1.
  { rewrite pow2_inject by exact Hld. rewrite <- Zle_Qle. exact Hd1. }
  assert (inject_Z (Zpos d) < pow2 (ld + 1)) as Qd2.
  { rewrite pow2_inject by lia. rewrite <- Zlt_Qlt. exact Hd2. }
  assert (0 < inject_Z (Zpos d)) as Qd0 by (rewrite <- (Zlt_Qlt 0); lia).
  pose proof (Qmake_inject (Z.abs n) d) as E.
  destruct (Qle_bool (pow2 (ln - ld)) (Z.abs n # d)) eqn:C.
  - apply Qle_bool_iff in C. split; [exact C|].
    apply Qmult_lt_r with (z := inject_Z (Zpos d)); [exact Qd0|]. rewrite E.
    apply Qlt_le_trans with (y := pow2 (ln + 1)); [exact Qn2|].
    replace (ln + 1)%Z with ((ln - ld + 1) + ld)%Z by lia. rewrite pow2_plus.
    apply Qmult_le_l; [apply pow2_pos | exact Qd1].
  - assert (Z.abs n # d < pow2 (ln - ld)) as C'.
    { apply Qnot_le_lt. intros H. apply Qle_bool_iff in H. congruence. }
    replace (ln - ld - 1 + 1)%Z with (ln - ld)%Z by lia. split; [|exact C'].
    apply Qmult_le_r with (z := inject_Z (Zpos d)); [exact Qd0|]. rewrite E.
    apply Qle_trans with (y := pow2 ln); [|exact Qn1].
    replace ln with ((ln - ld - 1) + (ld + 1))%Z at 2 by lia. rewrite pow2_plus.
    apply Qmult_le_l; [apply pow2_pos | apply Qlt_le_weak; exact Qd2].
Qed.

Lemma mag_unique (q : Q) (k : Z) :
  pow2 k <= Qabs q -> Qabs q < pow2 (k + 1) -> mag q = k.
Proof.
  intros H1 H2.
  assert (~ q == 0) as Hq.
  { intros E. assert (Qabs q == 0) as E' by (rewrite E; reflexivity).
    pose proof (pow2_pos k). rewrite E' in H1. lra. }
  destruct (mag_spec q Hq) as [M1 M2].
  assert (mag q < k + 1)%Z.
  { apply pow2_lt_inv. eapply Qle_lt_trans; [exact M1 | exact H2]. }
  assert (k < mag q + 1)%Z.
  { apply pow2_lt_inv. eapply Qle_lt_trans; [exact H1 | exact M2]. }
  lia.
Qed.

Lemma mag_comp (q q' : Q) : ~ q == 0 -> q == q' -> mag q = mag q'.
Proof.
  intros Hq E. destruct (mag_spec q Hq) as [M1 M2]. symmetry.
  apply mag_unique; rewrite <- E; assumption.
Qed.

Lemma nearestEven_comp (x y : Q) : x == y -> nearestEven x = nearestEven y.
Proof.
  intros E. unfold nearestEven. rewrite (Qfloor_comp _ _ E).
  assert ((x - inject_Z (Qfloor y) ?= 1 # 2) = (y - inject_Z (Qfloor y) ?= 1 # 2)) as ->
    by (rewrite E; reflexivity).
  reflexivity.
Qed.

Lemma nearestEven_floor (x : Q) :
  (nearestEven x = Qfloor x /\ x - inject_Z (Qfloor x) <= 1 # 2) \/
  (nearestEven x = (Qfloor x + 1)%Z /\ 1 # 2 <= x - inject_Z (Qfloor x)).
Proof.
  unfold nearestEven. destruct (Qcompare_spec (x - inject_Z (Qfloor x)) (1 # 2)) as [E|L|G].
  - destruct (Z.even (Qfloor x)); [left | right]; (split; [reflexivity | rewrite E; lra]).
  - left. split; [reflexivity | lra].
  - right. split; [reflexivity | lra].
Qed.

Lemma nearestEven_le (x : Q) (n : Z) : x <= inject_Z n -> (nearestEven x <= n)%Z.
Proof.
  intros H. pose proof (Qfloor_le x) as F.
  destruct (nearestEven_floor x) as [[-> _]|[-> G]].
  - rewrite Zle_Qle. lra.
  - assert (Qfloor x < n)%Z; [|lia]. rewrite Zlt_Qlt. lra.
Qed.

Lemma nearestEven_ge (x : Q) (n : Z) : inject_Z n <= x -> (n <= nearestEven x)%Z.
Proof.
  intros H. pose proof (Qlt_floor x) as F. rewrite inject_Z_plus in F.
  assert (n < Qfloor x + 1)%Z.
  { rewrite Zlt_Qlt. rewrite inject_Z_plus. lra. }
  destruct (nearestEven_floor x) as [[-> _]|[-> G]]; lia.
Qed.

Lemma nearestEven_inject (n : Z) : nearestEven (inject_Z n) = n.
Proof.
  apply Z.le_antisymm; [apply nearestEven_le | apply nearestEven_ge]; lra.
Qed.

Lemma nearestEven_error (x : Q) : Qabs (inject_Z (nearestEven x) - x) <= 1 # 2.
Proof.
  pose proof (Qfloor_le x) as F1. pose proof (Qlt_floor x) as F2.
  rewrite inject_Z_plus in F2. change (inject_Z 1) with 1 in F2.
  apply Qabs_Qle_condition.
  destruct (nearestEven_floor x) as [[-> G]|[-> G]]; rewrite ?inject_Z_plus;
    change (inject_Z 1) with 1; lra.
Qed.

(** *** The double nearest to a rational *)

(** The rounding of a rational that is not zero: a multiple [x] of the
    last place, turned into an infinity when it leaves the doubles. *)
Lemma nearest_value (q : Q) :
  ~ q == 0 ->
  exists x : Q,
    x == inject_Z (nearestEven (q / pow2 (lastPlace q))) * pow2 (lastPlace q) /\
    nearest q =
      if Qle_bool (pow2 1024) (Qabs x) then (if Qle_bool 0 q then PosInf else NegInf)
      else Fin x.
Proof.
  intros Hq. eexists. split; [apply Qred_correct|].
  unfold nearest. destruct (Qeq_bool q 0) eqn:E; [|reflexivity].
  apply Qeq_bool_iff in E. contradiction.
Qed.

Lemma nearest_zero (q : Q) : q == 0 -> nearest q = Fin 0.
Proof. intros E. unfold nearest. rewrite (Qeq_eq_bool _ _ E). reflexivity. Qed.

Lemma lastPlace_comp (q q' : Q) : ~ q == 0 -> q == q' -> lastPlace q = lastPlace q'.
Proof. intros Hq E. unfold lastPlace. rewrite (mag_comp q q' Hq E). reflexivity. Qed.

(** The rounding depends on the value only, not on the fraction that
    denotes it. *)
Lemma nearest_comp (q q' : Q) : q == q' -> nearest q = nearest q'.
Proof.
  intros E. destruct (Qeq_dec q 0) as [Hz|NZ].
  - rewrite (nearest_zero q Hz).
    rewrite (nearest_zero q' (Qeq_trans _ _ _ (Qeq_sym _ _ E) Hz)). reflexivity.
  - unfold nearest.
    assert (Qeq_bool q' 0 = Qeq_bool q 0) as ->
      by (apply Qeqb_comp; [symmetry; exact E | reflexivity]).
    destruct (Qeq_bool q 0); [reflexivity|].
    rewrite <- (lastPlace_comp q q' NZ E).
    rewrite (nearestEven_comp (q' / pow2 (lastPlace q)) (q / pow2 (lastPlace q)))
      by (apply Qdiv_comp; [symmetry; exact E | reflexivity]).
    assert (Qle_bool 0 q' = Qle_bool 0 q) as ->
      by (apply Qleb_comp; [reflexivity | symmetry; exact E]).
    reflexivity.
Qed.

Lemma pow2_div (q : Q) (e : Z) : q / pow2 e == q * pow2 (- e).
Proof.
  unfold Qdiv, pow2. rewrite Qpower_opp. reflexivity.
Qed.

Lemma scaled_inject (n e : Z) :
  (e <= 0)%Z -> inject_Z n / pow2 e == inject_Z (n * 2 ^ (- e)).
Proof.
  intros He. rewrite pow2_div. rewrite inject_Z_mult.
  rewrite pow2_inject by lia. reflexivity.
Qed.

Lemma lastPlace_small (q : Q) (n : Z) :
  ~ q == 0 -> Qabs q <= inject_Z n -> (n < 2 ^ 53)%Z -> (lastPlace q <= 0)%Z.
Proof.
  intros Hq Hn Hb. destruct (mag_spec q Hq) as [M _].
  assert (mag q < 53)%Z.
  { apply pow2_lt_inv. eapply Qle_lt_trans; [exact M|].
    eapply Qle_lt_trans; [exact Hn|]. rewrite pow2_inject by lia.
    rewrite <- Zlt_Qlt. exact Hb. }
  unfold lastPlace. lia.
Qed.

Lemma scale_back (m n e : Z) :
  (e <= 0)%Z -> (m <= n * 2 ^ (- e))%Z -> inject_Z m * pow2 e <= inject_Z n.
Proof.
  intros He H. rewrite Zle_Qle in H. rewrite inject_Z_mult in H.
  rewrite <- pow2_inject in H by lia.
  pose proof (pow2_pos e). pose proof (pow2_opp e) as O.
  apply Qmult_le_r with (z := pow2 (- e)); [apply pow2_pos|].
  rewrite <- Qmult_assoc. rewrite O. rewrite Qmult_1_r. exact H.
Qed.

Lemma scale_back_ge (m n e : Z) :
  (e <= 0)%Z -> (n * 2 ^ (- e) <= m)%Z -> inject_Z n <= inject_Z m * pow2 e.
Proof.
  intros He H. rewrite Zle_Qle in H. rewrite inject_Z_mult in H.
  rewrite <- pow2_inject in H by lia.
  pose proof (pow2_pos e). pose proof (pow2_opp e) as O.
  apply Qmult_le_r with (z := pow2 (- e)); [apply pow2_pos|].
  rewrite <- (Qmult_assoc (inject_Z m)). rewrite O. rewrite Qmult_1_r. exact H.
Qed.

(** Rounding does not cross a whole number of 53 bits. *)
Lemma value_le (q : Q) (n : Z) :
  ~ q == 0 -> q <= inject_Z n -> (0 <= n < 2 ^ 53)%Z ->
  inject_Z (nearestEven (q / pow2 (lastPlace q))) * pow2 (lastPlace q) <= inject_Z n.
Proof.
  intros Hq Hn Hb. set (e := lastPlace q). pose proof (pow2_pos e) as He.
  pose proof (pow2_pos (- e)) as He'.
  assert (0 <= inject_Z n) as Hn0 by (rewrite <- (Zle_Qle 0); lia).
  destruct (Qlt_le_dec q 0) as [Neg|Pos].
  - assert (nearestEven (q / pow2 e) <= 0)%Z as Hm.
    { apply nearestEven_le. rewrite pow2_div. change (inject_Z 0) with 0. nra. }
    rewrite Zle_Qle in Hm. change (inject_Z 0) with 0 in Hm. nra.
  - assert (e <= 0)%Z as Hle.
    { apply (lastPlace_small q n Hq); [|lia]. rewrite Qabs_pos by exact Pos. exact Hn. }
    apply scale_back; [exact Hle|]. apply nearestEven_le.
    rewrite <- scaled_inject by exact Hle. rewrite !pow2_div. nra.
Qed.

Lemma value_ge (q : Q) (n : Z) :
  ~ q == 0 -> inject_Z n <= q -> (- 2 ^ 53 < n <= 0)%Z ->
  inject_Z n <= inject_Z (nearestEven (q / pow2 (lastPlace q))) * pow2 (lastPlace q).
Proof.
  intros Hq Hn Hb. set (e := lastPlace q). pose proof (pow2_pos e) as He.
  pose proof (pow2_pos (- e)) as He'.
  assert (inject_Z n <= 0) as Hn0 by (rewrite <- (Zle_Qle _ 0); lia).
  destruct (Qlt_le_dec 0 q) as [Pos|Neg].
  - assert (0 <= nearestEven (q / pow2 e))%Z as Hm.
    { apply nearestEven_ge. rewrite pow2_div. change (inject_Z 0) with 0. nra. }
    rewrite Zle_Qle in Hm. change (inject_Z 0) with 0 in Hm. nra.
  - assert (e <= 0)%Z as Hle.
    { apply (lastPlace_small q (- n) Hq); [|lia]. rewrite Qabs_neg by exact Neg.
      rewrite inject_Z_opp. lra. }
    apply scale_back_ge; [exact Hle|]. apply nearestEven_ge.
    rewrite <- scaled_inject by exact Hle. rewrite !pow2_div. nra.
Qed.

Lemma below_overflow (x : Q) (n : Z) :
  Qabs x <= inject_Z n -> (n < 2 ^ 53)%Z -> Qle_bool (pow2 1024) (Qabs x) = false.
Proof.
  intros Hx Hn. destruct (Qle_bool (pow2 1024) (Qabs x)) eqn:C; [|reflexivity].
  apply Qle_bool_iff in C. exfalso.
  assert (inject_Z n < pow2 53) as H.
  { rewrite pow2_inject by lia. rewrite <- Zlt_Qlt. exact Hn. }
  pose proof (pow2_lt 53 1024 eq_refl). lra.
Qed.

Lemma nearest_atMost (q : Q) (n : Z) :
  q <= inject_Z n -> (0 <= n < 2 ^ 53)%Z -> atMost n (nearest q).
Proof.
  intros Hn Hb. destruct (Qeq_dec q 0) as [Hz|NZ].
  - rewrite (nearest_zero q Hz). simpl. rewrite <- (Zle_Qle 0). lia.
  - destruct (nearest_value q NZ) as (x & Ex & ->).
    pose proof (value_le q n NZ Hn Hb) as Hx. rewrite <- Ex in Hx.
    destruct (Qle_bool 0 q) eqn:S.
    + apply Qle_bool_iff in S.
      assert (inject_Z 0 <= x) as Hx0.
      { rewrite Ex. apply value_ge; [exact NZ | exact S | lia]. }
      change (inject_Z 0) with 0 in Hx0.
      rewrite (below_overflow x n); [exact Hx | | lia].
      rewrite Qabs_pos by exact Hx0. exact Hx.
    + destruct (Qle_bool (pow2 1024) (Qabs x)); simpl; [exact I | exact Hx].
Qed.

Lemma nearest_atLeast (q : Q) (n : Z) :
  inject_Z n <= q -> (- 2 ^ 53 < n <= 0)%Z -> atLeast n (nearest q).
Proof.
  intros Hn Hb. destruct (Qeq_dec q 0) as [Hz|NZ].
  - rewrite (nearest_zero q Hz). simpl. rewrite <- (Zle_Qle _ 0). lia.
  - destruct (nearest_value q NZ) as (x & Ex & ->).
    pose proof (value_ge q n NZ Hn Hb) as Hx. rewrite <- Ex in Hx.
    destruct (Qle_bool 0 q) eqn:S.
    + destruct (Qle_bool (pow2 1024) (Qabs x)); simpl; [exact I | exact Hx].
    + assert (q <= inject_Z 0) as S'.
      { change (inject_Z 0) with 0. apply Qlt_le_weak. apply Qnot_le_lt. intros H.
        apply Qle_bool_iff in H. congruence. }
      assert (x <= inject_Z 0) as Hx0.
      { rewrite Ex. apply value_le; [exact NZ | exact S' | lia]. }
      change (inject_Z 0) with 0 in Hx0.
      rewrite (below_overflow x (- n)); [exact Hx | | lia].
      rewrite Qabs_neg by exact Hx0. rewrite inject_Z_opp. lra.
Qed.

Lemma Qred_inject (n : Z) : Qred (inject_Z n) = inject_Z n.
Proof.
  unfold Qred, inject_Z.
  pose proof (Z.ggcd_gcd n 1) as G. pose proof (Z.ggcd_correct_divisors n 1) as D.
  destruct (Z.ggcd n 1) as [g [a b]]. simpl in G, D. rewrite Z.gcd_1_r in G. subst g.
  destruct D as [D1 D2]. rewrite !Z.mul_1_l in *. subst a b. reflexivity.
Qed.

(** A whole number of 53 bits is a double. *)
Lemma nearest_inject (n : Z) :
  (- 2 ^ 53 < n < 2 ^ 53)%Z -> nearest (inject_Z n) = Fin (inject_Z n).
Proof.
  intros Hb. destruct (Z.eq_dec n 0%Z) as [->|Hn]; [reflexivity|].
  assert (~ inject_Z n == 0) as NZ.
  { intros E. apply Hn. unfold Qeq in E. simpl in E. lia. }
  assert (Qabs (inject_Z n) <= inject_Z (Z.abs n)) as Ha.
  { apply Qabs_Qle_condition. rewrite <- inject_Z_opp, <- !Zle_Qle. lia. }
  assert (lastPlace (inject_Z n) <= 0)%Z as Hle
    by (apply (lastPlace_small _ (Z.abs n) NZ Ha); lia).
  unfold nearest. destruct (Qeq_bool (inject_Z n) 0) eqn:E.
  { apply Qeq_bool_iff in E. contradiction. }
  rewrite (nearestEven_comp _ _ (scaled_inject n _ Hle)). rewrite nearestEven_inject.
  assert (inject_Z (n * 2 ^ (- lastPlace (inject_Z n))) * pow2 (lastPlace (inject_Z n))
          == inject_Z n) as V.
  { rewrite inject_Z_mult. rewrite <- pow2_inject by lia. rewrite <- Qmult_assoc.
    rewrite (Qmult_comm (pow2 (- _))). rewrite pow2_opp. ring. }
  rewrite (Qred_complete _ _ V). rewrite Qred_inject.
  rewrite (below_overflow (inject_Z n) (Z.abs n) Ha); [reflexivity | lia].
Qed.

Lemma pow2_le_inv (a b : Z) : pow2 a <= pow2 b -> (a <= b)%Z.
Proof. intros H. apply Qpower_le_compat_l_inv with (q := 2); [exact H | reflexivity]. Qed.

Lemma pow2_double (e : Z) : pow2 (e + 1) == 2 * pow2 e.
Proof. rewrite pow2_plus. change (pow2 1) with 2. ring. Qed.

(** The rounding error is at most half a unit of the last place: for
    [|q| <= 2^k] in the range of the normal doubles, at most [2^(k-53)]. *)
Lemma nearest_error (q : Q) (k : Z) :
  Qabs q <= pow2 k -> (-1022 <= k <= 1023)%Z ->
  exists x, nearest q = Fin x /\ Qabs (x - q) <= pow2 (k - 53).
Proof.
  intros Hq Hk. destruct (Qeq_dec q 0) as [Hz|NZ].
  - exists 0. split; [apply nearest_zero; exact Hz|].
    assert (Qabs (0 - q) == 0) as -> by (rewrite Hz; reflexivity).
    apply Qlt_le_weak. apply pow2_pos.
  - destruct (nearest_value q NZ) as (x & Ex & ->). set (e := lastPlace q) in *.
    destruct (mag_spec q NZ) as [M _].
    assert (mag q <= k)%Z as Hm by (apply pow2_le_inv; lra).
    assert (e <= k - 52)%Z as He by (subst e; unfold lastPlace; lia).
    pose proof (nearestEven_error (q / pow2 e)) as R.
    set (m := inject_Z (nearestEven (q / pow2 e))) in *.
    pose proof (pow2_pos e) as Pe. pose proof (pow2_pos (- e)) as Pe'.
    pose proof (pow2_opp e) as O.
    assert (Qabs (x - q) <= pow2 (k - 53)) as Hx.
    { assert (x - q == (m - q / pow2 e) * pow2 e) as ->.
      { rewrite Ex. rewrite pow2_div. transitivity (m * pow2 e - q * (pow2 e * pow2 (- e))).
        - rewrite O. ring.
        - ring. }
      rewrite Qabs_Qmult. rewrite (Qabs_pos (pow2 e)) by lra.
      pose proof (pow2_le e (k - 52) He) as L.
      replace (k - 52)%Z with ((k - 53) + 1)%Z in L by lia. rewrite pow2_double in L.
      pose proof (Qabs_nonneg (m - q / pow2 e)). nra. }
    exists x. split; [|exact Hx].
    assert (Qle_bool (pow2 1024) (Qabs x) = false) as ->; [|reflexivity].
    destruct (Qle_bool (pow2 1024) (Qabs x)) eqn:C; [|reflexivity].
    apply Qle_bool_iff in C. exfalso.
    pose proof (Qabs_triangle (x - q) q) as T.
    assert (x - q + q == x) as Exq by ring. rewrite Exq in T.
    pose proof (pow2_lt (k - 53) k ltac:(lia)) as L1.
    pose proof (pow2_le (k + 1) 1024 ltac:(lia)) as L2.
    rewrite pow2_double in L2. lra.
Qed.

(** The double nearest to 0.1; a tie between two doubles goes to the even
    one; beyond the largest double the rounding is an infinity; half the
    least double rounds to zero. *)
Lemma nearest_examples :
  nearest (1 # 10) = Fin (3602879701896397 # 36028797018963968) /\
  nearest (inject_Z (2 ^ 53 + 1)) = Fin (inject_Z (2 ^ 53)) /\
  nearest (inject_Z (2 ^ 53 + 3)) = Fin (inject_Z (2 ^ 53 + 4)) /\
  nearest (pow2 1024 - pow2 970) = PosInf /\
  nearest (- pow2 1024) = NegInf /\
  nearest (pow2 (-1075)) = Fin 0 /\
  nearest (3 * pow2 (-1075)) = Fin (Qred (pow2 (-1073))).
Proof. repeat (split; [vm_compute; reflexivity|]). vm_compute. reflexivity. Qed.

(** *** The double operations *)

Lemma double_whole (q : Q) (n : Z) :
  q == inject_Z n -> (- 2 ^ 53 < n < 2 ^ 53)%Z -> double (Fin q) = ofZ n.
Proof.
  intros E Hb. simpl. rewrite (nearest_comp _ _ E). apply nearest_inject. exact Hb.
Qed.

Lemma add_whole (a b : Z) :
  (- 2 ^ 53 < a + b < 2 ^ 53)%Z -> Double.add (ofZ a) (ofZ b) = ofZ (a + b).
Proof. intros Hb. apply double_whole; [rewrite inject_Z_plus; reflexivity | exact Hb]. Qed.

Lemma sub_whole (a b : Z) :
  (- 2 ^ 53 < a - b < 2 ^ 53)%Z -> Double.sub (ofZ a) (ofZ b) = ofZ (a - b).
Proof.
  intros Hb. apply double_whole; [|exact Hb]. unfold Z.sub.
  rewrite inject_Z_plus, inject_Z_opp. reflexivity.
Qed.

Lemma mul_whole (a b : Z) :
  (- 2 ^ 53 < a * b < 2 ^ 53)%Z -> Double.mul (ofZ a) (ofZ b) = ofZ (a * b).
Proof. intros Hb. apply double_whole; [rewrite inject_Z_mult; reflexivity | exact Hb]. Qed.

Lemma atMost_defined (n : Z) (a : num) : atMost n a -> a <> NaN.
Proof. intros H ->. exact H. Qed.

Lemma double_atMost (n : Z) (a : num) :
  atMost n a -> (0 <= n < 2 ^ 53)%Z -> atMost n (double a).
Proof.
  destruct a as [|x| |]; simpl; auto. intros H Hb. apply nearest_atMost; assumption.
Qed.

Lemma add_atMost (n m : Z) (a b : num) :
  atMost n a -> atMost m b -> (0 <= n)%Z -> (0 <= m)%Z -> (n + m < 2 ^ 53)%Z ->
  atMost (n + m) (Double.add a b).
Proof.
  destruct a as [|x| |], b as [|y| |]; simpl; try tauto. intros Ha Hb Hn Hm Hs.
  apply nearest_atMost; [|lia]. rewrite inject_Z_plus. lra.
Qed.

Lemma sub_atMost (n : Z) (a b : num) :
  atMost n a -> atLeast 0 b -> (0 <= n < 2 ^ 53)%Z -> atMost n (Double.sub a b).
Proof.
  destruct a as [|x| |], b as [|y| |]; simpl; try tauto. intros Ha Hb Hn.
  apply nearest_atMost; [|lia]. change (inject_Z 0) with 0 in Hb. lra.
Qed.

Lemma mul_atMost (n k : Z) (a : num) :
  atMost n a -> (0 < k)%Z -> (0 <= n)%Z -> (n * k < 2 ^ 53)%Z ->
  atMost (n * k) (Double.mul a (ofZ k)).
Proof.
  intros Ha Hk Hn Hb.
  assert (0 < inject_Z k) as Qk by (rewrite <- (Zlt_Qlt 0); exact Hk).
  destruct a as [|x| |]; try contradiction.
  - simpl in Ha. simpl. apply nearest_atMost; [|lia]. rewrite inject_Z_mult. nra.
  - unfold Double.mul, JSNumber.mul, ofZ, sign.
    rewrite (proj1 (Qlt_alt 0 (inject_Z k)) Qk). exact I.
Qed.

Lemma mul_counts_atLeast (n : nat) (k : Z) :
  (0 <= k)%Z -> atLeast 0 (Double.mul (ofNat n) (ofZ k)).
Proof.
  intros Hk. simpl. apply nearest_atLeast; [|lia].
  assert (0 <= inject_Z k) as Qk by (rewrite <- (Zle_Qle 0); exact Hk).
  assert (0 <= inject_Z (Z.of_nat n)) as Qn by (rewrite <- (Zle_Qle 0); lia).
  change (inject_Z 0) with 0. nra.
Qed.

(** Rounding and clamping a number that is not [NaN] gives a whole
    number of [0..100]. *)
Lemma clamp_range (a : num) :
  a <> NaN ->
  exists z : Z,
    JSNumber.max (Fin 0) (JSNumber.min (Fin 100) (round a)) = ofZ z /\ (0 <= z <= 100)%Z.
Proof.
  intros Ha. destruct a as [|x| |]; [contradiction | | |].
  - rewrite clamp_round. eexists. split; [reflexivity | lia].
  - exists 100%Z. split; [reflexivity | lia].
  - exists 0%Z. split; [reflexivity | lia].
Qed.

(** *** The error of a computation in doubles *)

Lemma nearest_near (q : Q) (k : Z) (B u : Q) :
  - B <= q <= B -> B <= pow2 k -> pow2 (k - 53) <= u -> (-1022 <= k <= 1023)%Z ->
  near u (nearest q) q.
Proof.
  intros Hq HB Hu Hk.
  destruct (nearest_error q k) as (x & -> & Hx); [|exact Hk|].
  - apply Qabs_Qle_condition. lra.
  - exists x. split; [reflexivity|]. apply Qabs_Qle_condition in Hx. lra.
Qed.

Lemma near_exact (q : Q) : near 0 (Fin q) q.
Proof. exists q. split; [reflexivity | lra]. Qed.

Lemma near_weaken (delta delta' : Q) (a : num) (q q' : Q) :
  near delta a q -> q == q' -> delta <= delta' -> near delta' a q'.
Proof. intros (x & -> & Hx) Hq Hd. exists x. split; [reflexivity | lra]. Qed.

Lemma near_double (k : Z) (B u delta : Q) (a : num) (q : Q) :
  near delta a q -> - B <= q - delta -> q + delta <= B ->
  B <= pow2 k -> pow2 (k - 53) <= u -> (-1022 <= k <= 1023)%Z ->
  near (delta + u) (double a) q.
Proof.
  intros (x & -> & Hx) H1 H2 HB Hu Hk. unfold double.
  destruct (nearest_near x k B u) as (y & -> & Hy); try assumption; [lra|].
  exists y. split; [reflexivity | lra].
Qed.

Lemma near_add (k : Z) (B u d1 d2 : Q) (a b : num) (q1 q2 : Q) :
  near d1 a q1 -> near d2 b q2 ->
  - B <= q1 + q2 - d1 - d2 -> q1 + q2 + d1 + d2 <= B ->
  B <= pow2 k -> pow2 (k - 53) <= u -> (-1022 <= k <= 1023)%Z ->
  near (d1 + d2 + u) (Double.add a b) (q1 + q2).
Proof.
  intros (x & -> & Hx) (y & -> & Hy) H1 H2 HB Hu Hk.
  unfold Double.add, JSNumber.add, double.
  destruct (nearest_near (x + y) k B u) as (z & -> & Hz); try assumption; [lra|].
  exists z. split; [reflexivity | lra].
Qed.

Lemma near_sub (k : Z) (B u d1 d2 : Q) (a b : num) (q1 q2 : Q) :
  near d1 a q1 -> near d2 b q2 ->
  - B <= q1 - q2 - d1 - d2 -> q1 - q2 + d1 + d2 <= B ->
  B <= pow2 k -> pow2 (k - 53) <= u -> (-1022 <= k <= 1023)%Z ->
  near (d1 + d2 + u) (Double.sub a b) (q1 - q2).
Proof.
  intros (x & -> & Hx) (y & -> & Hy) H1 H2 HB Hu Hk.
  unfold Double.sub, JSNumber.sub, JSNumber.add, neg, double.
  destruct (nearest_near (x + - y) k B u) as (z & -> & Hz); try assumption; [lra|].
  exists z. split; [reflexivity | lra].
Qed.

(** A product with a constant that is not negative. *)
Lemma near_mul (k : Z) (B u d c : Q) (a : num) (q : Q) :
  near d a q -> 0 <= c ->
  - B <= c * q - c * d -> c * q + c * d <= B ->
  B <= pow2 k -> pow2 (k - 53) <= u -> (-1022 <= k <= 1023)%Z ->
  near (c * d + u) (Double.mul a (Fin c)) (c * q).
Proof.
  intros (x & -> & Hx) Hc H1 H2 HB Hu Hk.
  unfold Double.mul, JSNumber.mul, double.
  destruct (nearest_near (x * c) k B u) as (z & -> & Hz); try assumption; [nra|].
  exists z. split; [reflexivity | nra].
Qed.

End DoubleFacts.

(** ** The grid quality validator *)

Section GridValidatorFacts.

Import GridHelper GridValidator.

Variable localeCompare : jsstring -> jsstring -> Z.



(** A failure inside the [try] block gives score 0 and an invalid
    report ending in the critical entry. *)
Lemma onFailure_report (r : report) :
  score (onFailure r) = Fin 0 /\ isValid (onFailure r) = false /\
  errors (onFailure r) = errors r ++ [CriticalFailure].
Proof. unfold onFailure. simpl. auto. Qed.

(** C2 (code at the failing input). With [null] for a grid the cache key
    is computed before the [try] block is entered: the TypeError of
    [grid.forEach] leaves [validateGrid], whatever the instance, the words
    and the strictness; no report is returned and nothing is cached. The
    [try] block itself would have given the report the claim describes,
    with the entry for a grid that is not an array, the critical entry and
    score 0. *)
Theorem validateGrid_null_grid_throws (this : validator) (words : wordMap)
    (strictness : jsstring) :
  generateCacheKey localeCompare GridNull words strictness = Thrown /\
  validateGrid localeCompare this GridNull words strictness = (this, Thrown) /\
  exists r,
    runChecks this GridNull words freshResult = (r, Thrown) /\
    errors (onFailure r) = [GridNotArray; CriticalFailure] /\
    score (onFailure r) = Fin 0 /\ isValid (onFailure r) = false.
Proof.
  split; [reflexivity|]. split; [reflexivity|].
  eexists. split; [reflexivity|]. repeat split.
Qed.


End GridValidatorFacts.

Section CacheFacts.

Import GridHelper GridValidator Sample.

(** C3 (code at the failing input). The clue of a word is read by
    [validateWords] and is not part of the key: a validator that has
    validated the puzzle with the short clue answers the validation of the
    puzzle with the longer clue from its cache, with the warning that a
    run from scratch does not give. The registration of a word in the
    cells, read by [validateWordPlacements], is not part of the key
    either. *)
Theorem validateGrid_serves_stale_report :
  let before := validateGrid byCodeUnits newValidator (GridArray catGrid) shortClueWords NORMAL in
  let scratch := validateGrid byCodeUnits newValidator (GridArray catGrid) catWords NORMAL in
  let typed := validateGrid byCodeUnits newValidator (GridArray typedGrid) catWords NORMAL in
  generateCacheKey byCodeUnits (GridArray catGrid) shortClueWords NORMAL =
    generateCacheKey byCodeUnits (GridArray catGrid) catWords NORMAL /\
  generateCacheKey byCodeUnits (GridArray typedGrid) catWords NORMAL =
    generateCacheKey byCodeUnits (GridArray catGrid) catWords NORMAL /\
  exists r1 r2 r3,
    snd before = Returned r1 /\ snd scratch = Returned r2 /\ snd typed = Returned r3 /\
    warnings r1 = [ClueTooShort (js "CAT")] /\
    warnings r2 = [] /\
    length (warnings r3) = 5%nat /\
    snd (validateGrid byCodeUnits (fst before) (GridArray catGrid) catWords NORMAL)
      = Returned r1 /\
    snd (validateGrid byCodeUnits (fst scratch) (GridArray typedGrid) catWords NORMAL)
      = Returned r2.
Proof.
  cbv zeta. split; [vm_compute; reflexivity|]. split; [vm_compute; reflexivity|].
  eexists _, _, _.
  split; [vm_compute; reflexivity|].
  split; [vm_compute; reflexivity|].
  split; [vm_compute; reflexivity|].
  split; [vm_compute; reflexivity|].
  split; [vm_compute; reflexivity|].
  split; [vm_compute; reflexivity|].
  split; vm_compute; reflexivity.
Qed.

End CacheFacts.

Section ScoreFacts.

Import GridHelper GridValidator Sample.

Lemma Qfloor_half (n : Z) : Qfloor (inject_Z n + (1 # 2)) = n.
Proof.
  unfold Qfloor, Qplus, inject_Z. simpl. symmetry.
  apply Z.div_unique with (r := 1); lia.
Qed.

(** Rounding and clamping a whole number clamps it. *)
Lemma clamp_whole (z : Z) :
  JSNumber.max (Fin 0) (JSNumber.min (Fin 100) (round (ofZ z))) =
  ofZ (Z.max 0 (Z.min 100 z)).
Proof. unfold ofZ at 1. rewrite clamp_round, Qfloor_half. reflexivity. Qed.

(** The two penalties, for array lengths: the sum is exact. *)
Lemma penalties_whole (errors warnings : nat) (perError perWarning : Z) :
  Z.of_nat errors < 2 ^ 32 -> Z.of_nat warnings < 2 ^ 32 ->
  0 <= perError <= 100 -> 0 <= perWarning <= 100 ->
  Double.sub (Double.sub (ofZ 100) (Double.mul (ofNat errors) (ofZ perError)))
    (Double.mul (ofNat warnings) (ofZ perWarning))
  = ofZ (100 - Z.of_nat errors * perError - Z.of_nat warnings * perWarning).
Proof.
  intros He Hw Hpe Hpw. unfold ofNat.
  assert (2 ^ 32 * 100 < 2 ^ 52) as Hsmall by reflexivity.
  rewrite !mul_whole by nia. rewrite !sub_whole by nia. reflexivity.
Qed.

(** The two penalties never give [NaN], and at most 100. *)
Lemma penalties_atMost (errors warnings : nat) (perError perWarning : Z) :
  0 <= perError -> 0 <= perWarning ->
  Double.atMost 100
    (Double.sub (Double.sub (ofZ 100) (Double.mul (ofNat errors) (ofZ perError)))
       (Double.mul (ofNat warnings) (ofZ perWarning))).
Proof.
  intros Hpe Hpw.
  apply sub_atMost; [|apply mul_counts_atLeast; exact Hpw | split; [lia | reflexivity]].
  apply sub_atMost; [|apply mul_counts_atLeast; exact Hpe | split; [lia | reflexivity]].
  simpl. lra.
Qed.

(** C7, as the code has it. The score is the sum, taken from the left
    in double arithmetic, of 100, minus 20 per error, minus 5 per
    warning, then with the quality details plus 5 times the sum of the two
    symmetry ratios and plus 10 times the balance, then with the density
    details and a density outside the band of the rules minus 10; the sum
    is rounded to the nearest integer and clamped. Unless the sum is
    [NaN], the score is an integer of [0..100]. Without the quality
    details the sum is not [NaN], and for array lengths the score is 100
    minus 20 per error and 5 per warning, clamped. With the quality
    details, for symmetry ratios and a balance between -2 and 2 and at
    most 1000 errors and 1000 warnings, the sum is within 2^-32 of the
    exact value of its terms. *)
Theorem calculateOverallScore_formula (this : validator) (result : report) :
  let sum := Double.sum (Fin 100) (Specified.scoreTerms this result) in
  calculateOverallScore this result
    = JSNumber.max (Fin 0) (JSNumber.min (Fin 100) (round sum)) /\
  (sum <> NaN ->
   exists z, calculateOverallScore this result = ofZ z /\ 0 <= z <= 100) /\
  (dQuality (reportDetails result) = None ->
   sum <> NaN /\
   (Z.of_nat (length (errors result)) < 2 ^ 32 ->
    Z.of_nat (length (warnings result)) < 2 ^ 32 ->
    calculateOverallScore this result = ofZ (Specified.penalizedScore result))) /\
  (forall (q : quality) (h v b : Q),
     dQuality (reportDetails result) = Some q ->
     symHorizontal (qSymmetry q) = Fin h ->
     symVertical (qSymmetry q) = Fin v ->
     balance (qAesthetics q) = Fin b ->
     (-2 <= h <= 2)%Q -> (-2 <= v <= 2)%Q -> (-2 <= b <= 2)%Q ->
     Z.of_nat (length (errors result)) <= 1000 ->
     Z.of_nat (length (warnings result)) <= 1000 ->
     Double.near (1 # 4294967296) sum (Specified.exactSum this result h v b)).
Proof.
  intros sum.
  assert (calculateOverallScore this result
          = JSNumber.max (Fin 0) (JSNumber.min (Fin 100) (round sum))) as Hsum.
  { subst sum. unfold calculateOverallScore, Specified.scoreTerms, Specified.outsideBand.
    unfold Double.sum, Double.sub, JSNumber.sub. cbv zeta.
    destruct (dQuality (reportDetails result)) as [q|]; [|reflexivity].
    destruct (dDensity (reportDetails result)) as [d|]; [|reflexivity].
    destruct (lt (Double.double (filled d)) (Double.nearest (minDensity (vRules this)))
              || gt (Double.double (filled d)) (Double.nearest (maxDensity (vRules this))));
      cbn [app fold_left]; reflexivity. }
  split; [exact Hsum|]. split; [|split].
  - intros Hdef. rewrite Hsum. apply clamp_range. exact Hdef.
  - intros Hq.
    assert (sum = Double.sub (Double.sub (ofZ 100)
                                (Double.mul (ofNat (length (errors result))) (ofZ 20)))
                    (Double.mul (ofNat (length (warnings result))) (ofZ 5))) as Esum.
    { subst sum. unfold Specified.scoreTerms. rewrite Hq. reflexivity. }
    split.
    + rewrite Esum. apply (atMost_defined 100). apply penalties_atMost; lia.
    + intros He Hw. rewrite Hsum, Esum. rewrite penalties_whole by lia.
      rewrite clamp_whole. unfold Specified.penalizedScore. do 3 f_equal. lia.
  - intros q h v b Hq Hh Hv Hb Bh Bv Bb He Hw. subst sum.
    unfold Specified.scoreTerms, Specified.exactSum. rewrite Hq, Hh, Hv, Hb.
    unfold Double.sum. cbn [app fold_left].
    change (Double.add (Double.add (Fin 100) (neg ?a)) (neg ?b))
      with (Double.sub (Double.sub (ofZ 100) a) b).
    change (Fin 20) with (ofZ 20). change (Fin 5) with (ofZ 5) at 1.
    rewrite penalties_whole by lia.
    set (P := 100 - Z.of_nat (length (errors result)) * 20
              - Z.of_nat (length (warnings result)) * 5).
    replace (100 - 20 * Z.of_nat (length (errors result))
             - 5 * Z.of_nat (length (warnings result))) with P by (subst P; lia).
    assert (-25000 <= inject_Z P <= 100)%Q as BP.
    { split; [rewrite <- (Zle_Qle (-25000)) | rewrite <- (Zle_Qle _ 100)]; subst P; lia. }
    clearbody P. unfold ofZ. generalize dependent (inject_Z P). intros p BP.
    pose proof (near_double 1 2 (1 # 2 ^ 52) 0 (Fin h) h (near_exact h)
                  ltac:(lra) ltac:(lra) ltac:(apply Qle_bool_imp_le; reflexivity)
                  ltac:(apply Qle_bool_imp_le; reflexivity) ltac:(lia)) as Nh.
    pose proof (near_double 1 2 (1 # 2 ^ 52) 0 (Fin v) v (near_exact v)
                  ltac:(lra) ltac:(lra) ltac:(apply Qle_bool_imp_le; reflexivity)
                  ltac:(apply Qle_bool_imp_le; reflexivity) ltac:(lia)) as Nv.
    pose proof (near_double 1 2 (1 # 2 ^ 52) 0 (Fin b) b (near_exact b)
                  ltac:(lra) ltac:(lra) ltac:(apply Qle_bool_imp_le; reflexivity)
                  ltac:(apply Qle_bool_imp_le; reflexivity) ltac:(lia)) as Nb.
    change (1 # 2 ^ 52) with (1 # 4503599627370496) in Nh, Nv, Nb.
    pose proof (near_add 3 8 (1 # 1125899906842624) _ _ _ _ _ _ Nh Nv
                  ltac:(lra) ltac:(lra) ltac:(apply Qle_bool_imp_le; reflexivity)
                  ltac:(apply Qle_bool_imp_le; reflexivity) ltac:(lia)) as Ns.
    pose proof (near_mul 5 32 (1 # 281474976710656) _ 5 _ _ Ns
                  ltac:(lra) ltac:(lra) ltac:(lra)
                  ltac:(apply Qle_bool_imp_le; reflexivity)
                  ltac:(apply Qle_bool_imp_le; reflexivity) ltac:(lia)) as Nsb.
    pose proof (near_add 15 32768 (1 # 274877906944) _ _ _ _ _ _ (near_exact p) Nsb
                  ltac:(lra) ltac:(lra) ltac:(apply Qle_bool_imp_le; reflexivity)
                  ltac:(apply Qle_bool_imp_le; reflexivity) ltac:(lia)) as N3.
    pose proof (near_mul 5 32 (1 # 281474976710656) _ 10 _ _ Nb
                  ltac:(lra) ltac:(lra) ltac:(lra)
                  ltac:(apply Qle_bool_imp_le; reflexivity)
                  ltac:(apply Qle_bool_imp_le; reflexivity) ltac:(lia)) as Ntb.
    pose proof (near_add 15 32768 (1 # 274877906944) _ _ _ _ _ _ N3 Ntb
                  ltac:(lra) ltac:(lra) ltac:(apply Qle_bool_imp_le; reflexivity)
                  ltac:(apply Qle_bool_imp_le; reflexivity) ltac:(lia)) as N4.
    assert (Double.near (1 # 4294967296)
              (fold_left Double.add [Fin (-10)]
                 (Double.add
                    (Double.add (Fin p)
                       (Double.mul (Double.add (Double.double (Fin h))
                                      (Double.double (Fin v))) (Fin 5)))
                    (Double.mul (Double.double (Fin b)) (Fin 10))))
              (p + 5 * (h + v) + 10 * b - 10)%Q) as N5.
    { pose proof (near_sub 15 32768 (1 # 274877906944) _ _ _ _ _ _ N4 (near_exact 10)
                    ltac:(lra) ltac:(lra) ltac:(apply Qle_bool_imp_le; reflexivity)
                    ltac:(apply Qle_bool_imp_le; reflexivity) ltac:(lia)) as N5.
      eapply near_weaken; [exact N5 | ring | lra]. }
    assert (Double.near (1 # 4294967296)
              (Double.add
                 (Double.add (Fin p)
                    (Double.mul (Double.add (Double.double (Fin h))
                                   (Double.double (Fin v))) (Fin 5)))
                 (Double.mul (Double.double (Fin b)) (Fin 10)))
              (p + 5 * (h + v) + 10 * b - 0)%Q) as N4'.
    { eapply near_weaken; [exact N4 | ring | lra]. }
    destruct (dDensity (reportDetails result)) as [d|]; [|exact N4'].
    destruct (Specified.outsideBand (vRules this) d); [exact N5 | exact N4'].
Qed.

Lemma calculateOverallScore_formula_witness :
  (exists z, calculateOverallScore newValidator catReport = ofZ z /\ 0 <= z <= 100) /\
  (exists b,
     Double.near (1 # 4294967296)
       (Double.sum (Fin 100) (Specified.scoreTerms newValidator catReport))
       (Specified.exactSum newValidator catReport (10 # 10) (10 # 10) b) /\ (b <= 1)%Q).
Proof.
  destruct (calculateOverallScore_formula newValidator catReport)
    as (_ & Hrange & _ & Hnear).
  split; [apply Hrange; vm_compute; discriminate|].
  exists (match dQuality (reportDetails catReport) with
          | Some q => match balance (qAesthetics q) with Fin b => b | _ => 0%Q end
          | None => 0%Q
          end).
  split.
  - apply (Hnear (default unevenQuality (dQuality (reportDetails catReport)))).
    + vm_compute. reflexivity.
    + vm_compute. reflexivity.
    + vm_compute. reflexivity.
    + vm_compute. reflexivity.
    + split; apply Qle_bool_imp_le; reflexivity.
    + split; apply Qle_bool_imp_le; reflexivity.
    + split; apply Qle_bool_imp_le; vm_compute; reflexivity.
    + vm_compute. discriminate.
    + vm_compute. discriminate.
  - apply Qle_bool_imp_le. vm_compute. reflexivity.
Defined.

(** C7 as stated fails on the report of the CAT puzzle (one error, both
    symmetry ratios 1, balance 22/25): the code scores 99, ten times the
    sum of the ratios would give 100. *)
Lemma calculateOverallScore_not_as_specified :
  calculateOverallScore newValidator catReport = Fin 99 /\
  Specified.overallScore newValidator catReport = Fin 100 /\
  calculateOverallScore newValidator catReport
    <> Specified.overallScore newValidator catReport.
Proof.
  split; [vm_compute; reflexivity|]. split; [vm_compute; reflexivity|].
  vm_compute. discriminate.
Qed.

(** On the empty array and no words the balance is 0/0, and the score of
    the report is [NaN]. *)
Lemma validateGrid_empty_grid_score :
  exists r,
    snd (validateGrid byCodeUnits newValidator (GridArray []) [] NORMAL) = Returned r /\
    score r = NaN.
Proof. eexists. split; vm_compute; reflexivity. Qed.

(** The sum is a sum of doubles: with four errors, two warnings,
    symmetry ratios 15/14 and 1, balance 1 - 3/35 and a density under
    the band, the exact value of the terms is 19.5, the sum of the code
    is just under it, and the score is 19. *)
Lemma calculateOverallScore_rounds_doubles :
  calculateOverallScore newValidator lowReport = Fin 19 /\
  (100 - 20 * 4 - 5 * 2 + 5 * ((15 # 14) + 1) + 10 * (1 - (3 # 35)) - 10 == 39 # 2)%Q /\
  exists x, Double.sum (Fin 100) (Specified.scoreTerms newValidator lowReport) = Fin x /\
            (x < 39 # 2)%Q.
Proof.
  split; [vm_compute; reflexivity|]. split; [reflexivity|].
  eexists. split; [vm_compute; reflexivity | reflexivity].
Qed.

(** With seven vertical words for ten horizontal ones the distance of
    the ratio to 1 is the double just above 0.3, and the suggestion to
    balance the directions is made. *)
Lemma generateQualityRecommendations_rounds_doubles :
  suggestions (fst (generateQualityRecommendations unevenQuality freshResult))
  = [BalanceDirections].
Proof. vm_compute. reflexivity. Qed.

End ScoreFacts.

Section WordScoreFacts.

Import WordValidator Sample.

(** C8, as the code has it. The word score is the sum, taken from the
    left in double arithmetic, of 100, minus 30 per error, minus 10 per
    warning, plus the quality bonuses that apply (10, 5 and 10), plus,
    when the result has its metrics, 15 times the crossword friendliness
    and 10 times the readability score (an absent or [NaN] metric
    counting for 0); the sum is rounded to the nearest integer and
    clamped. Unless the sum is [NaN], the score is an integer of
    [0..100]. Without the metrics, for array lengths, it is the score of
    the specification. With metrics between -2 and 2 and at most 1000
    errors and 1000 warnings, the sum is within 2^-32 of the exact value
    of its terms. *)
Theorem calculateWordScore_formula (r : result) :
  let sum := Double.sum (Fin 100) (scoreTerms r) in
  calculateWordScore r = JSNumber.max (Fin 0) (JSNumber.min (Fin 100) (round sum)) /\
  (sum <> NaN -> exists z, calculateWordScore r = ofZ z /\ 0 <= z <= 100) /\
  (resultMetrics r = None ->
   Z.of_nat (length (errors r)) < 2 ^ 32 ->
   Z.of_nat (length (warnings r)) < 2 ^ 32 ->
   calculateWordScore r = specifiedWordScore r) /\
  (forall (m : metrics) (cf rs : Q),
     resultMetrics r = Some m ->
     orZeroOpt (crosswordFriendliness m) = Fin cf ->
     orZeroOpt (readabilityScore m) = Fin rs ->
     (-2 <= cf <= 2)%Q -> (-2 <= rs <= 2)%Q ->
     Z.of_nat (length (errors r)) <= 1000 ->
     Z.of_nat (length (warnings r)) <= 1000 ->
     Double.near (1 # 4294967296) sum
       (inject_Z (specifiedRawScore r) + 15 * cf + 10 * rs)%Q).
Proof.
  intros sum.
  assert (calculateWordScore r
          = JSNumber.max (Fin 0) (JSNumber.min (Fin 100) (round sum))) as Hsum.
  { subst sum. unfold calculateWordScore, scoreTerms, optimalComplexity,
      manyUniqueLetters, relevantClue. cbv zeta.
    unfold Double.sum, Double.sub, JSNumber.sub.
    destruct (ge _ _ && le _ _), (gt (numberOf (uniqueCharsRatio _)) _),
             (gt (numberOf (semanticRelevance _)) _), (resultMetrics r);
      cbn [app fold_left]; reflexivity. }
  split; [exact Hsum|]. split; [|split].
  - intros Hdef. rewrite Hsum. apply clamp_range. exact Hdef.
  - intros Hm He Hw. unfold calculateWordScore, specifiedWordScore, specifiedRawScore,
      specifiedBonuses, optimalComplexity, manyUniqueLetters, relevantClue.
    rewrite Hm. cbv zeta.
    change (Fin 30) with (ofZ 30). change (Fin 10) with (ofZ 10).
    change (Fin 5) with (ofZ 5).
    rewrite penalties_whole by lia.
    assert (2 ^ 32 * 100 < 2 ^ 52) as Hsmall by reflexivity.
    destruct (ge _ _ && le _ _), (gt (numberOf (uniqueCharsRatio _)) _),
             (gt (numberOf (semanticRelevance _)) _);
      rewrite ?add_whole by nia; rewrite clamp_whole; do 3 f_equal; lia.
  - intros m cf rs Hm Hcf Hrs Bcf Brs He Hw. subst sum.
    unfold scoreTerms, specifiedRawScore, specifiedBonuses. rewrite Hm, Hcf, Hrs.
    assert (forall P : Z, -40000 <= P <= 200 ->
              Double.near (1 # 4294967296)
                (Double.add (Double.add (ofZ P) (Double.mul (Fin cf) (Fin 15)))
                   (Double.mul (Fin rs) (Fin 10)))
                (inject_Z P + 15 * cf + 10 * rs)%Q) as Hnear.
    { intros P BP.
      assert (-40000 <= inject_Z P <= 200)%Q as BP'.
      { split; [rewrite <- (Zle_Qle (-40000)) | rewrite <- (Zle_Qle _ 200)]; lia. }
      unfold ofZ. generalize dependent (inject_Z P). intros p BP'.
      pose proof (near_mul 5 32 (1 # 281474976710656) _ 15 _ _ (near_exact cf)
                    ltac:(lra) ltac:(lra) ltac:(lra)
                    ltac:(apply Qle_bool_imp_le; reflexivity)
                    ltac:(apply Qle_bool_imp_le; reflexivity) ltac:(lia)) as Ncf.
      pose proof (near_mul 5 32 (1 # 281474976710656) _ 10 _ _ (near_exact rs)
                    ltac:(lra) ltac:(lra) ltac:(lra)
                    ltac:(apply Qle_bool_imp_le; reflexivity)
                    ltac:(apply Qle_bool_imp_le; reflexivity) ltac:(lia)) as Nrs.
      pose proof (near_add 16 65536 (1 # 137438953472) _ _ _ _ _ _ (near_exact p) Ncf
                    ltac:(lra) ltac:(lra) ltac:(apply Qle_bool_imp_le; reflexivity)
                    ltac:(apply Qle_bool_imp_le; reflexivity) ltac:(lia)) as N6.
      pose proof (near_add 16 65536 (1 # 137438953472) _ _ _ _ _ _ N6 Nrs
                    ltac:(lra) ltac:(lra) ltac:(apply Qle_bool_imp_le; reflexivity)
                    ltac:(apply Qle_bool_imp_le; reflexivity) ltac:(lia)) as N7.
      eapply near_weaken; [exact N7 | ring | lra]. }
    unfold Double.sum.
    destruct (optimalComplexity r), (manyUniqueLetters r), (relevantClue r);
      cbn [app fold_left];
      change (Double.add (Double.add (Fin 100) (neg ?a)) (neg ?b))
        with (Double.sub (Double.sub (ofZ 100) a) b);
      change (Fin 30) with (ofZ 30); change (Fin 10) with (ofZ 10);
      change (Fin 5) with (ofZ 5).
    all: rewrite penalties_whole by lia.
    all: rewrite ?add_whole by lia.
    all: eapply near_weaken; [apply Hnear; lia | | apply Qle_refl].
    all: apply Qplus_comp; [apply Qplus_comp; [|reflexivity] | reflexivity].
    all: apply inject_Z_injective; lia.
Qed.

Lemma calculateWordScore_formula_witness :
  (exists z, calculateWordScore oneError = ofZ z /\ 0 <= z <= 100) /\
  Double.near (1 # 4294967296) (Double.sum (Fin 100) (scoreTerms oneError)) 95.
Proof.
  destruct (calculateWordScore_formula oneError) as (_ & Hrange & _ & Hnear).
  split; [apply Hrange; vm_compute; discriminate|].
  apply (Hnear (mkMetrics (Some (Fin 1)) (Some (Fin 1))) 1%Q 1%Q).
  - reflexivity.
  - vm_compute. reflexivity.
  - vm_compute. reflexivity.
  - split; apply Qle_bool_imp_le; reflexivity.
  - split; apply Qle_bool_imp_le; reflexivity.
  - vm_compute. discriminate.
  - vm_compute. discriminate.
Defined.

(** C8 as stated fails on a result with one error and both metrics at 1:
    the code scores 95, the penalties and the three bonuses alone give
    70. *)
Lemma calculateWordScore_has_metric_bonuses :
  calculateWordScore oneError = Fin 95 /\ specifiedWordScore oneError = Fin 70 /\
  calculateWordScore oneError <> specifiedWordScore oneError.
Proof.
  split; [vm_compute; reflexivity|]. split; [vm_compute; reflexivity|].
  vm_compute. discriminate.
Qed.

(** With an infinite crossword friendliness and a readability score of
    the other sign the sum, and with it the score, is [NaN]. *)
Lemma calculateWordScore_not_a_number :
  calculateWordScore
    (mkResult [] [] (mkMetadata None None None)
       (Some (mkMetrics (Some PosInf) (Some NegInf)))) = NaN.
Proof. vm_compute. reflexivity. Qed.

(** The sum is a sum of doubles: with three errors and the metrics 0.36
    and 0.01 the exact value of the terms is 15.5, the sum of the code is
    just under it, and the score is 15. *)
Lemma calculateWordScore_rounds_doubles :
  calculateWordScore threeErrors = Fin 15 /\
  (100 - 30 * 3 + 15 * (36 # 100) + 10 * (1 # 100) == 31 # 2)%Q /\
  exists x, Double.sum (Fin 100) (scoreTerms threeErrors) = Fin x /\ (x < 31 # 2)%Q.
Proof.
  split; [vm_compute; reflexivity|]. split; [reflexivity|].
  eexists. split; [vm_compute; reflexivity | reflexivity].
Qed.

End WordScoreFacts.

Section DifficultyFacts.

Import WordHelper Specified Sample.

Lemma min_Fin (x y : Q) :
  exists q, JSNumber.min (Fin x) (Fin y) = Fin q /\ (q == Qmin x y)%Q.
Proof.
  unfold JSNumber.min, lt. destruct (Qle_bool x y) eqn:E; simpl.
  - exists x. split; [reflexivity|]. apply Qle_bool_iff in E.
    symmetry. apply Q.min_l. exact E.
  - exists y. split; [reflexivity|].
    assert (~ (x <= y)%Q) as H by (rewrite <- Qle_bool_iff, E; discriminate).
    symmetry. apply Q.min_r. apply Qlt_le_weak. apply Qnot_le_lt. exact H.
Qed.

Lemma div_counts (n d : nat) :
  (0 < d)%nat ->
  div (ofNat n) (ofNat d) = Fin (inject_Z (Z.of_nat n) / inject_Z (Z.of_nat d)).
Proof.
  intros Hd. unfold div, ofNat, ofZ.
  destruct (Qeq_bool (inject_Z (Z.of_nat d)) 0) eqn:E; [|reflexivity].
  apply Qeq_bool_iff in E. unfold Qeq in E. simpl in E. lia.
Qed.

Lemma calculateWordDifficulty_value (word : jsstring) :
  (0 < length word)%nat ->
  exists q,
    calculateWordDifficulty word = Fin q /\
    (q == difficultyValue (length word) (rareCount word) (consonantClusters word)
            (rareComboCount word))%Q.
Proof.
  intros Hlen. unfold calculateWordDifficulty.
  rewrite (div_counts _ _ Hlen).
  change (div (ofNat (length word)) (Fin 15))
    with (Fin (inject_Z (Z.of_nat (length word)) / 15)).
  destruct (min_Fin (inject_Z (Z.of_nat (length word)) / 15) (4 # 10)) as (m & -> & Hm).
  unfold ofNat, ofZ. cbn [add mul].
  match goal with |- context [JSNumber.min (Fin ?x) (Fin 1)] =>
    destruct (min_Fin x 1) as (q & -> & Hq) end.
  exists q. split; [reflexivity|]. rewrite Hq. unfold difficultyValue.
  apply Q.min_compat; [rewrite Hm; ring | reflexivity].
Qed.

Lemma inject_nat_le (a b : nat) :
  (a <= b)%nat -> (inject_Z (Z.of_nat a) <= inject_Z (Z.of_nat b))%Q.
Proof. intros H. rewrite <- Zle_Qle. lia. Qed.

Lemma difficultyValue_monotone (len r1 r2 k1 k2 c1 c2 : nat) :
  (0 < len)%nat -> (r2 <= r1)%nat -> (k2 <= k1)%nat -> (c2 <= c1)%nat ->
  (difficultyValue len r2 k2 c2 <= difficultyValue len r1 k1 c1)%Q.
Proof.
  intros Hlen Hr Hk Hc. unfold difficultyValue.
  apply Q.min_le_compat_r.
  repeat apply Qplus_le_compat.
  - apply Qle_refl.
  - apply Qmult_le_compat_r; [|discriminate].
    unfold Qdiv. apply Qmult_le_compat_r; [apply inject_nat_le; exact Hr|].
    apply Qinv_le_0_compat. change 0%Q with (inject_Z 0). rewrite <- Zle_Qle. lia.
  - apply Qmult_le_compat_r; [apply inject_nat_le; exact Hk | discriminate].
  - apply Qmult_le_compat_r; [apply inject_nat_le; exact Hc | discriminate].
Qed.

(** C9, as the code has it. Of two words of the same length, the one
    with more rare letters has a difficulty greater than or equal to the
    other's provided it has no fewer consonant clusters and no fewer rare
    combinations, which the difficulty also counts. *)
Theorem calculateWordDifficulty_monotone (w1 w2 : jsstring) :
  length w1 = length w2 ->
  (rareCount w2 < rareCount w1)%nat ->
  (consonantClusters w2 <= consonantClusters w1)%nat ->
  (rareComboCount w2 <= rareComboCount w1)%nat ->
  exists d1 d2,
    calculateWordDifficulty w1 = Fin d1 /\ calculateWordDifficulty w2 = Fin d2 /\
    (d2 <= d1)%Q.
Proof.
  intros Hlen Hrare Hk Hc.
  assert (0 < length w1)%nat as Hpos.
  { destruct w1; [unfold rareCount in Hrare; simpl in Hrare; lia | simpl; lia]. }
  destruct (calculateWordDifficulty_value w1 Hpos) as (d1 & E1 & V1).
  assert (0 < length w2)%nat as Hpos2 by lia.
  destruct (calculateWordDifficulty_value w2 Hpos2) as (d2 & E2 & V2).
  exists d1, d2. repeat split; try assumption.
  rewrite V1, V2, <- Hlen.
  apply difficultyValue_monotone; [assumption | lia | assumption | assumption].
Qed.

Lemma calculateWordDifficulty_monotone_witness :
  exists d1 d2,
    calculateWordDifficulty (js "QUIZ") = Fin d1 /\
    calculateWordDifficulty (js "QUIT") = Fin d2 /\ (d2 <= d1)%Q.
Proof.
  apply (calculateWordDifficulty_monotone (js "QUIZ") (js "QUIT")).
  - reflexivity.
  - vm_compute. lia.
  - vm_compute. lia.
  - vm_compute. lia.
Defined.

(** C9 as stated fails on ЇААА and БВГА: the first has one rare letter
    and the second none, and the consonant cluster of the second makes it
    the more difficult of the two (41/120 against 44/120). *)
Lemma calculateWordDifficulty_not_monotone :
  length oneRareLetter = length oneCluster /\
  (rareCount oneCluster < rareCount oneRareLetter)%nat /\
  exists d1 d2,
    calculateWordDifficulty oneRareLetter = Fin d1 /\
    calculateWordDifficulty oneCluster = Fin d2 /\
    (d1 < d2)%Q.
Proof.
  split; [reflexivity|]. split; [vm_compute; lia|].
  eexists _, _. split; [vm_compute; reflexivity|]. split; [vm_compute; reflexivity|].
  reflexivity.
Qed.

End DifficultyFacts.

(** ** The grid helper *)

Section SortFacts.

Context {A : Type} (cmp : A -> A -> Z).

Lemma StronglySorted_weaken (R R' : A -> A -> Prop) (l : list A) :
  (forall a b, R a b -> R' a b) -> StronglySorted R l -> StronglySorted R' l.
Proof.
  intros HR. induction 1 as [|x l Hl IH Hx]; constructor; [exact IH|].
  eapply Forall_impl; [exact Hx|]. intros b. apply HR.
Qed.

Lemma sortInsert_perm (x : A) (l : list A) : sortInsert cmp x l ≡ₚ x :: l.
Proof.
  induction l as [|y l IH]; simpl; [reflexivity|].
  destruct (cmp x y <=? 0); [reflexivity|].
  rewrite IH. apply perm_swap.
Qed.

Lemma jsSort_perm (l : list A) : jsSort cmp l ≡ₚ l.
Proof.
  induction l as [|x l IH]; simpl; [reflexivity|].
  rewrite sortInsert_perm, IH. reflexivity.
Qed.

(** With a comparator that is the difference of a key, the result is
    sorted by that key. *)
Variable key : A -> Z.
Hypothesis cmp_key : forall a b, cmp a b = key a - key b.

Lemma sortInsert_sorted (x : A) (l : list A) :
  StronglySorted (fun a b => key a <= key b) l ->
  StronglySorted (fun a b => key a <= key b) (sortInsert cmp x l).
Proof.
  induction 1 as [|y l Hl IH Hy]; simpl.
  - repeat constructor.
  - rewrite cmp_key. destruct (Z.leb_spec (key x - key y) 0) as [Hle|Hgt].
    + constructor; [constructor; assumption|].
      constructor; [lia|]. eapply Forall_impl; [exact Hy|]. simpl. intros; lia.
    + constructor; [exact IH|].
      rewrite sortInsert_perm. constructor; [lia | exact Hy].
Qed.

Lemma jsSort_sorted (l : list A) :
  StronglySorted (fun a b => key a <= key b) (jsSort cmp l).
Proof.
  induction l as [|x l IH]; simpl; [constructor | apply sortInsert_sorted, IH].
Qed.

End SortFacts.

Section AutoPlaceFacts.

Import GridHelper Sample.

Lemma byLengthDescending_sorted (words : list wordData) :
  StronglySorted (fun a b => (length (wWord b) <= length (wWord a))%nat)
    (jsSort byLengthDescending words).
Proof.
  eapply StronglySorted_weaken;
    [|apply (jsSort_sorted byLengthDescending (fun w => - Z.of_nat (length (wWord w))))].
  - simpl. intros a b H. lia.
  - intros a b. unfold byLengthDescending. lia.
Qed.

(** [wordsAfter] is the sorted array, with the first entry's placement
    overwritten when the call got that far. *)
Lemma autoPlaceWords_wordsAfter (g : grid) (words : list wordData) :
  wordsAfter (autoPlaceWords g words) = jsSort byLengthDescending words \/
  exists first others row col,
    jsSort byLengthDescending words = first :: others /\
    wordsAfter (autoPlaceWords g words)
      = withPlacement first row col horizontal :: others.
Proof.
  unfold autoPlaceWords.
  destruct (jsSort byLengthDescending words) as [|first others] eqn:Hs; [left; reflexivity|].
  destruct g as [|row0 g']; [left; reflexivity|].
  right. exists first, others. eexists _, _. split; [reflexivity|].
  destruct (placeWord _ _) as [g1 [ok|]]; [|reflexivity].
  destruct (placeRemaining _ _ _) as [g2 res]. reflexivity.
Qed.

(** C10. Whatever the grid and the words, and whether the call returns
    or throws, the caller's array is left sorted by descending word length:
    it holds the entries of the stable sort of the input, a permutation of
    the input, placed or not, and differs from it at most in the
    placement fields of the first entry. *)
Theorem autoPlaceWords_sorts_callers_array (g : grid) (words : list wordData) :
  let after := wordsAfter (autoPlaceWords g words) in
  let sorted := jsSort byLengthDescending words in
  StronglySorted (fun a b => (length (wWord b) <= length (wWord a))%nat) after /\
  map payload after = map payload sorted /\
  tail after = tail sorted /\
  sorted ≡ₚ words.
Proof.
  cbv zeta. split; [|split; [|split]].
  - pose proof (byLengthDescending_sorted words) as Hsorted.
    destruct (autoPlaceWords_wordsAfter g words)
      as [-> | (first & others & row & col & Hs & ->)]; [exact Hsorted|].
    rewrite Hs in Hsorted. apply StronglySorted_inv in Hsorted as [Ho Hf].
    constructor; assumption.
  - destruct (autoPlaceWords_wordsAfter g words)
      as [-> | (first & others & row & col & Hs & ->)]; [reflexivity|].
    rewrite Hs. reflexivity.
  - destruct (autoPlaceWords_wordsAfter g words)
      as [-> | (first & others & row & col & Hs & ->)]; [reflexivity|].
    rewrite Hs. reflexivity.
  - apply jsSort_perm.
Qed.

(** The array is reordered even when no word can be placed: on the
    empty array grid the call throws after the sort. *)
Lemma autoPlaceWords_sorts_before_throwing :
  placedResult (autoPlaceWords [] [car; dog; tiger]) = Thrown /\
  map wWord (wordsAfter (autoPlaceWords [] [car; dog; tiger]))
    = [js "TIGER"; js "CAR"; js "DOG"].
Proof. split; vm_compute; reflexivity. Qed.

End AutoPlaceFacts.

Section CanPlaceFacts.

Import GridHelper Specified Sample.

Variables (g : grid) (startRow startCol : Z) (direction : jsstring).

Lemma getCell_valid (row col : Z) (c : cell) :
  getCell g row col = Some c -> isValidPosition g row col = true.
Proof. unfold getCell. destruct (isValidPosition g row col); [reflexivity | discriminate]. Qed.

Lemma crossing_test (l : jsstring) (ch : N) :
  truthy l && bool_decide (l = [ch]) = bool_decide (l = [ch]).
Proof. destruct (bool_decide_reflect (l = [ch])) as [->|]; [reflexivity | apply andb_false_r]. Qed.

(** The loop carried to its end: every cell was there and free, and the
    two lists grew by the crossings and the conflicts met. *)
Lemma checkLetters_end (letters : list N) : forall (i : nat) (res0 res : verdict),
  checkLetters g startRow startCol direction i letters res0 = Returned (inr res) ->
  (forall k ch, letters !! k = Some ch ->
     exists c, spanCell g startRow startCol direction (i + k) = Some c /\ blocked c = false) /\
  canPlace res = canPlace res0 /\ why res = why res0 /\
  length (conflicts res)
    = (length (conflicts res0) + conflictCount g startRow startCol direction i letters)%nat /\
  length (intersections res)
    = (length (intersections res0) + crossingCount g startRow startCol direction i letters)%nat.
Proof.
  induction letters as [|ch letters IH]; intros i res0 res H; simpl in H.
  - injection H as <-. simpl. repeat split; try lia. intros k c Hk. discriminate.
  - destruct (isValidPosition g _ _) eqn:Hv; simpl in H; [|discriminate].
    destruct (getCell g _ _) as [c|] eqn:Hc; [|discriminate].
    destruct (blocked c) eqn:Hb; [discriminate|].
    apply IH in H as (Hcells & Hcan & Hwhy & Hconf & Hcross).
    rewrite crossing_test in Hconf, Hcross, Hcan, Hwhy.
    simpl. unfold spanCell at 2 3. rewrite Hc.
    split; [|split; [|split; [|split]]].
    + intros [|k] c' Hk.
      * rewrite Nat.add_0_r. exists c. split; assumption.
      * replace (i + S k)%nat with (S i + k)%nat by lia. apply (Hcells k c' Hk).
    + rewrite Hcan. destruct (bool_decide _), (truthy (letter c) && _); reflexivity.
    + rewrite Hwhy. destruct (bool_decide _), (truthy (letter c) && _); reflexivity.
    + rewrite Hconf.
      destruct (bool_decide (letter c = [ch])), (truthy (letter c) && _); simpl;
        rewrite ?length_app; simpl; lia.
    + rewrite Hcross.
      destruct (bool_decide (letter c = [ch])), (truthy (letter c) && _); simpl;
        rewrite ?length_app; simpl; lia.
Qed.

(** The loop left early: the reason is a cell outside the grid or a
    blocked cell. *)
Lemma checkLetters_early (letters : list N) : forall (i : nat) (res0 res : verdict),
  checkLetters g startRow startCol direction i letters res0 = Returned (inl res) ->
  canPlace res = canPlace res0 /\
  ((exists k, why res = LeavesGrid k) \/ (exists row col, why res = CellBlocked row col)).
Proof.
  induction letters as [|ch letters IH]; intros i res0 res H; simpl in H; [discriminate|].
  destruct (isValidPosition g _ _) eqn:Hv; simpl in H.
  - destruct (getCell g _ _) as [c|] eqn:Hc; [|discriminate].
    destruct (blocked c) eqn:Hb.
    + injection H as <-. simpl. eauto.
    + apply IH in H as [Hcan Hwhy]. split; [|exact Hwhy].
      rewrite Hcan. destruct (truthy (letter c) && bool_decide _),
        (truthy (letter c) && negb _); reflexivity.
  - injection H as <-. simpl. eauto.
Qed.

(** When every cell is there and free the loop is carried to its end. *)
Lemma checkLetters_runs (letters : list N) : forall (i : nat) (res0 : verdict),
  (forall k ch, letters !! k = Some ch ->
     exists c, spanCell g startRow startCol direction (i + k) = Some c /\ blocked c = false) ->
  exists res,
    checkLetters g startRow startCol direction i letters res0 = Returned (inr res).
Proof.
  induction letters as [|ch letters IH]; intros i res0 Hcells; simpl; [eauto|].
  destruct (Hcells O ch eq_refl) as (c & Hc & Hb). rewrite Nat.add_0_r in Hc.
  unfold spanCell in Hc. rewrite (getCell_valid _ _ _ Hc), Hc, Hb. simpl.
  apply IH. intros k c' Hk.
  replace (S i + k)%nat with (i + S k)%nat by lia. apply (Hcells (S k) c' Hk).
Qed.

Lemma crossingCount_le (letters : list N) : forall i,
  (crossingCount g startRow startCol direction i letters <= length letters)%nat.
Proof.
  induction letters as [|ch letters IH]; intros i; simpl; [lia|].
  specialize (IH (S i)).
  destruct (spanCell _ _ _ _ _) as [c|]; [destruct (bool_decide _)|]; lia.
Qed.

Lemma crossingCount_lt (letters : list N) : forall i,
  (exists k ch c, letters !! k = Some ch /\
     spanCell g startRow startCol direction (i + k) = Some c /\ letter c <> [ch]) ->
  (crossingCount g startRow startCol direction i letters < length letters)%nat.
Proof.
  induction letters as [|ch letters IH]; intros i (k & ch' & c & Hk & Hc & Hne).
  - discriminate.
  - simpl. destruct k as [|k].
    + injection Hk as ->. rewrite Nat.add_0_r in Hc. rewrite Hc.
      rewrite bool_decide_eq_false_2 by exact Hne.
      pose proof (crossingCount_le letters (S i)). lia.
    + assert (crossingCount g startRow startCol direction (S i) letters < length letters)%nat.
      { apply IH. exists k, ch', c. replace (S i + k)%nat with (i + S k)%nat by lia. auto. }
      destruct (spanCell _ _ _ _ i) as [c0|]; [destruct (bool_decide _)|]; lia.
Qed.

Lemma crossingCount_zero (letters : list N) : forall i,
  crossingCount g startRow startCol direction i letters = O <->
  (forall k ch c, letters !! k = Some ch ->
     spanCell g startRow startCol direction (i + k) = Some c -> letter c <> [ch]).
Proof.
  induction letters as [|ch letters IH]; intros i; simpl.
  - split; [intros _ k c' c Hk; discriminate | reflexivity].
  - split.
    + intros H [|k] ch' c Hk Hc.
      * injection Hk as ->. rewrite Nat.add_0_r in Hc. rewrite Hc in H.
        destruct (bool_decide_reflect (letter c = [ch'])); [simpl in H; lia | assumption].
      * replace (i + S k)%nat with (S i + k)%nat in Hc by lia.
        apply (proj1 (IH (S i))) with (k := k); [lia | assumption | assumption].
    + intros H.
      assert (crossingCount g startRow startCol direction (S i) letters = O) as ->.
      { apply IH. intros k ch' c Hk Hc. apply (H (S k) ch' c Hk).
        replace (i + S k)%nat with (S i + k)%nat by lia. exact Hc. }
      destruct (spanCell _ _ _ _ i) as [c|] eqn:Hc; [|reflexivity].
      rewrite bool_decide_eq_false_2; [reflexivity|].
      apply (H O ch c eq_refl). rewrite Nat.add_0_r. exact Hc.
Qed.

Lemma conflictCount_zero (letters : list N) : forall i,
  conflictCount g startRow startCol direction i letters = O <->
  (forall k ch c, letters !! k = Some ch ->
     spanCell g startRow startCol direction (i + k) = Some c ->
     letter c = [] \/ letter c = [ch]).
Proof.
  induction letters as [|ch letters IH]; intros i; simpl.
  - split; [intros _ k c' c Hk; discriminate | reflexivity].
  - split.
    + intros H [|k] ch' c Hk Hc.
      * injection Hk as ->. rewrite Nat.add_0_r in Hc. rewrite Hc in H.
        destruct (letter c) as [|x l]; [left; reflexivity|]. right.
        destruct (bool_decide_reflect (x :: l = [ch'])); [assumption | simpl in H; lia].
      * replace (i + S k)%nat with (S i + k)%nat in Hc by lia.
        apply (proj1 (IH (S i))) with (k := k); [lia | assumption | assumption].
    + intros H.
      assert (conflictCount g startRow startCol direction (S i) letters = O) as ->.
      { apply IH. intros k ch' c Hk Hc. apply (H (S k) ch' c Hk).
        replace (i + S k)%nat with (S i + k)%nat by lia. exact Hc. }
      destruct (spanCell _ _ _ _ i) as [c|] eqn:Hc; [|reflexivity].
      destruct (H O ch c eq_refl) as [E|E]; [rewrite Nat.add_0_r; exact Hc | |];
        rewrite E; [reflexivity|].
      rewrite bool_decide_eq_true_2 by reflexivity. reflexivity.
Qed.

End CanPlaceFacts.

Section IsolationRule.

Import GridHelper Specified Sample.

Variables (g : grid) (word : jsstring) (startRow startCol : Z) (direction : jsstring).

Lemma rowOf_0 : rowOf direction startRow 0 = startRow.
Proof. unfold rowOf. destruct (bool_decide _); simpl; lia. Qed.

Lemma colOf_0 : colOf direction startCol 0 = startCol.
Proof. unfold colOf. destruct (bool_decide _); simpl; lia. Qed.

(** What the first six steps leave when the candidate passes them. *)
Lemma passes_reaches_isolation_check :
  passesEarlierChecks g word startRow startCol direction ->
  exists res,
    checkLetters g startRow startCol direction 0 word (mkVerdict false [] [] NoReason)
      = Returned (inr res) /\
    canPlaceWord g word startRow startCol direction =
      (if hasWordsOnGrid g && (length (intersections res) =? 0)%nat
       then Returned (rejected res Isolated)
       else Returned (mkVerdict true (conflicts res) (intersections res) (why res))) /\
    length (intersections res) = crossingCount g startRow startCol direction 0 word.
Proof.
  intros (Hlen & Hdir & Hcells & Hfree).
  destruct (checkLetters_runs g startRow startCol direction word 0
              (mkVerdict false [] [] NoReason)) as [res Hres].
  { intros k ch Hk. destruct (Hcells k ch Hk) as (c & Hc & Hb & _). eauto. }
  exists res. split; [exact Hres|].
  destruct (checkLetters_end _ _ _ _ _ _ _ _ Hres) as (_ & _ & _ & Hconf & Hcross).
  simpl in Hconf, Hcross.
  assert (conflictCount g startRow startCol direction 0 word = O) as Hc0.
  { apply conflictCount_zero. intros k ch c Hk Hc.
    destruct (Hcells k ch Hk) as (c' & Hc' & _ & Hl). simpl in Hc. congruence. }
  assert (crossingCount g startRow startCol direction 0 word < length word)%nat as Hlt.
  { apply crossingCount_lt. exact Hfree. }
  split; [|exact Hcross].
  unfold canPlaceWord.
  destruct (Nat.ltb_spec (length word) 2); [lia|].
  unfold includes. rewrite bool_decide_eq_true_2 by exact Hdir. simpl negb.
  destruct word as [|ch0 rest] eqn:Hw; [simpl in Hlen; lia|].
  destruct (Hcells O ch0 eq_refl) as (c0 & Hc0' & _).
  unfold spanCell in Hc0'. rewrite rowOf_0, colOf_0 in Hc0'.
  rewrite (getCell_valid _ _ _ _ Hc0'). simpl negb. cbv iota.
  rewrite Hres.
  destruct (Nat.eqb_spec (length (intersections res)) (length (ch0 :: rest))); [lia|].
  rewrite Hconf, Hc0. reflexivity.
Qed.

(** What a verdict of isolation tells. *)
Lemma isolated_verdict (res : verdict) :
  canPlaceWord g word startRow startCol direction = Returned res ->
  why res = Isolated ->
  canPlace res = false /\ hasWordsOnGrid g = true /\
  passesEarlierChecks g word startRow startCol direction /\
  noIntersection g word startRow startCol direction.
Proof.
  unfold canPlaceWord. intros H Hwhy.
  destruct (Nat.ltb_spec (length word) 2) as [|Hlen];
    [injection H as <-; discriminate|].
  unfold includes in H.
  destruct (bool_decide_reflect (direction ∈ [horizontal; vertical])) as [Hdir|];
    simpl in H; [|injection H as <-; discriminate].
  destruct (isValidPosition g startRow startCol); simpl in H;
    [|injection H as <-; discriminate].
  destruct (checkLetters _ _ _ _ _ _ _) as [[early|res']|] eqn:Hloop; [| |discriminate].
  { injection H as <-.
    destruct (checkLetters_early _ _ _ _ _ _ _ _ Hloop) as [_ [[k E]|(a & b & E)]];
      rewrite E in Hwhy; discriminate. }
  destruct (checkLetters_end _ _ _ _ _ _ _ _ Hloop)
    as (Hcells & Hcan & Hwhy0 & Hconf & Hcross).
  simpl in Hcan, Hwhy0, Hconf, Hcross.
  destruct (Nat.eqb_spec (length (intersections res')) (length word));
    [injection H as <-; discriminate|].
  destruct (Nat.ltb_spec 0 (length (conflicts res'))) as [|Hnoconf];
    [injection H as <-; discriminate|].
  destruct (hasWordsOnGrid g) eqn:Hwords; simpl in H.
  2:{ injection H as <-. simpl in Hwhy. congruence. }
  destruct (Nat.eqb_spec (length (intersections res')) 0) as [Hzero|].
  2:{ injection H as <-. simpl in Hwhy. congruence. }
  injection H as <-. simpl.
  assert (noIntersection g word startRow startCol direction) as Hnone.
  { intros k ch c Hk. apply (proj1 (crossingCount_zero g startRow startCol direction word 0));
      [lia | exact Hk]. }
  split; [exact Hcan|]. split; [reflexivity|]. split; [|exact Hnone].
  split; [exact Hlen|]. split; [exact Hdir|]. split.
  - intros k ch Hk. destruct (Hcells k ch Hk) as (c & Hc & Hb). simpl in Hc.
    exists c. split; [exact Hc|]. split; [exact Hb|].
    apply (proj1 (conflictCount_zero g startRow startCol direction word 0)) with (k := k);
      [lia | exact Hk | exact Hc].
  - destruct word as [|ch0 rest]; [simpl in Hlen; lia|].
    destruct (Hcells O ch0 eq_refl) as (c & Hc & _). simpl in Hc.
    exists O, ch0, c. split; [reflexivity|]. split; [exact Hc|].
    apply (Hnone O ch0 c eq_refl Hc).
Qed.

(** C5. A verdict of [canPlaceWord] gives the isolation reason exactly
    when the candidate passes the earlier checks, the grid holds a placed
    word and no letter of the candidate lies over a cell holding the same
    letter, and the candidate is then refused; on a grid without a placed
    word every candidate that passes the earlier checks is accepted. *)
Theorem canPlaceWord_isolation_rule :
  (forall res, canPlaceWord g word startRow startCol direction = Returned res ->
     (why res = Isolated <->
      passesEarlierChecks g word startRow startCol direction /\
      hasWordsOnGrid g = true /\
      noIntersection g word startRow startCol direction) /\
     (why res = Isolated -> canPlace res = false)) /\
  (passesEarlierChecks g word startRow startCol direction ->
   hasWordsOnGrid g = false ->
   exists res, canPlaceWord g word startRow startCol direction = Returned res /\
               canPlace res = true).
Proof.
  split.
  - intros res H. split; [split|].
    + intros Hwhy. destruct (isolated_verdict res H Hwhy) as (_ & ? & ? & ?). auto.
    + intros (Hpass & Hwords & Hnone).
      destruct (passes_reaches_isolation_check Hpass) as (res' & _ & Hcall & Hcross).
      rewrite Hcall, Hwords in H.
      assert (crossingCount g startRow startCol direction 0 word = O) as Hzero.
      { apply crossingCount_zero. intros k ch c Hk Hc. apply (Hnone k ch c Hk Hc). }
      rewrite Hcross, Hzero in H. simpl in H. injection H as <-. reflexivity.
    + intros Hwhy. apply (isolated_verdict res H Hwhy).
  - intros Hpass Hwords.
    destruct (passes_reaches_isolation_check Hpass) as (res' & _ & Hcall & _).
    rewrite Hwords in Hcall. simpl in Hcall. eauto.
Qed.

End IsolationRule.

Section IsolationExamples.

Import GridHelper Specified Sample.

(** The sample grid is the one [createEmptyGrid(5, 5)] returns, and
    placing CAT on it succeeds. *)
Lemma createEmptyGrid_sample :
  createEmptyGrid 5 5 = Returned emptyGrid /\
  placeWord emptyGrid cat = (catGrid, Returned true).
Proof. split; vm_compute; reflexivity. Qed.

Lemma canPlaceWord_isolation_rule_witness :
  (exists res, canPlaceWord catGrid (js "DOG") 0 0 horizontal = Returned res /\
               why res = Isolated /\ canPlace res = false) /\
  (exists res, canPlaceWord emptyGrid (js "DOG") 0 0 horizontal = Returned res /\
               canPlace res = true).
Proof.
  assert (forall gr, gr = catGrid \/ gr = emptyGrid ->
            passesEarlierChecks gr (js "DOG") 0 0 horizontal /\
            noIntersection gr (js "DOG") 0 0 horizontal) as Hpass.
  { intros gr Hgr. split.
    - split; [simpl; lia|]. split; [apply list_elem_of_here|]. split.
      + intros [|[|[|i]]] ch Hi; try discriminate; injection Hi as <-;
          destruct Hgr as [-> | ->]; eexists; (split; [vm_compute; reflexivity|]);
          (split; [reflexivity|]); left; reflexivity.
      + exists O, 68%N. destruct Hgr as [-> | ->]; eexists;
          (split; [reflexivity|]); (split; [vm_compute; reflexivity|]); discriminate.
    - intros [|[|[|i]]] ch c Hi; try discriminate; injection Hi as <-;
        destruct Hgr as [-> | ->]; vm_compute; intros [= <-]; discriminate. }
  split.
  - destruct (canPlaceWord catGrid (js "DOG") 0 0 horizontal) as [res|] eqn:E;
      [|vm_compute in E; discriminate].
    exists res. split; [reflexivity|].
    destruct (canPlaceWord_isolation_rule catGrid (js "DOG") 0 0 horizontal) as [Hiff _].
    destruct (Hiff res E) as [Hrule Hrefused].
    assert (why res = Isolated) as Hwhy.
    { apply Hrule. destruct (Hpass catGrid (or_introl eq_refl)) as [? ?].
      split; [assumption|]. split; [vm_compute; reflexivity | assumption]. }
    split; [exact Hwhy | exact (Hrefused Hwhy)].
  - destruct (canPlaceWord_isolation_rule emptyGrid (js "DOG") 0 0 horizontal) as [_ Hfirst].
    apply Hfirst; [apply (Hpass emptyGrid); right; reflexivity | vm_compute; reflexivity].
Defined.

End IsolationExamples.

Section PlacementFacts.

Import GridHelper Specified Sample.

(** *** Cells and positions *)

Lemma lookup2_getCell (g : grid) (row col : Z) (c : cell) :
  getCell g row col = Some c ->
  0 <= row /\ 0 <= col /\ lookup2 g (Z.to_nat row) (Z.to_nat col) = Some c.
Proof.
  unfold getCell, isValidPosition, at_index, lookup2.
  destruct (Z.leb_spec 0 row); simpl; [|discriminate].
  destruct (Z.ltb_spec row (Z.of_nat (length g))); simpl; [|discriminate].
  destruct (Z.leb_spec 0 col); simpl; [|discriminate].
  destruct (Z.ltb_spec col (firstRowLength g)); simpl; [|discriminate].
  destruct (Z.ltb_spec row 0); [lia|].
  destruct (g !! Z.to_nat row) as [r|]; simpl; [|discriminate].
  destruct (Z.ltb_spec col 0); [lia|]. auto.
Qed.

Lemma getCell_same_shape (g g' : grid) (row col : Z) (c c' : cell) :
  map length g' = map length g ->
  getCell g row col = Some c ->
  lookup2 g' (Z.to_nat row) (Z.to_nat col) = Some c' ->
  getCell g' row col = Some c'.
Proof.
  intros Hshape Hc Hc'.
  assert (length g' = length g) as Hlen.
  { rewrite <- (length_map length g'), Hshape. apply length_map. }
  assert (firstRowLength g' = firstRowLength g) as Hfirst.
  { destruct g, g'; simpl in *; first [reflexivity | discriminate | congruence]. }
  revert Hc Hc'. unfold getCell, isValidPosition, at_index, lookup2.
  rewrite Hlen, Hfirst.
  destruct (Z.leb_spec 0 row); simpl; [|discriminate].
  destruct (Z.ltb_spec row (Z.of_nat (length g))); simpl; [|discriminate].
  destruct (Z.leb_spec 0 col); simpl; [|discriminate].
  destruct (Z.ltb_spec col (firstRowLength g)); simpl; [|discriminate].
  destruct (Z.ltb_spec row 0); [lia|]. intros _.
  destruct (g' !! Z.to_nat row) as [r|]; simpl; [|discriminate].
  destruct (Z.ltb_spec col 0); [lia|]. auto.
Qed.

Lemma putCell_shape (g : grid) (row col : Z) (c : cell) :
  map length (putCell g row col c) = map length g.
Proof.
  unfold putCell. apply list_eq. intros a.
  rewrite !list_lookup_fmap.
  destruct (decide (a = Z.to_nat row)) as [->|Hne].
  - rewrite list_lookup_alter_eq. destruct (g !! Z.to_nat row); simpl; [|reflexivity].
    rewrite length_insert. reflexivity.
  - rewrite list_lookup_alter_ne by congruence. reflexivity.
Qed.

Lemma putCell_lookup2 (g : grid) (row col : Z) (c : cell) (a b : nat) :
  lookup2 (putCell g row col c) a b =
  if decide (a = Z.to_nat row /\ b = Z.to_nat col)
  then (fun _ => c) <$> lookup2 g a b else lookup2 g a b.
Proof.
  unfold putCell, lookup2.
  destruct (decide (a = Z.to_nat row)) as [->|Hne].
  - rewrite list_lookup_alter_eq. destruct (g !! Z.to_nat row) as [r|]; simpl.
    + destruct (decide (b = Z.to_nat col)) as [->|Hne].
      * rewrite decide_True by auto.
        destruct (r !! Z.to_nat col) eqn:E; simpl.
        -- apply list_lookup_insert_eq. eapply lookup_lt_Some, E.
        -- rewrite list_insert_ge by (apply lookup_ge_None; exact E). exact E.
      * rewrite decide_False by tauto. apply list_lookup_insert_ne. congruence.
    + destruct (decide _); reflexivity.
  - rewrite list_lookup_alter_ne by congruence. rewrite decide_False by tauto. reflexivity.
Qed.

Lemma position_injective (direction : jsstring) (startRow startCol : Z) (k k' : nat) :
  direction ∈ [horizontal; vertical] ->
  rowOf direction startRow k = rowOf direction startRow k' ->
  colOf direction startCol k = colOf direction startCol k' ->
  k = k'.
Proof.
  intros Hdir. unfold rowOf, colOf.
  apply list_elem_of_In in Hdir. destruct Hdir as [<-|[<-|[]]].
  - rewrite (bool_decide_eq_true_2 (horizontal = horizontal)) by reflexivity. lia.
  - rewrite (bool_decide_eq_true_2 (vertical = vertical)) by reflexivity. lia.
Qed.

End PlacementFacts.

Section RoundTrip.

Import GridHelper Specified Sample.

Variable w : wordData.

Local Abbreviation rowAt k := (rowOf (wDirection w) (wStartRow w) k).
Local Abbreviation colAt k := (colOf (wDirection w) (wStartCol w) k).

(** The placement loop, when the cells it visits are there: it ends,
    keeps the shape of the grid, leaves the other cells alone and writes
    each letter into its cell. *)
Lemma placeLetters_spec (letters : list N) : forall (i : nat) (g : grid),
  wDirection w ∈ [horizontal; vertical] ->
  (forall k ch, letters !! k = Some ch ->
     exists c, getCell g (rowAt (i + k)) (colAt (i + k)) = Some c) ->
  exists g',
    placeLetters g w i letters = (g', Returned tt) /\
    map length g' = map length g /\
    (forall a b,
       (forall k ch, letters !! k = Some ch ->
          ~ (rowAt (i + k) = Z.of_nat a /\ colAt (i + k) = Z.of_nat b)) ->
       lookup2 g' a b = lookup2 g a b) /\
    (forall k ch, letters !! k = Some ch ->
       exists a b c,
         rowAt (i + k) = Z.of_nat a /\ colAt (i + k) = Z.of_nat b /\
         lookup2 g a b = Some c /\
         lookup2 g' a b = Some (placeLetter w (i + k) ch c)).
Proof.
  induction letters as [|ch letters IH]; intros i g Hdir Hcells.
  - exists g. simpl. repeat split; try reflexivity. intros k c Hk. discriminate.
  - destruct (Hcells O ch eq_refl) as [c0 Hc0]. rewrite Nat.add_0_r in Hc0.
    destruct (lookup2_getCell _ _ _ _ Hc0) as (Hrow & Hcol & Hl0).
    simpl. rewrite Hc0.
    set (c0' := placeLetter w i ch c0).
    set (g1 := putCell g (rowAt i) (colAt i) c0').
    assert (map length g1 = map length g) as Hshape1 by apply putCell_shape.
    assert (forall a b,
              ~ (rowAt i = Z.of_nat a /\ colAt i = Z.of_nat b) ->
              lookup2 g1 a b = lookup2 g a b) as Hframe1.
    { intros a b Hne. unfold g1. rewrite putCell_lookup2.
      rewrite decide_False; [reflexivity|]. intros [-> ->]. apply Hne. lia. }
    assert (forall k, ~ (rowAt (S i + k) = rowAt i /\ colAt (S i + k) = colAt i)) as Hother.
    { intros k [Hr Hc].
      pose proof (position_injective _ _ _ _ _ Hdir Hr Hc). lia. }
    destruct (IH (S i) g1 Hdir) as (g' & Hrun & Hshape & Hframe & Hwritten).
    { intros k ch' Hk. destruct (Hcells (S k) ch' Hk) as [c Hc].
      replace (i + S k)%nat with (S i + k)%nat in Hc by lia.
      destruct (lookup2_getCell _ _ _ _ Hc) as (Hr & Hcl & Hl).
      exists c. eapply getCell_same_shape; [exact Hshape1 | exact Hc |].
      rewrite Hframe1; [exact Hl|]. intros [E1 E2]. apply (Hother k). lia. }
    exists g'. split; [exact Hrun|]. split; [congruence|]. split.
    + intros a b Hfree. rewrite Hframe.
      * apply Hframe1. specialize (Hfree O ch eq_refl). rewrite Nat.add_0_r in Hfree.
        exact Hfree.
      * intros k ch' Hk. replace (S i + k)%nat with (i + S k)%nat by lia.
        apply (Hfree (S k) ch' Hk).
    + intros [|k] ch' Hk.
      * injection Hk as <-. rewrite Nat.add_0_r.
        exists (Z.to_nat (rowAt i)), (Z.to_nat (colAt i)), c0.
        split; [lia|]. split; [lia|]. split; [exact Hl0|].
        rewrite Hframe.
        -- unfold g1. rewrite putCell_lookup2, decide_True by auto. rewrite Hl0. reflexivity.
        -- intros k' ch'' Hk' [E1 E2]. apply (Hother k'). lia.
      * destruct (Hwritten k ch' Hk) as (a & b & c & Ha & Hb & Hl & Hl').
        replace (i + S k)%nat with (S i + k)%nat by lia.
        exists a, b, c. split; [exact Ha|]. split; [exact Hb|]. split; [|exact Hl'].
        rewrite <- Hl. symmetry. apply Hframe1.
        intros [E1 E2]. apply (Hother k). lia.
Qed.

(** What an accepting verdict tells. *)
Lemma accepted_verdict (g : grid) (res : verdict) :
  canPlaceWord g (wWord w) (wStartRow w) (wStartCol w) (wDirection w) = Returned res ->
  canPlace res = true ->
  wDirection w ∈ [horizontal; vertical] /\
  (2 <= length (wWord w))%nat /\
  (forall k ch, wWord w !! k = Some ch ->
     exists c, getCell g (rowAt k) (colAt k) = Some c /\ blocked c = false /\
               (letter c = [] \/ letter c = [ch])).
Proof.
  unfold canPlaceWord. intros H Hcan.
  destruct (Nat.ltb_spec (length (wWord w)) 2) as [|Hlen];
    [injection H as <-; discriminate|].
  unfold includes in H.
  destruct (bool_decide_reflect (wDirection w ∈ [horizontal; vertical])) as [Hdir|];
    simpl in H; [|injection H as <-; discriminate].
  destruct (isValidPosition g _ _); simpl in H; [|injection H as <-; discriminate].
  destruct (checkLetters _ _ _ _ _ _ _) as [[early|res']|] eqn:Hloop; [| |discriminate].
  { injection H as <-.
    destruct (checkLetters_early _ _ _ _ _ _ _ _ Hloop) as [E _].
    simpl in E. congruence. }
  destruct (checkLetters_end _ _ _ _ _ _ _ _ Hloop) as (Hcells & Hcan' & _ & Hconf & _).
  simpl in Hcan', Hconf.
  assert (conflictCount g (wStartRow w) (wStartCol w) (wDirection w) 0 (wWord w) = O)
    as Hnone.
  { destruct (Nat.eqb_spec (length (intersections res')) (length (wWord w)));
      [injection H as <-; simpl in Hcan; congruence|].
    destruct (Nat.ltb_spec 0 (length (conflicts res')));
      [injection H as <-; simpl in Hcan; congruence | lia]. }
  split; [exact Hdir|]. split; [exact Hlen|].
  intros k ch Hk. destruct (Hcells k ch Hk) as (c & Hc & Hb). simpl in Hc.
  exists c. split; [exact Hc|]. split; [exact Hb|].
  apply (proj1 (conflictCount_zero g _ _ _ (wWord w) 0) Hnone k ch c Hk Hc).
Qed.

(** After an accepting verdict the placement goes through. *)
Lemma placeWord_accepted (g : grid) (res : verdict) :
  canPlaceWord g (wWord w) (wStartRow w) (wStartCol w) (wDirection w) = Returned res ->
  canPlace res = true ->
  exists g1,
    placeWord g w = (g1, Returned true) /\
    placeLetters g w 0 (wWord w) = (g1, Returned tt).
Proof.
  intros H Hcan. destruct (accepted_verdict g res H Hcan) as (Hdir & _ & Hcells).
  destruct (placeLetters_spec (wWord w) 0 g Hdir) as (g1 & Hrun & _).
  { intros k ch Hk. destruct (Hcells k ch Hk) as (c & Hc & _). eauto. }
  exists g1. split; [|exact Hrun].
  unfold placeWord. rewrite H, Hcan, Hrun. reflexivity.
Qed.

(** C6. [placeWord] runs the legality check first: when the check
    refuses the word the call returns [false] with the grid as it was, and
    more generally the grid is only ever changed by a call that returns
    [true]. *)
Theorem placeWord_refused_leaves_grid (g : grid) :
  (forall res,
     canPlaceWord g (wWord w) (wStartRow w) (wStartCol w) (wDirection w) = Returned res ->
     canPlace res = false ->
     placeWord g w = (g, Returned false)) /\
  (forall g' result, placeWord g w = (g', result) -> result <> Returned true -> g' = g).
Proof.
  split.
  - intros res H Hcan. unfold placeWord. rewrite H, Hcan. reflexivity.
  - intros g' result Hcall Hnot.
    destruct (canPlaceWord g (wWord w) (wStartRow w) (wStartCol w) (wDirection w))
      as [res|] eqn:H.
    + destruct (canPlace res) eqn:Hcan.
      * destruct (placeWord_accepted g res H Hcan) as (g1 & Hplaced & _). congruence.
      * unfold placeWord in Hcall. rewrite H, Hcan in Hcall. simpl in Hcall. congruence.
    + unfold placeWord in Hcall. rewrite H in Hcall. congruence.
Qed.

(** *** Removal *)









End RoundTrip.

Section RoundTripTheorem.

Import GridHelper Specified Sample.

Lemma lookup2_elem (g : grid) (a b : nat) (c : cell) :
  lookup2 g a b = Some c -> exists row, row ∈ g /\ c ∈ row.
Proof.
  unfold lookup2. destruct (g !! a) as [row|] eqn:Hrow; simpl; [|discriminate].
  intros Hc. exists row. split; eapply list_elem_of_lookup_2; eassumption.
Qed.

Lemma lookup2_map (f : cell -> cell) (g : grid) (a b : nat) :
  lookup2 (map (map f) g) a b = f <$> lookup2 g a b.
Proof.
  unfold lookup2. change (map (map f) g) with (map f <$> g).
  rewrite list_lookup_fmap. destruct (g !! a) as [row|]; simpl; [|reflexivity].
  apply list_lookup_fmap.
Qed.


Lemma touches_dec (w : wordData) (a b : nat) : touches w a b \/ ~ touches w a b.
Proof.
  unfold touches.
  assert (forall (letters : list N) i,
            (exists k ch, letters !! k = Some ch /\
               rowOf (wDirection w) (wStartRow w) (i + k) = Z.of_nat a /\
               colOf (wDirection w) (wStartCol w) (i + k) = Z.of_nat b) \/
            ~ (exists k ch, letters !! k = Some ch /\
               rowOf (wDirection w) (wStartRow w) (i + k) = Z.of_nat a /\
               colOf (wDirection w) (wStartCol w) (i + k) = Z.of_nat b)) as H.
  { induction letters as [|ch letters IH]; intros i.
    - right. intros (k & c & Hk & _). discriminate.
    - destruct (Z.eq_dec (rowOf (wDirection w) (wStartRow w) i) (Z.of_nat a)) as [Hr|Hr];
      [destruct (Z.eq_dec (colOf (wDirection w) (wStartCol w) i) (Z.of_nat b)) as [Hc|Hc]|].
      + left. exists O, ch. rewrite Nat.add_0_r. auto.
      + destruct (IH (S i)) as [(k & c & Hk & H1 & H2)|Hno].
        * left. exists (S k), c. replace (i + S k)%nat with (S i + k)%nat by lia. auto.
        * right. intros ([|k] & c & Hk & H1 & H2).
          -- rewrite Nat.add_0_r in H2. contradiction.
          -- apply Hno. exists k, c. replace (S i + k)%nat with (i + S k)%nat by lia. auto.
      + destruct (IH (S i)) as [(k & c & Hk & H1 & H2)|Hno].
        * left. exists (S k), c. replace (i + S k)%nat with (S i + k)%nat by lia. auto.
        * right. intros ([|k] & c & Hk & H1 & H2).
          -- rewrite Nat.add_0_r in H1. contradiction.
          -- apply Hno. exists k, c. replace (S i + k)%nat with (i + S k)%nat by lia. auto. }
  apply (H (wWord w) O).
Qed.




Lemma placeWord_refused_leaves_grid_witness :
  placeWord catGrid dog = (catGrid, Returned false).
Proof.
  apply (proj1 (placeWord_refused_leaves_grid dog catGrid)
           (mkVerdict false [] [] Isolated)).
  - vm_compute. reflexivity.
  - reflexivity.
Defined.


(** The id has to be new to the grid: a word placed under the id of
    CAT takes the cells of CAT with it when it is removed. *)
Lemma removeWord_takes_every_cell_of_the_id :
  snd (placeWord catGrid carAsCat) = Returned true /\
  (letter <$> lookup2 catGrid 2 4) = Some (js "T") /\
  (letter <$> lookup2 (fst (removeWord (fst (placeWord catGrid carAsCat)) (wId cat))) 2 4)
    = Some [].
Proof. repeat split; vm_compute; reflexivity. Qed.

End RoundTripTheorem.

(** * Further properties *)

(** ** Creating and blocking *)

Section CreateFacts.

Import GridHelper GridNotions Specified.

Lemma getCell_lookup2 (g : grid) (row col : Z) (c : cell) :
  0 <= row -> 0 <= col < firstRowLength g ->
  lookup2 g (Z.to_nat row) (Z.to_nat col) = Some c ->
  getCell g row col = Some c.
Proof.
  intros Hrow Hcol Hc. unfold getCell, isValidPosition, at_index.
  assert (row < Z.of_nat (length g)) as Hlt.
  { unfold lookup2 in Hc. destruct (g !! Z.to_nat row) eqn:E; [|discriminate].
    apply lookup_lt_Some in E. lia. }
  destruct (Z.leb_spec 0 row); [|lia].
  destruct (Z.ltb_spec row (Z.of_nat (length g))); [|lia].
  destruct (Z.leb_spec 0 col); [|lia].
  destruct (Z.ltb_spec col (firstRowLength g)); [|lia]. simpl.
  destruct (Z.ltb_spec row 0); [lia|]. unfold lookup2 in Hc.
  destruct (g !! Z.to_nat row); [|discriminate]. simpl in *.
  destruct (Z.ltb_spec col 0); [lia|]. exact Hc.
Qed.

Lemma emptyRows_lookup2 (width height : Z) (a b : nat) :
  lookup2 (emptyRows width height) a b =
  if decide (Z.of_nat a < height /\ Z.of_nat b < width)
  then Some (createEmptyCell (Z.of_nat a) (Z.of_nat b)) else None.
Proof.
  unfold lookup2, emptyRows.
  change (map ?f ?l) with (f <$> l). rewrite list_lookup_fmap.
  destruct (decide (a < Z.to_nat height)%nat) as [Ha|Ha].
  - rewrite lookup_seq_lt by exact Ha. simpl.
    change (map ?f ?l) with (f <$> l). rewrite list_lookup_fmap.
    destruct (decide (b < Z.to_nat width)%nat) as [Hb|Hb].
    + rewrite lookup_seq_lt by exact Hb. simpl. rewrite decide_True by lia. reflexivity.
    + rewrite lookup_seq_ge by lia. simpl. rewrite decide_False by lia. reflexivity.
  - rewrite lookup_seq_ge by lia. simpl. rewrite decide_False by lia. reflexivity.
Qed.

Lemma emptyRows_elem (width height : Z) (row : list cell) (c : cell) :
  row ∈ emptyRows width height -> c ∈ row ->
  length row = Z.to_nat width /\
  exists a b, c = createEmptyCell (Z.of_nat a) (Z.of_nat b).
Proof.
  intros Hrow Hc. unfold emptyRows in Hrow.
  apply list_elem_of_In, in_map_iff in Hrow as (a & <- & _).
  split; [rewrite length_map, length_seq; reflexivity|].
  apply list_elem_of_In, in_map_iff in Hc as (b & <- & _). eauto.
Qed.

Lemma emptyRows_shape (width height : Z) :
  0 < height ->
  Z.of_nat (length (emptyRows width height)) = height /\
  firstRowLength (emptyRows width height) = Z.max 0 width.
Proof.
  intros Hh. unfold emptyRows. split; [rewrite length_map, length_seq; lia|].
  destruct (Z.to_nat height) as [|n] eqn:E; [lia|]. simpl.
  rewrite length_map, length_seq. lia.
Qed.

(** The grid of a valid size. *)
Lemma emptyRows_facts (width height : Z) :
  isValidSize width height = true ->
  createEmptyGrid width height = Returned (emptyRows width height) /\
  Z.of_nat (length (emptyRows width height)) = height /\
  firstRowLength (emptyRows width height) = width /\
  rectangular (emptyRows width height) /\
  (forall row col, 0 <= row < height -> 0 <= col < width ->
     getCell (emptyRows width height) row col = Some (createEmptyCell row col)) /\
  (forall row col, ~ (0 <= row < height /\ 0 <= col < width) ->
     getCell (emptyRows width height) row col = None) /\
  hasWordsOnGrid (emptyRows width height) = false /\
  gridInvariant (emptyRows width height).
Proof.
  intros Hvalid. unfold createEmptyGrid. rewrite Hvalid.
  assert (5 <= width <= 25 /\ 5 <= height <= 25) as [Hw Hh].
  { unfold isValidSize, minSize, maxSize in Hvalid.
    repeat (apply andb_prop in Hvalid as [Hvalid ?]). lia. }
  destruct (emptyRows_shape width height) as [Hlen Hfirst]; [lia|].
  rewrite Z.max_r in Hfirst by lia.
  split; [reflexivity|]. split; [exact Hlen|]. split; [exact Hfirst|].
  split; [|split; [|split; [|split]]].
  - intros row Hrow. rewrite Hfirst.
    destruct row as [|c row'] eqn:E.
    + unfold emptyRows in Hrow. apply list_elem_of_In, in_map_iff in Hrow as (a & Hr & _).
      apply (f_equal length) in Hr. rewrite length_map, length_seq in Hr. simpl in Hr. lia.
    + destruct (emptyRows_elem width height (c :: row') c Hrow) as [-> _];
        [apply list_elem_of_here | lia].
  - intros row col Hrow Hcol. apply getCell_lookup2; [lia | lia |].
    rewrite emptyRows_lookup2, decide_True by lia. f_equal. f_equal; lia.
  - intros row col Hout. destruct (getCell _ row col) as [c|] eqn:E; [|reflexivity].
    destruct (lookup2_getCell _ _ _ _ E) as (Hr & Hc & Hl).
    rewrite emptyRows_lookup2 in Hl. destruct (decide _) as [[? ?]|]; [|discriminate].
    exfalso. apply Hout. lia.
  - unfold hasWordsOnGrid. apply not_true_is_false. intros H.
    apply existsb_exists in H as (row & Hrow & H).
    apply existsb_exists in H as (c & Hc & H).
    apply list_elem_of_In in Hrow, Hc.
    destruct (emptyRows_elem _ _ _ _ Hrow Hc) as (_ & a & b & ->). discriminate.
  - intros row c Hrow Hc.
    destruct (emptyRows_elem _ _ _ _ Hrow Hc) as (_ & a & b & ->).
    unfold cellInvariant. simpl. split; [constructor|]. split; [reflexivity|].
    split; [auto|]. intros H. contradiction.
Qed.

(** X1. [createEmptyGrid] throws for a width or a height outside
    [5..25]; otherwise it returns a rectangular grid of that height and
    width whose cell at every position is the empty cell carrying its own
    coordinates, a grid on which no word counts as placed. *)
Theorem createEmptyGrid_spec (width height : Z) :
  (isValidSize width height = false -> createEmptyGrid width height = Thrown) /\
  (isValidSize width height = true ->
   exists g,
     createEmptyGrid width height = Returned g /\
     Z.of_nat (length g) = height /\ firstRowLength g = width /\ rectangular g /\
     (forall row col, 0 <= row < height -> 0 <= col < width ->
        getCell g row col = Some (createEmptyCell row col)) /\
     (forall row col, ~ (0 <= row < height /\ 0 <= col < width) ->
        getCell g row col = None) /\
     hasWordsOnGrid g = false /\ gridInvariant g).
Proof.
  split.
  - intros H. unfold createEmptyGrid. rewrite H. reflexivity.
  - intros H. exists (emptyRows width height). apply emptyRows_facts, H.
Qed.

Lemma createEmptyGrid_spec_witness :
  exists g, createEmptyGrid 7 5 = Returned g /\ Z.of_nat (length g) = 5 /\
            firstRowLength g = 7 /\ hasWordsOnGrid g = false.
Proof.
  destruct (proj2 (createEmptyGrid_spec 7 5) eq_refl)
    as (g & Hg & Hlen & Hfirst & _ & _ & _ & Hwords & _).
  exists g. auto.
Defined.

End CreateFacts.

Section BlockFacts.

Import GridHelper GridNotions Specified.

Lemma getCell_putCell (g : grid) (row col : Z) (c c' : cell) :
  getCell g row col = Some c ->
  getCell (putCell g row col c') row col = Some c'.
Proof.
  intros Hc. destruct (lookup2_getCell _ _ _ _ Hc) as (Hr & Hcl & Hl).
  eapply getCell_same_shape; [apply putCell_shape | exact Hc |].
  rewrite putCell_lookup2, decide_True by auto. rewrite Hl. reflexivity.
Qed.

(** X2. [blockCell] on a position without a cell returns [false] and
    leaves the grid alone. On a cell it returns [true]: that cell is
    blocked and has lost its letter, number, word ids, directions and
    start and end marks, its intersection flag keeps the value it had, and
    every other cell is as before. *)
Theorem blockCell_spec (g : grid) (row col : Z) :
  (getCell g row col = None -> blockCell g row col = (g, false)) /\
  (forall c, getCell g row col = Some c ->
     exists g' c',
       blockCell g row col = (g', true) /\
       map length g' = map length g /\
       getCell g' row col = Some c' /\
       blocked c' = true /\ letter c' = [] /\ number c' = None /\
       wordIds c' = [] /\ directions c' = [] /\
       isStart c' = false /\ isEnd c' = false /\
       isIntersection c' = isIntersection c /\
       (forall a b, ~ (a = Z.to_nat row /\ b = Z.to_nat col) ->
          lookup2 g' a b = lookup2 g a b)).
Proof.
  unfold blockCell. split; [intros ->; reflexivity|]. intros c Hc. rewrite Hc.
  eexists _, _. split; [reflexivity|]. split; [apply putCell_shape|].
  split; [eapply getCell_putCell, Hc|].
  repeat (split; [reflexivity|]).
  intros a b Hne. rewrite putCell_lookup2, decide_False by exact Hne. reflexivity.
Qed.

Lemma blockCell_spec_witness :
  exists g' c', blockCell Sample.catGrid 2 2 = (g', true) /\
                getCell g' 2 2 = Some c' /\ blocked c' = true /\ letter c' = [].
Proof.
  destruct (proj2 (blockCell_spec Sample.catGrid 2 2) _ eq_refl)
    as (g' & c' & H & _ & Hc & Hb & Hl & _).
  exists g', c'. auto.
Defined.

(** A word over a blocked cell is never accepted. *)
Lemma blocked_cell_refuses (g : grid) (row col : Z) (c : cell)
    (word : jsstring) (startRow startCol : Z) (direction : jsstring)
    (k : nat) (ch : N) (res : verdict) :
  getCell g row col = Some c -> blocked c = true ->
  word !! k = Some ch ->
  rowOf direction startRow k = row -> colOf direction startCol k = col ->
  canPlaceWord g word startRow startCol direction = Returned res ->
  canPlace res = false.
Proof.
  intros Hc Hb Hk Hrow Hcol Hres.
  destruct (canPlace res) eqn:Hcan; [|reflexivity].
  destruct (accepted_verdict (mkWord [] word [] direction startRow startCol None (Fin 0))
              g res Hres Hcan) as (_ & _ & Hcells).
  destruct (Hcells k ch Hk) as (c0 & Hc0 & Hb0 & _). simpl in Hc0.
  rewrite Hrow, Hcol in Hc0. congruence.
Qed.

(** X3. Once [blockCell] has blocked a cell, [canPlaceWord] refuses every
    candidate, whatever its text, anchor and direction, one of whose
    letters would lie over that cell. *)
Theorem blockCell_then_canPlaceWord (g g' : grid) (row col : Z)
    (word : jsstring) (startRow startCol : Z) (direction : jsstring)
    (k : nat) (ch : N) (res : verdict) :
  blockCell g row col = (g', true) ->
  word !! k = Some ch ->
  rowOf direction startRow k = row -> colOf direction startCol k = col ->
  canPlaceWord g' word startRow startCol direction = Returned res ->
  canPlace res = false.
Proof.
  intros Hblock Hk Hrow Hcol Hres. unfold blockCell in Hblock.
  destruct (getCell g row col) as [c|] eqn:Hc; [|discriminate].
  injection Hblock as <-.
  match type of Hres with canPlaceWord (putCell _ _ _ ?c') _ _ _ _ = _ =>
    pose proof (getCell_putCell g row col c c' Hc) as Hblocked end.
  eapply (blocked_cell_refuses _ row col _ word startRow startCol direction k ch res
            Hblocked); [reflexivity | exact Hk | exact Hrow | exact Hcol | exact Hres].
Qed.

Lemma blockCell_then_canPlaceWord_witness :
  exists res,
    canPlaceWord (fst (blockCell Sample.emptyGrid 0 1)) (js "DOG") 0 0 horizontal
      = Returned res /\ canPlace res = false.
Proof.
  eexists. split; [vm_compute; reflexivity|].
  eapply (blockCell_then_canPlaceWord Sample.emptyGrid _ 0 1 (js "DOG") 0 0 horizontal
            1 79%N).
  - vm_compute. reflexivity.
  - reflexivity.
  - reflexivity.
  - reflexivity.
  - vm_compute. reflexivity.
Defined.

End BlockFacts.

(** ** Placing and removing *)

Section PlaceRemoveFacts.

Import GridHelper GridNotions Specified.

(** The fields of a cell after the loop of [placeWord] has written letter
    [k] into it. *)
Lemma placeLetter_fields (w : wordData) (k : nat) (ch : N) (c : cell) :
  let p := placeLetter w k ch c in
  letter p = [ch] /\ blocked p = blocked c /\
  wordIds p = (if includes (wId w) (wordIds c) then wordIds c
               else wordIds c ++ [wId w]) /\
  directions p = (if includes (wDirection w) (directions c) then directions c
                  else directions c ++ [wDirection w]) /\
  isIntersection p =
    (if (1 <? length (if includes (wId w) (wordIds c) then wordIds c
                      else wordIds c ++ [wId w]))%nat
     then true else isIntersection c) /\
  isStart p = (if (k =? 0)%nat then true else isStart c) /\
  number p = (if (k =? 0)%nat then wNumber w else number c) /\
  isEnd p = (if Z.of_nat k =? Z.of_nat (length (wWord w)) - 1 then true else isEnd c).
Proof.
  cbv zeta. unfold placeLetter.
  generalize (Z.of_nat k =? Z.of_nat (length (wWord w)) - 1) as b5.
  generalize (k =? 0)%nat as b4. intros b4 b5.
  change (wordIds (set_letter [ch] c)) with (wordIds c).
  generalize (includes (wId w) (wordIds c)) as b1. intros b1.
  cbv zeta.
  destruct b1.
  - change (directions (set_letter [ch] c)) with (directions c).
    generalize (includes (wDirection w) (directions c)) as b2. intros b2.
    destruct b2.
    + change (wordIds (set_letter [ch] c)) with (wordIds c).
      generalize (1 <? length (wordIds c))%nat as b3. intros b3.
      destruct b3, b4, b5; repeat split; reflexivity.
    + change (wordIds (set_directions _ _)) with (wordIds c).
      generalize (1 <? length (wordIds c))%nat as b3. intros b3.
      destruct b3, b4, b5; repeat split; reflexivity.
  - change (directions (set_wordIds _ _)) with (directions c).
    generalize (includes (wDirection w) (directions c)) as b2. intros b2.
    destruct b2.
    + change (wordIds (set_wordIds _ _)) with (wordIds c ++ [wId w]).
      generalize (1 <? length (wordIds c ++ [wId w]))%nat as b3. intros b3.
      destruct b3, b4, b5; repeat split; reflexivity.
    + change (wordIds (set_directions _ _)) with (wordIds c ++ [wId w]).
      generalize (1 <? length (wordIds c ++ [wId w]))%nat as b3. intros b3.
      destruct b3, b4, b5; repeat split; reflexivity.
Qed.
Lemma lookup2_same_shape (g g' : grid) (a b : nat) (c' : cell) :
  map length g' = map length g -> lookup2 g' a b = Some c' ->
  exists c, lookup2 g a b = Some c.
Proof.
  intros Hshape Hc'. unfold lookup2 in *.
  assert (length <$> g' !! a = length <$> g !! a) as Hlen.
  { rewrite <- !list_lookup_fmap. change (length <$> g') with (map length g').
    rewrite Hshape. reflexivity. }
  destruct (g' !! a) as [row'|]; [|discriminate]. simpl in *.
  destruct (g !! a) as [row|]; [|discriminate]. simpl in *. injection Hlen as Hlen.
  apply lookup_lt_Some in Hc'. apply lookup_lt_is_Some_2. lia.
Qed.

(** The grid after an accepted placement, cell by cell: every cell under
    the word was there, free and without another letter and now holds what
    the loop wrote, and every cell of the new grid is either the old cell
    or such a written cell. *)
Lemma placeWord_cells (g : grid) (w : wordData) (res : verdict) :
  canPlaceWord g (wWord w) (wStartRow w) (wStartCol w) (wDirection w) = Returned res ->
  canPlace res = true ->
  exists g1,
    placeWord g w = (g1, Returned true) /\
    map length g1 = map length g /\
    (forall k ch, wWord w !! k = Some ch ->
       exists c,
         getCell g (rowOf (wDirection w) (wStartRow w) k)
           (colOf (wDirection w) (wStartCol w) k) = Some c /\
         blocked c = false /\ (letter c = [] \/ letter c = [ch]) /\
         getCell g1 (rowOf (wDirection w) (wStartRow w) k)
           (colOf (wDirection w) (wStartCol w) k) = Some (placeLetter w k ch c)) /\
    (forall a b c', lookup2 g1 a b = Some c' ->
       exists c, lookup2 g a b = Some c /\
         (c' = c \/
          exists k ch, wWord w !! k = Some ch /\ blocked c = false /\
                       (letter c = [] \/ letter c = [ch]) /\
                       c' = placeLetter w k ch c)).
Proof.
  intros Hverdict Hcan.
  destruct (accepted_verdict w g res Hverdict Hcan) as (Hdir & Hlen & Hcells).
  destruct (placeWord_accepted w g res Hverdict Hcan) as (g1 & Hplaced & Hrun).
  destruct (placeLetters_spec w (wWord w) 0 g Hdir)
    as (g1' & Hrun' & Hshape & Hframe & Hwritten).
  { intros k ch Hk. destruct (Hcells k ch Hk) as (c & Hc & _). eauto. }
  assert (g1' = g1) as -> by congruence. clear Hrun'.
  assert (forall k ch, wWord w !! k = Some ch ->
            exists a b c,
              rowOf (wDirection w) (wStartRow w) k = Z.of_nat a /\
              colOf (wDirection w) (wStartCol w) k = Z.of_nat b /\
              getCell g (Z.of_nat a) (Z.of_nat b) = Some c /\
              blocked c = false /\ (letter c = [] \/ letter c = [ch]) /\
              lookup2 g a b = Some c /\
              lookup2 g1 a b = Some (placeLetter w k ch c)) as Hcell.
  { intros k ch Hk.
    destruct (Hwritten k ch Hk) as (a & b & c & Ha & Hb & Hl & Hl'). simpl in Ha, Hb.
    destruct (Hcells k ch Hk) as (c0 & Hc0 & Hfree & Hletter).
    destruct (lookup2_getCell _ _ _ _ Hc0) as (_ & _ & Hl0).
    rewrite Ha, Hb, !Nat2Z.id in Hl0. assert (c0 = c) as -> by congruence.
    rewrite Ha, Hb in Hc0. exists a, b, c. auto 10. }
  exists g1. split; [exact Hplaced|]. split; [exact Hshape|]. split.
  - intros k ch Hk.
    destruct (Hcell k ch Hk) as (a & b & c & Ha & Hb & Hc & Hfree & Hletter & Hl & Hl').
    rewrite Ha, Hb. exists c. split; [exact Hc|]. split; [exact Hfree|].
    split; [exact Hletter|].
    eapply getCell_same_shape; [exact Hshape | exact Hc |]. rewrite !Nat2Z.id. exact Hl'.
  - intros a b c' Hc'.
    destruct (lookup2_same_shape g g1 a b c' Hshape Hc') as [c Hc].
    exists c. split; [exact Hc|].
    destruct (touches_dec w a b) as [(k & ch & Hk & Hr & Hcl)|Hno].
    + right.
      destruct (Hcell k ch Hk) as (a' & b' & c0 & Ha & Hb & _ & Hfree & Hletter & Hl & Hl').
      assert (a' = a) as -> by lia. assert (b' = b) as -> by lia.
      assert (c0 = c) as -> by congruence.
      exists k, ch. split; [exact Hk|]. split; [exact Hfree|]. split; [exact Hletter|].
      congruence.
    + left. rewrite Hframe in Hc'; [congruence|].
      intros k ch Hk [H1 H2]. apply Hno. exists k, ch. auto.
Qed.

(** X4. After a placement [canPlaceWord] accepts, [placeWord] has
    returned [true] and every cell under the word is free of a block, holds
    the word's letter for that position, lists the word's id and its
    direction, and is marked an intersection when it lists two ids or more;
    the first cell is marked a start and carries the word's number, the
    last is marked an end; and the grid counts as holding a word. *)
Theorem placeWord_writes_word (g : grid) (w : wordData) (res : verdict) :
  canPlaceWord g (wWord w) (wStartRow w) (wStartCol w) (wDirection w) = Returned res ->
  canPlace res = true ->
  exists g1,
    placeWord g w = (g1, Returned true) /\
    hasWordsOnGrid g1 = true /\
    forall k ch, wWord w !! k = Some ch ->
      exists c1,
        getCell g1 (rowOf (wDirection w) (wStartRow w) k)
          (colOf (wDirection w) (wStartCol w) k) = Some c1 /\
        blocked c1 = false /\ letter c1 = [ch] /\
        wId w ∈ wordIds c1 /\ wDirection w ∈ directions c1 /\
        ((2 <= length (wordIds c1))%nat -> isIntersection c1 = true) /\
        (k = O -> isStart c1 = true /\ number c1 = wNumber w) /\
        (S k = length (wWord w) -> isEnd c1 = true).
Proof.
  intros Hverdict Hcan.
  destruct (placeWord_cells g w res Hverdict Hcan) as (g1 & Hplaced & Hshape & Hfwd & _).
  assert (forall k ch, wWord w !! k = Some ch ->
    exists c1,
      getCell g1 (rowOf (wDirection w) (wStartRow w) k)
        (colOf (wDirection w) (wStartCol w) k) = Some c1 /\
      blocked c1 = false /\ letter c1 = [ch] /\
      wId w ∈ wordIds c1 /\ wDirection w ∈ directions c1 /\
      ((2 <= length (wordIds c1))%nat -> isIntersection c1 = true) /\
      (k = O -> isStart c1 = true /\ number c1 = wNumber w) /\
      (S k = length (wWord w) -> isEnd c1 = true)) as Hcells.
  { intros k ch Hk. destruct (Hfwd k ch Hk) as (c & _ & Hfree & _ & Hc1).
    exists (placeLetter w k ch c). split; [exact Hc1|].
    destruct (placeLetter_fields w k ch c) as (Hl & Hb & Hids & Hdirs & Hx & Hs & Hn & He).
    cbv zeta in *. split; [congruence|]. split; [exact Hl|].
    split; [|split; [|split; [|split]]].
    - rewrite Hids. unfold includes.
      destruct (bool_decide_reflect (wId w ∈ wordIds c)); [assumption|].
      apply elem_of_app. right. apply list_elem_of_here.
    - rewrite Hdirs. unfold includes.
      destruct (bool_decide_reflect (wDirection w ∈ directions c)); [assumption|].
      apply elem_of_app. right. apply list_elem_of_here.
    - intros Hlen. rewrite Hx. rewrite Hids in Hlen.
      match goal with |- context [(1 <? ?n)%nat] =>
        destruct (Nat.ltb_spec 1 n); [reflexivity | lia] end.
    - intros ->. rewrite Hs, Hn. auto.
    - intros Hlast. rewrite He.
      destruct (Z.eqb_spec (Z.of_nat k) (Z.of_nat (length (wWord w)) - 1)); [reflexivity | lia]. }
  exists g1. split; [exact Hplaced|]. split; [|exact Hcells].
  destruct (accepted_verdict w g res Hverdict Hcan) as (_ & Hlen & _).
  destruct (wWord w) as [|ch0 rest] eqn:Hw; [simpl in Hlen; lia|].
  destruct (Hcells O ch0 eq_refl) as (c1 & Hc1 & _ & Hl & Hid & _).
  destruct (lookup2_getCell _ _ _ _ Hc1) as (_ & _ & Hl1).
  destruct (lookup2_elem _ _ _ _ Hl1) as (row & Hrow & Hin).
  unfold hasWordsOnGrid. apply existsb_exists. exists row.
  split; [apply list_elem_of_In; exact Hrow|].
  apply existsb_exists. exists c1. split; [apply list_elem_of_In; exact Hin|].
  rewrite Hl. simpl. apply Nat.ltb_lt.
  destruct (wordIds c1); [inversion Hid | simpl; lia].
Qed.

Lemma placeWord_writes_word_witness :
  exists g1 c1,
    placeWord Sample.emptyGrid Sample.cat = (g1, Returned true) /\
    getCell g1 2 3 = Some c1 /\ letter c1 = js "A" /\ wId Sample.cat ∈ wordIds c1.
Proof.
  destruct (placeWord_writes_word Sample.emptyGrid Sample.cat (mkVerdict true [] [] NoReason))
    as (g1 & Hplaced & _ & Hcells).
  - vm_compute. reflexivity.
  - reflexivity.
  - destruct (Hcells 1%nat 65%N eq_refl) as (c1 & Hc1 & _ & Hl & Hid & _).
    exists g1, c1. auto.
Defined.

Lemma crossingCount_full (g : grid) (startRow startCol : Z) (direction : jsstring)
    (letters : list N) : forall i,
  (forall k ch, letters !! k = Some ch ->
     exists c, spanCell g startRow startCol direction (i + k) = Some c /\ letter c = [ch]) ->
  crossingCount g startRow startCol direction i letters = length letters.
Proof.
  induction letters as [|ch letters IH]; intros i Hcells; simpl; [reflexivity|].
  destruct (Hcells O ch eq_refl) as (c & Hc & Hl). rewrite Nat.add_0_r in Hc.
  rewrite Hc, bool_decide_eq_true_2 by exact Hl. f_equal. apply IH.
  intros k ch' Hk. replace (S i + k)%nat with (i + S k)%nat by lia.
  apply (Hcells (S k) ch' Hk).
Qed.

(** X5. A word that has just been placed cannot be placed again: the
    legality check on the new grid refuses the same text at the same anchor
    and direction as a full duplicate, and [placeWord] leaves the grid as it
    is. *)
Theorem placeWord_twice_refused (g g1 : grid) (w : wordData) (res : verdict) :
  canPlaceWord g (wWord w) (wStartRow w) (wStartCol w) (wDirection w) = Returned res ->
  canPlace res = true ->
  placeWord g w = (g1, Returned true) ->
  (exists res',
     canPlaceWord g1 (wWord w) (wStartRow w) (wStartCol w) (wDirection w) = Returned res' /\
     canPlace res' = false /\ why res' = FullDuplicate) /\
  placeWord g1 w = (g1, Returned false).
Proof.
  intros Hverdict Hcan Hplaced.
  destruct (placeWord_cells g w res Hverdict Hcan) as (g1' & Hplaced' & _ & Hfwd & _).
  assert (g1' = g1) as -> by congruence.
  destruct (accepted_verdict w g res Hverdict Hcan) as (Hdir & Hlen & _).
  assert (forall k ch, wWord w !! k = Some ch ->
            exists c, spanCell g1 (wStartRow w) (wStartCol w) (wDirection w) k = Some c /\
                      blocked c = false /\ letter c = [ch]) as Hcells.
  { intros k ch Hk. destruct (Hfwd k ch Hk) as (c & _ & Hfree & _ & Hc1).
    exists (placeLetter w k ch c). split; [exact Hc1|].
    destruct (placeLetter_fields w k ch c) as (Hl & Hb & _). cbv zeta in *.
    split; [congruence | exact Hl]. }
  destruct (checkLetters_runs g1 (wStartRow w) (wStartCol w) (wDirection w) (wWord w) 0
              (mkVerdict false [] [] NoReason)) as [res1 Hres1].
  { intros k ch Hk. destruct (Hcells k ch Hk) as (c & Hc & Hb & _). eauto. }
  destruct (checkLetters_end _ _ _ _ _ _ _ _ Hres1) as (_ & Hcan1 & _ & _ & Hcross).
  simpl in Hcan1, Hcross.
  rewrite crossingCount_full in Hcross.
  2:{ intros k ch Hk. destruct (Hcells k ch Hk) as (c & Hc & _ & Hl). eauto. }
  assert (canPlaceWord g1 (wWord w) (wStartRow w) (wStartCol w) (wDirection w)
          = Returned (rejected res1 FullDuplicate)) as Hsecond.
  { unfold canPlaceWord.
    destruct (Nat.ltb_spec (length (wWord w)) 2); [lia|].
    unfold includes. rewrite bool_decide_eq_true_2 by exact Hdir. simpl negb.
    destruct (wWord w) as [|ch0 rest] eqn:Hw; [simpl in Hlen; lia|].
    destruct (Hcells O ch0 eq_refl) as (c0 & Hc0 & _).
    unfold spanCell in Hc0. rewrite rowOf_0, colOf_0 in Hc0.
    rewrite (getCell_valid _ _ _ _ Hc0). simpl negb. cbv iota.
    rewrite Hres1, Hcross, Nat.eqb_refl. reflexivity. }
  split.
  - exists (rejected res1 FullDuplicate). split; [exact Hsecond|]. split; [exact Hcan1|].
    reflexivity.
  - unfold placeWord. rewrite Hsecond. simpl. rewrite Hcan1. reflexivity.
Qed.

Lemma placeWord_twice_refused_witness :
  placeWord Sample.catGrid Sample.cat = (Sample.catGrid, Returned false).
Proof.
  apply (placeWord_twice_refused Sample.emptyGrid Sample.catGrid Sample.cat
           (mkVerdict true [] [] NoReason)).
  - vm_compute. reflexivity.
  - reflexivity.
  - vm_compute. reflexivity.
Defined.

End PlaceRemoveFacts.

(** ** Removing a word, and what the mutators keep *)

Section RemoveFacts.

Import GridHelper GridNotions Specified.

Lemma indexOf_spec (x : jsstring) (l : list jsstring) :
  match indexOf x l with
  | None => x ∉ l
  | Some k => l !! k = Some x /\ (NoDup l -> x ∉ delete k l)
  end.
Proof.
  induction l as [|y l IH]; simpl; [apply not_elem_of_nil|].
  destruct (bool_decide_reflect (y = x)) as [->|Hne].
  - split; [reflexivity|]. intros Hnd. apply NoDup_cons in Hnd as [Hx _]. exact Hx.
  - destruct (indexOf x l) as [k|]; simpl.
    + destruct IH as [Hk Hdel]. split; [exact Hk|].
      intros Hnd. apply NoDup_cons in Hnd as [_ Hnd].
      apply not_elem_of_cons. split; [congruence | auto].
    + apply not_elem_of_cons. split; [congruence | exact IH].
Qed.

(** What [removeWord] leaves of one cell. *)
Lemma removeFromCell_fields (wordId : jsstring) (c : cell) :
  match indexOf wordId (wordIds c) with
  | None => removeFromCell wordId c = (c, false)
  | Some k =>
      exists c', removeFromCell wordId c = (c', true) /\
        wordIds c' = delete k (wordIds c) /\ blocked c' = blocked c /\
        (delete k (wordIds c) = [] ->
           letter c' = [] /\ number c' = None /\ directions c' = [] /\
           isStart c' = false /\ isEnd c' = false /\ isIntersection c' = false) /\
        (delete k (wordIds c) <> [] ->
           letter c' = letter c /\
           isIntersection c' = (1 <? length (delete k (wordIds c)))%nat)
  end.
Proof.
  unfold removeFromCell. destruct (indexOf wordId (wordIds c)) as [k|]; [|reflexivity].
  cbv zeta. change (wordIds (set_wordIds (delete k (wordIds c)) c)) with (delete k (wordIds c)).
  destruct (delete k (wordIds c)) as [|y ids] eqn:Hdel; simpl Nat.eqb; cbv iota.
  - eexists. split; [reflexivity|]. simpl. repeat split; congruence.
  - eexists. split; [reflexivity|]. simpl. repeat split; congruence.
Qed.

Lemma removeFromCell_test (wordId : jsstring) (c : cell) :
  (snd (removeFromCell wordId c) = true <-> wordId ∈ wordIds c) /\
  (wordId ∉ wordIds c -> fst (removeFromCell wordId c) = c).
Proof.
  pose proof (removeFromCell_fields wordId c) as Hf.
  pose proof (indexOf_spec wordId (wordIds c)) as Hi.
  destruct (indexOf wordId (wordIds c)) as [k|].
  - destruct Hf as (c' & -> & _). destruct Hi as [Hk _].
    apply list_elem_of_lookup_2 in Hk. simpl. split; [tauto | contradiction].
  - rewrite Hf. simpl. split; [|reflexivity]. split; [discriminate | contradiction].
Qed.

Lemma existsb_false {A : Type} (f : A -> bool) (l : list A) :
  existsb f l = false <-> forall x, x ∈ l -> f x = false.
Proof.
  induction l as [|y l IH]; simpl.
  - split; [intros _ x Hx; inversion Hx | reflexivity].
  - rewrite orb_false_iff, IH. split.
    + intros [Hy Hl] x Hx. apply elem_of_cons in Hx as [->|Hx]; auto.
    + intros H. split; [apply H, list_elem_of_here|].
      intros x Hx. apply H, list_elem_of_further, Hx.
Qed.

Lemma removeWord_elem (g : grid) (wordId : jsstring) (row' : list cell) (c' : cell) :
  row' ∈ fst (removeWord g wordId) -> c' ∈ row' ->
  exists row c, row ∈ g /\ c ∈ row /\ c' = fst (removeFromCell wordId c).
Proof.
  unfold removeWord. simpl. intros Hrow' Hc'.
  apply (list_elem_of_fmap (map _)) in Hrow' as (row & -> & Hrow).
  apply (list_elem_of_fmap (fun c => fst (removeFromCell wordId c))) in Hc' as (c & -> & Hc).
  eauto.
Qed.

Lemma removeWord_unused_grid (g : grid) (wordId : jsstring) :
  idUnused g wordId -> removeWord g wordId = (g, false).
Proof.
  intros Hun. unfold removeWord. f_equal.
  - rewrite <- (map_id g) at 2. apply map_ext_in. intros row Hrow.
    rewrite <- (map_id row) at 2. apply map_ext_in. intros c Hc.
    apply removeFromCell_test. apply (Hun row c); apply list_elem_of_In; assumption.
  - apply existsb_false. intros row Hrow. apply existsb_false. intros c Hc.
    destruct (removeFromCell_test wordId c) as [Htest _].
    destruct (snd (removeFromCell wordId c)); [|reflexivity].
    exfalso. apply (Hun row c Hrow Hc). apply Htest. reflexivity.
Qed.

(** X6. [removeWord] answers [false] exactly when no cell of the grid
    lists the id, and then the grid is left as it was. *)
Theorem removeWord_false_iff_unused (g : grid) (wordId : jsstring) :
  (snd (removeWord g wordId) = false <-> idUnused g wordId) /\
  (snd (removeWord g wordId) = false -> fst (removeWord g wordId) = g).
Proof.
  assert (snd (removeWord g wordId) = false -> idUnused g wordId) as Hunused.
  { unfold removeWord. simpl. intros Hfalse row c Hrow Hc Hin.
    pose proof (proj1 (existsb_false _ _) Hfalse row Hrow) as Hr.
    pose proof (proj1 (existsb_false _ _) Hr c Hc) as Hcell. simpl in Hcell.
    apply (removeFromCell_test wordId c) in Hin. congruence. }
  split; [split; [exact Hunused|]|].
  - intros Hun. rewrite (removeWord_unused_grid g wordId Hun). reflexivity.
  - intros Hfalse. rewrite (removeWord_unused_grid g wordId (Hunused Hfalse)). reflexivity.
Qed.

Lemma placeLetter_keeps_invariant (w : wordData) (k : nat) (ch : N) (c : cell) :
  cellInvariant c -> blocked c = false ->
  cellInvariant (placeLetter w k ch c).
Proof.
  intros (Hnd & Hx & Hempty & Hfull) Hfree.
  destruct (placeLetter_fields w k ch c) as (Hl & Hb & Hids & Hdirs & Hx' & _).
  cbv zeta in *. unfold cellInvariant. rewrite Hl, Hb, Hx', Hids. unfold includes.
  destruct (bool_decide_reflect (wId w ∈ wordIds c)) as [Hin|Hout].
  - split; [exact Hnd|]. split.
    + rewrite Hx. destruct (1 <? length (wordIds c))%nat; reflexivity.
    + split; [intros Hnil; rewrite Hnil in Hin; inversion Hin|].
      intros _. split; [discriminate | exact Hfree].
  - split.
    { apply NoDup_app. split; [exact Hnd|]. split; [|apply NoDup_singleton].
      intros x Hx1 Hx2. apply list_elem_of_singleton in Hx2 as ->. contradiction. }
    split.
    + rewrite Hx, length_app. simpl.
      destruct (Nat.ltb_spec 1 (length (wordIds c) + 1)) as [|Hle]; [reflexivity|].
      destruct (Nat.ltb_spec 1 (length (wordIds c))); [lia | reflexivity].
    + split; [intros Hnil; destruct (wordIds c); discriminate|].
      intros _. split; [discriminate | exact Hfree].
Qed.

Lemma removeFromCell_keeps_invariant (wordId : jsstring) (c : cell) :
  cellInvariant c ->
  cellInvariant (fst (removeFromCell wordId c)) /\
  wordId ∉ wordIds (fst (removeFromCell wordId c)).
Proof.
  intros (Hnd & Hx & Hempty & Hfull).
  pose proof (removeFromCell_fields wordId c) as Hf.
  pose proof (indexOf_spec wordId (wordIds c)) as Hi.
  destruct (indexOf wordId (wordIds c)) as [k|].
  - destruct Hf as (c' & -> & Hids & Hb & Hcleared & Hkept). destruct Hi as [Hk Hgone].
    simpl. split; [|rewrite Hids; auto].
    unfold cellInvariant. rewrite Hids, Hb.
    split; [eapply sublist_NoDup; [exact Hnd | apply sublist_delete]|].
    destruct (delete k (wordIds c)) as [|y ids] eqn:Hdel.
    + destruct (Hcleared eq_refl) as (? & ? & ? & ? & ? & ?).
      split; [assumption|]. split; [auto | intros Hne; contradiction].
    + destruct Hkept as [Hl Hx']; [discriminate|].
      split; [exact Hx'|]. split; [discriminate|]. intros _. rewrite Hl. apply Hfull.
      intros Hnil. rewrite Hnil in Hk. discriminate.
  - rewrite Hf. simpl. split; [|exact Hi]. unfold cellInvariant. auto.
Qed.

Lemma placeWord_keeps_invariant (g : grid) (w : wordData) :
  gridInvariant g -> gridInvariant (fst (placeWord g w)).
Proof.
  intros Hinv.
  destruct (canPlaceWord g (wWord w) (wStartRow w) (wStartCol w) (wDirection w))
    as [res|] eqn:Hverdict.
  2:{ unfold placeWord. rewrite Hverdict. exact Hinv. }
  destruct (canPlace res) eqn:Hcan.
  2:{ unfold placeWord. rewrite Hverdict, Hcan. exact Hinv. }
  destruct (placeWord_cells g w res Hverdict Hcan) as (g1 & -> & _ & _ & Hback).
  simpl. intros row' c' Hrow' Hc'.
  apply list_elem_of_lookup_1 in Hrow' as [a Ha]. apply list_elem_of_lookup_1 in Hc' as [b Hb].
  assert (lookup2 g1 a b = Some c') as Hl by (unfold lookup2; rewrite Ha; exact Hb).
  destruct (Hback a b c' Hl) as (c & Hc & Hcase).
  destruct (lookup2_elem _ _ _ _ Hc) as (row & Hrow & Hin).
  pose proof (Hinv row c Hrow Hin) as Hcinv.
  destruct Hcase as [->|(k & ch & _ & Hfree & _ & ->)]; [exact Hcinv|].
  apply placeLetter_keeps_invariant; assumption.
Qed.

Lemma removeWord_keeps_invariant (g : grid) (wordId : jsstring) :
  gridInvariant g ->
  gridInvariant (fst (removeWord g wordId)) /\ idUnused (fst (removeWord g wordId)) wordId.
Proof.
  intros Hinv. split; intros row' c' Hrow' Hc';
    destruct (removeWord_elem g wordId row' c' Hrow' Hc') as (row & c & Hrow & Hc & ->);
    apply removeFromCell_keeps_invariant; exact (Hinv row c Hrow Hc).
Qed.

(** X7. What a grid built by [createEmptyGrid] has is kept by [placeWord],
    whatever it answers, and by [removeWord]: no cell lists a word id twice,
    a cell's intersection flag says whether it lists two ids or more, a cell
    without ids has no letter, number, direction, start or end mark, and a
    cell with ids has a letter and is not blocked. *)
Theorem placeWord_removeWord_keep_invariant (g : grid) (w : wordData)
    (wordId : jsstring) :
  gridInvariant g ->
  gridInvariant (fst (placeWord g w)) /\ gridInvariant (fst (removeWord g wordId)).
Proof.
  intros Hinv. split; [apply placeWord_keeps_invariant, Hinv|].
  apply removeWord_keeps_invariant, Hinv.
Qed.

Lemma emptyGrid_invariant : gridInvariant Sample.emptyGrid.
Proof.
  intros row c Hrow Hc.
  unfold Sample.emptyGrid in Hrow. apply list_elem_of_In, in_map_iff in Hrow as (a & <- & _).
  apply list_elem_of_In, in_map_iff in Hc as (b & <- & _).
  unfold cellInvariant. simpl. repeat split; try reflexivity; try contradiction.
  apply NoDup_nil_2.
Qed.

Lemma catGrid_invariant : gridInvariant Sample.catGrid.
Proof. apply placeWord_keeps_invariant, emptyGrid_invariant. Qed.

Lemma placeWord_removeWord_keep_invariant_witness :
  gridInvariant (fst (placeWord Sample.emptyGrid Sample.cat)) /\
  gridInvariant (fst (removeWord Sample.emptyGrid (wId Sample.cat))).
Proof.
  apply (placeWord_removeWord_keep_invariant Sample.emptyGrid Sample.cat (wId Sample.cat)).
  apply emptyGrid_invariant.
Defined.

(** X8. On a grid where no cell lists an id twice, [removeWord] takes the
    id out of every cell, so a second call finds nothing: it answers
    [false] and changes nothing. *)
Theorem removeWord_twice (g : grid) (wordId : jsstring) :
  gridInvariant g ->
  idUnused (fst (removeWord g wordId)) wordId /\
  removeWord (fst (removeWord g wordId)) wordId = (fst (removeWord g wordId), false).
Proof.
  intros Hinv. destruct (removeWord_keeps_invariant g wordId Hinv) as [_ Hun].
  split; [exact Hun | apply removeWord_unused_grid, Hun].
Qed.

Lemma removeWord_twice_witness :
  removeWord (fst (removeWord Sample.catGrid (wId Sample.cat))) (wId Sample.cat)
  = (fst (removeWord Sample.catGrid (wId Sample.cat)), false).
Proof. apply (removeWord_twice Sample.catGrid (wId Sample.cat)), catGrid_invariant. Defined.

End RemoveFacts.

(** ** autoPlaceWords *)

Section AutoPlaceMore.

Import GridHelper GridNotions Specified.

Lemma rectangular_shape (g g' : grid) :
  map length g' = map length g -> rectangular g -> rectangular g'.
Proof.
  intros Hshape Hrect row' Hrow'.
  assert (firstRowLength g' = firstRowLength g) as ->.
  { destruct g as [|r g], g' as [|r' g']; try discriminate; [reflexivity|].
    simpl in *. injection Hshape as -> _. reflexivity. }
  apply list_elem_of_lookup_1 in Hrow' as [a Ha].
  assert (length <$> g' !! a = length <$> g !! a) as Hlen.
  { rewrite <- !list_lookup_fmap. change (length <$> g') with (map length g').
    rewrite Hshape. reflexivity. }
  rewrite Ha in Hlen. simpl in Hlen.
  destruct (g !! a) as [row|] eqn:Hrow; [|discriminate]. injection Hlen as ->.
  apply Hrect. eapply list_elem_of_lookup_2, Hrow.
Qed.

Lemma getCell_rectangular (g : grid) (row col : Z) :
  rectangular g -> isValidPosition g row col = true ->
  exists c, getCell g row col = Some c.
Proof.
  intros Hrect Hvalid. unfold getCell. rewrite Hvalid. simpl.
  unfold isValidPosition in Hvalid.
  apply andb_true_iff in Hvalid as [Hvalid Hcol]. apply andb_true_iff in Hvalid as [Hvalid Hcol0].
  apply andb_true_iff in Hvalid as [Hrow0 Hrow].
  apply Z.leb_le in Hrow0, Hcol0. apply Z.ltb_lt in Hrow, Hcol.
  unfold at_index. destruct (Z.ltb_spec row 0); [lia|].
  destruct (lookup_lt_is_Some_2 g (Z.to_nat row)) as [r Hr]; [lia|].
  rewrite Hr. simpl. destruct (Z.ltb_spec col 0); [lia|].
  apply lookup_lt_is_Some_2.
  pose proof (Hrect r (list_elem_of_lookup_2 _ _ _ Hr)). lia.
Qed.

Lemma checkLetters_returns (g : grid) (startRow startCol : Z) (direction : jsstring)
    (letters : list N) : forall i result,
  rectangular g ->
  exists r, checkLetters g startRow startCol direction i letters result = Returned r.
Proof.
  induction letters as [|ch letters IH]; intros i result Hrect; simpl; [eauto|].
  destruct (isValidPosition g (rowOf direction startRow i) (colOf direction startCol i))
    eqn:Hvalid; simpl; [|eauto].
  destruct (getCell_rectangular g _ _ Hrect Hvalid) as [c ->].
  destruct (blocked c); [eauto|]. apply IH, Hrect.
Qed.

Lemma canPlaceWord_returns (g : grid) (word : jsstring) (startRow startCol : Z)
    (direction : jsstring) :
  rectangular g -> exists res, canPlaceWord g word startRow startCol direction = Returned res.
Proof.
  intros Hrect. unfold canPlaceWord.
  destruct (length word <? 2)%nat; [eauto|].
  destruct (negb (includes direction [horizontal; vertical])); [eauto|].
  destruct (negb (isValidPosition g startRow startCol)); [eauto|].
  destruct (checkLetters_returns g startRow startCol direction word 0
              (mkVerdict false [] [] NoReason) Hrect) as [[early|res] ->]; [eauto|].
  repeat match goal with |- context [if ?b then _ else _] => destruct b end; eauto.
Qed.

Lemma placeLetter_keeps_letter (w : wordData) (k : nat) (ch ch0 : N) (c : cell)
    (wordId : jsstring) :
  letter c = [] \/ letter c = [ch] -> letter c = [ch0] -> wordId ∈ wordIds c ->
  letter (placeLetter w k ch c) = [ch0] /\ wordId ∈ wordIds (placeLetter w k ch c).
Proof.
  intros Hfree Hl Hid.
  destruct (placeLetter_fields w k ch c) as (Hl' & _ & Hids & _). cbv zeta in *.
  split.
  - rewrite Hl'. destruct Hfree as [Hnil|Hsame]; congruence.
  - rewrite Hids. destruct (includes (wId w) (wordIds c)); [exact Hid|].
    apply elem_of_app. left. exact Hid.
Qed.

(** What one call of [placeWord] does on a rectangular grid: it does not
    throw; it answers [false] and leaves the grid, or answers [true], keeps
    the shape and every word that lay on the grid, and the word lies on the
    new grid. *)
Lemma placeWord_cases (g : grid) (w : wordData) :
  rectangular g ->
  exists res,
    canPlaceWord g (wWord w) (wStartRow w) (wStartCol w) (wDirection w) = Returned res /\
    ((canPlace res = false /\ placeWord g w = (g, Returned false)) \/
     (canPlace res = true /\
      exists g1, placeWord g w = (g1, Returned true) /\
        map length g1 = map length g /\ onGrid g1 w /\
        (forall w0, onGrid g w0 -> onGrid g1 w0))).
Proof.
  intros Hrect.
  destruct (canPlaceWord_returns g (wWord w) (wStartRow w) (wStartCol w) (wDirection w) Hrect)
    as [res Hverdict].
  exists res. split; [exact Hverdict|].
  destruct (canPlace res) eqn:Hcan.
  2:{ left. split; [reflexivity|]. unfold placeWord. rewrite Hverdict, Hcan. reflexivity. }
  right. split; [reflexivity|].
  destruct (placeWord_cells g w res Hverdict Hcan) as (g1 & Hplaced & Hshape & Hfwd & Hback).
  exists g1. split; [exact Hplaced|]. split; [exact Hshape|]. split.
  - intros k ch Hk. destruct (Hfwd k ch Hk) as (c & _ & _ & _ & Hc1).
    exists (placeLetter w k ch c). split; [exact Hc1|].
    destruct (placeLetter_fields w k ch c) as (Hl & _ & Hids & _). cbv zeta in *.
    split; [exact Hl|]. rewrite Hids. unfold includes.
    destruct (bool_decide_reflect (wId w ∈ wordIds c)); [assumption|].
    apply elem_of_app. right. apply list_elem_of_here.
  - intros w0 Hon k ch0 Hk. destruct (Hon k ch0 Hk) as (c & Hc & Hl & Hid).
    destruct (lookup2_getCell _ _ _ _ Hc) as (_ & _ & Hlk).
    destruct (lookup2_same_shape g1 g _ _ c (eq_sym Hshape) Hlk) as [c' Hc'].
    exists c'. split; [eapply getCell_same_shape; eassumption|].
    destruct (Hback _ _ c' Hc') as (c0 & Hc0 & Hcase).
    assert (c0 = c) as -> by congruence.
    destruct Hcase as [->|(k' & ch & _ & _ & Hfree & ->)]; [auto|].
    apply placeLetter_keeps_letter; assumption.
Qed.

(** The loop over the candidates of one placed word. *)
Lemma tryCandidates_spec (word : wordData) (candidates : list candidate) :
  forall g, rectangular g ->
  exists g' r,
    tryCandidates g word candidates = (g', Returned r) /\
    map length g' = map length g /\
    (forall w0, onGrid g w0 -> onGrid g' w0) /\
    match r with
    | None => g' = g
    | Some newWordData =>
        onGrid g' newWordData /\ payload newWordData = payload word /\
        exists cand, cand ∈ candidates /\
          newWordData = withPlacement word (candidateRow cand) (candidateCol cand)
                          (candidateDirection cand)
    end.
Proof.
  induction candidates as [|cand candidates IH]; intros g Hrect; simpl.
  - exists g, None. auto.
  - destruct (placeWord_cases g
                (withPlacement word (candidateRow cand) (candidateCol cand)
                   (candidateDirection cand)) Hrect) as (res & Hverdict & Hcase).
    simpl in Hverdict. rewrite Hverdict.
    destruct Hcase as [[Hcan Hplaced]|(Hcan & g1 & Hplaced & Hshape & Hon & Hkeep)];
      rewrite Hcan.
    + destruct (IH g Hrect) as (g' & r & Hrun & Hshape & Hkeep & Hr).
      exists g', r. split; [exact Hrun|]. split; [exact Hshape|]. split; [exact Hkeep|].
      destruct r as [nw|]; [|exact Hr].
      destruct Hr as (? & ? & cand' & ? & ?). split; [assumption|]. split; [assumption|].
      exists cand'. split; [apply list_elem_of_further; assumption | assumption].
    + rewrite Hplaced. eexists g1, (Some _). split; [reflexivity|].
      split; [exact Hshape|]. split; [exact Hkeep|]. split; [exact Hon|].
      split; [reflexivity|]. exists cand. split; [apply list_elem_of_here | reflexivity].
Qed.

(** The loop over the words placed so far. *)
Lemma tryPlacedWords_spec (word : wordData) (placedWords : list wordData) :
  forall g, rectangular g ->
  exists g' r,
    tryPlacedWords g word placedWords = (g', Returned r) /\
    map length g' = map length g /\
    (forall w0, onGrid g w0 -> onGrid g' w0) /\
    match r with
    | None => g' = g
    | Some newWordData =>
        onGrid g' newWordData /\ payload newWordData = payload word /\
        exists placedWord cand, placedWord ∈ placedWords /\
          cand ∈ findPossibleIntersections (wWord word) placedWord /\
          newWordData = withPlacement word (candidateRow cand) (candidateCol cand)
                          (candidateDirection cand)
    end.
Proof.
  induction placedWords as [|placedWord placedWords IH]; intros g Hrect; simpl.
  - exists g, None. auto.
  - destruct (tryCandidates_spec word (findPossibleIntersections (wWord word) placedWord)
                g Hrect) as (g1 & r & -> & Hshape & Hkeep & Hr).
    destruct r as [nw|].
    + exists g1, (Some nw). split; [reflexivity|]. split; [exact Hshape|].
      split; [exact Hkeep|]. destruct Hr as (? & ? & cand & ? & ?).
      split; [assumption|]. split; [assumption|].
      exists placedWord, cand. split; [apply list_elem_of_here | auto].
    + subst g1. destruct (IH g Hrect) as (g' & r & Hrun & Hshape' & Hkeep' & Hr').
      exists g', r. split; [exact Hrun|]. split; [exact Hshape'|]. split; [exact Hkeep'|].
      destruct r as [nw|]; [|exact Hr'].
      destruct Hr' as (? & ? & pw & cand & ? & ? & ?). split; [assumption|].
      split; [assumption|]. exists pw, cand.
      split; [apply list_elem_of_further; assumption | auto].
Qed.

(** The loop over the remaining words: the words placed before stay at
    the head of the list, and every word it adds lies on the grid. *)
Lemma placeRemaining_spec (remaining : list wordData) :
  forall g placedWords, rectangular g -> Forall (onGrid g) placedWords ->
  exists g' added,
    placeRemaining g remaining placedWords = (g', Returned (placedWords ++ added)) /\
    map length g' = map length g /\
    Forall (onGrid g') (placedWords ++ added) /\
    (length added <= length remaining)%nat /\
    (forall nw, nw ∈ added ->
       exists word, word ∈ remaining /\ payload nw = payload word /\
         exists placedWord cand, placedWord ∈ placedWords ++ added /\
           cand ∈ findPossibleIntersections (wWord word) placedWord /\
           nw = withPlacement word (candidateRow cand) (candidateCol cand)
                  (candidateDirection cand)).
Proof.
  induction remaining as [|word remaining IH]; intros g placedWords Hrect Hon; simpl.
  - exists g, []. rewrite app_nil_r. split; [reflexivity|]. split; [reflexivity|].
    split; [exact Hon|]. split; [simpl; lia|]. intros nw Hnw. inversion Hnw.
  - destruct (tryPlacedWords_spec word placedWords g Hrect)
      as (g1 & r & -> & Hshape & Hkeep & Hr).
    assert (rectangular g1) as Hrect1 by (eapply rectangular_shape; eassumption).
    assert (Forall (onGrid g1) placedWords) as Hon1.
    { eapply Forall_impl; [exact Hon | exact Hkeep]. }
    destruct r as [nw|].
    + destruct Hr as (Hnw & Hpay & pw & cand & Hpw & Hcand & Heq).
      destruct (IH g1 (placedWords ++ [nw]) Hrect1) as (g' & added & Hrun & Hshape' & Hon' & Hlen & Hadded).
      { apply Forall_app. split; [exact Hon1|]. apply Forall_singleton. exact Hnw. }
      exists g', (nw :: added). rewrite <- app_assoc in Hrun, Hon', Hadded. simpl in *.
      split; [exact Hrun|]. split; [congruence|]. split; [exact Hon'|]. split; [lia|].
      intros nw' Hnw'. apply elem_of_cons in Hnw' as [->|Hnw'].
      * exists word. split; [apply list_elem_of_here|]. split; [exact Hpay|].
        exists pw, cand. split; [apply elem_of_app; left; exact Hpw | auto].
      * destruct (Hadded nw' Hnw') as (word' & ? & ? & Hrest).
        exists word'. split; [apply list_elem_of_further; assumption | auto].
    + subst g1.
      destruct (IH g placedWords Hrect Hon) as (g' & added & Hrun & Hshape' & Hon' & Hlen & Hadded).
      exists g', added. split; [exact Hrun|]. split; [exact Hshape'|]. split; [exact Hon'|].
      split; [lia|]. intros nw' Hnw'.
      destruct (Hadded nw' Hnw') as (word' & ? & ? & Hrest).
      exists word'. split; [apply list_elem_of_further; assumption | auto].
Qed.

(** The whole call on a rectangular grid with a first row, the sorted
    array being [first :: others]. *)
Lemma autoPlaceWords_run (g : grid) (words : list wordData) (first : wordData)
    (others : list wordData) :
  g <> [] -> rectangular g ->
  jsSort byLengthDescending words = first :: others ->
  let first' :=
    withPlacement first (Z.of_nat (length g) / 2)
      ((firstRowLength g - Z.of_nat (length (wWord first))) / 2) horizontal in
  exists res added,
    canPlaceWord g (wWord first') (wStartRow first') (wStartCol first') horizontal
      = Returned res /\
    placedResult (autoPlaceWords g words)
      = Returned ((if canPlace res then [first'] else []) ++ added) /\
    map length (gridAfter (autoPlaceWords g words)) = map length g /\
    Forall (onGrid (gridAfter (autoPlaceWords g words)))
      ((if canPlace res then [first'] else []) ++ added) /\
    (length added <= length others)%nat /\
    (forall nw, nw ∈ added ->
       exists word, word ∈ others /\ payload nw = payload word /\
         exists placedWord cand,
           placedWord ∈ (if canPlace res then [first'] else []) ++ added /\
           cand ∈ findPossibleIntersections (wWord word) placedWord /\
           nw = withPlacement word (candidateRow cand) (candidateCol cand)
                  (candidateDirection cand)).
Proof.
  intros Hne Hrect Hsorted first'. unfold autoPlaceWords. rewrite Hsorted.
  destruct g as [|row0 g']; [contradiction|]. cbv zeta.
  change (Z.of_nat (length row0)) with (firstRowLength (row0 :: g')).
  fold first'. set (g := row0 :: g') in *.
  destruct (placeWord_cases g first' Hrect) as (res & Hverdict & Hcase).
  exists res.
  destruct Hcase as [[Hcan Hplaced]|(Hcan & g1 & Hplaced & Hshape & Hon & Hkeep)];
    rewrite Hplaced, Hcan.
  - destruct (placeRemaining_spec others g [] Hrect (Forall_nil_2 _))
      as (g2 & added & Hrun & Hshape & Hon & Hlen & Hadded).
    rewrite Hrun. exists added. simpl. auto 10.
  - destruct (placeRemaining_spec others g1 [first'] (rectangular_shape _ _ Hshape Hrect))
      as (g2 & added & Hrun & Hshape' & Hon' & Hlen & Hadded).
    { apply Forall_singleton, Hon. }
    rewrite Hrun. exists added. simpl. split; [exact Hverdict|]. split; [reflexivity|].
    split; [etransitivity; [exact Hshape' | exact Hshape]|]. auto.
Qed.

(** X9. On a rectangular grid with at least one row [autoPlaceWords]
    does not throw: it returns at most as many words as it was given and
    leaves the grid with the shape it had. Given words and a grid without
    rows, it throws. *)
Theorem autoPlaceWords_returns (g : grid) (words : list wordData) :
  (g <> [] -> rectangular g ->
   exists placed,
     placedResult (autoPlaceWords g words) = Returned placed /\
     (length placed <= length words)%nat /\
     map length (gridAfter (autoPlaceWords g words)) = map length g) /\
  (g = [] -> words <> [] -> placedResult (autoPlaceWords g words) = Thrown).
Proof.
  split.
  - intros Hne Hrect.
    destruct (jsSort byLengthDescending words) as [|first others] eqn:Hsorted.
    + unfold autoPlaceWords. rewrite Hsorted. simpl. exists []. simpl.
      split; [reflexivity|]. split; [lia | reflexivity].
    + destruct (autoPlaceWords_run g words first others Hne Hrect Hsorted)
        as (res & added & _ & Hres & Hshape & _ & Hlen & _).
      eexists. split; [exact Hres|]. split; [|exact Hshape].
      rewrite <- (Permutation_length (jsSort_perm byLengthDescending words)), Hsorted.
      rewrite length_app. simpl. destruct (canPlace res); simpl; lia.
  - intros -> Hwords. unfold autoPlaceWords.
    destruct (jsSort byLengthDescending words) as [|first others] eqn:Hsorted; [|reflexivity].
    pose proof (Permutation_length (jsSort_perm byLengthDescending words)) as Hlen.
    rewrite Hsorted in Hlen. destruct words; [contradiction | discriminate].
Qed.

Lemma autoPlaceWords_returns_witness :
  exists placed,
    placedResult (autoPlaceWords Sample.emptyGrid [Sample.car; Sample.cat]) = Returned placed /\
    (length placed <= 2)%nat.
Proof.
  destruct (proj1 (autoPlaceWords_returns Sample.emptyGrid [Sample.car; Sample.cat]))
    as (placed & Hres & Hlen & _).
  - discriminate.
  - intros row Hrow. repeat (apply elem_of_cons in Hrow as [->|Hrow]; [reflexivity|]).
    inversion Hrow.
  - exists placed. auto.
Defined.

(** X10. Every word [autoPlaceWords] returns lies on the grid it leaves:
    each letter is in its cell, which lists the word's id. The word is one
    of the caller's, with only its placement changed, and it is either the
    first of the sorted array, laid horizontally, or laid at one of the
    candidate intersections with a returned word. *)
Theorem autoPlaceWords_words_on_grid (g : grid) (words placed : list wordData) :
  g <> [] -> rectangular g ->
  placedResult (autoPlaceWords g words) = Returned placed ->
  forall w, w ∈ placed ->
    onGrid (gridAfter (autoPlaceWords g words)) w /\
    payload w ∈ map payload words /\
    ((exists first others row col,
        jsSort byLengthDescending words = first :: others /\
        w = withPlacement first row col horizontal) \/
     (exists word placedWord cand,
        word ∈ words /\ placedWord ∈ placed /\
        cand ∈ findPossibleIntersections (wWord word) placedWord /\
        w = withPlacement word (candidateRow cand) (candidateCol cand)
              (candidateDirection cand))).
Proof.
  intros Hne Hrect Hres w Hw.
  destruct (jsSort byLengthDescending words) as [|first others] eqn:Hsorted.
  { unfold autoPlaceWords in Hres. rewrite Hsorted in Hres. simpl in Hres.
    injection Hres as <-. inversion Hw. }
  pose proof (jsSort_perm byLengthDescending words) as Hperm. rewrite Hsorted in Hperm.
  destruct (autoPlaceWords_run g words first others Hne Hrect Hsorted)
    as (res & added & _ & Hres' & _ & Hon & _ & Hadded).
  rewrite Hres in Hres'. injection Hres' as ->.
  split; [exact (proj1 (Forall_forall _ _) Hon w Hw)|].
  apply elem_of_app in Hw as [Hw|Hw].
  - destruct (canPlace res); [|inversion Hw]. apply list_elem_of_singleton in Hw as ->.
    split.
    + change (payload (withPlacement first _ _ horizontal)) with (payload first).
      apply list_elem_of_In, in_map, list_elem_of_In. rewrite <- Hperm. apply list_elem_of_here.
    + left. eauto 6.
  - destruct (Hadded w Hw) as (word & Hword & Hpay & pw & cand & Hpw & Hcand & Heq).
    assert (word ∈ words) as Hin by (rewrite <- Hperm; apply list_elem_of_further, Hword).
    split.
    + rewrite Hpay. apply list_elem_of_In, in_map, list_elem_of_In, Hin.
    + right. exists word, pw, cand. auto.
Qed.

Lemma autoPlaceWords_words_on_grid_witness :
  onGrid (gridAfter (autoPlaceWords Sample.emptyGrid [Sample.car; Sample.cat]))
    (withPlacement Sample.cat 2 1 vertical).
Proof.
  apply (autoPlaceWords_words_on_grid Sample.emptyGrid [Sample.car; Sample.cat]
           [withPlacement Sample.car 2 1 horizontal; withPlacement Sample.cat 2 1 vertical]).
  - discriminate.
  - intros row Hrow. repeat (apply elem_of_cons in Hrow as [->|Hrow]; [reflexivity|]).
    inversion Hrow.
  - vm_compute. reflexivity.
  - apply list_elem_of_further, list_elem_of_here.
Defined.

End AutoPlaceMore.

Section AutoPlaceFirstWord.

Import GridHelper GridNotions Specified.

(** X11. On a grid fresh from [createEmptyGrid], the longest word, if it
    has at least two letters and is no longer than the grid is wide, is
    always placed: horizontally, in the middle row, centred (one cell to
    the left when the margin is odd), and it is the first word returned. *)
Theorem autoPlaceWords_first_word_centred (width height : Z) (words : list wordData)
    (first : wordData) (others : list wordData) :
  isValidSize width height = true ->
  jsSort byLengthDescending words = first :: others ->
  (2 <= length (wWord first))%nat ->
  Z.of_nat (length (wWord first)) <= width ->
  exists rest,
    placedResult (autoPlaceWords (emptyRows width height) words)
    = Returned (withPlacement first (height / 2)
                  ((width - Z.of_nat (length (wWord first))) / 2) horizontal :: rest).
Proof.
  intros Hsize Hsorted Hmin Hmax.
  destruct (emptyRows_facts width height Hsize)
    as (_ & Hheight & Hwidth & Hrect & Hin & _ & Hwords & _).
  assert (5 <= width /\ 5 <= height) as [Hw Hh].
  { unfold isValidSize, minSize in Hsize.
    apply andb_true_iff in Hsize as [Hsize _]. apply andb_true_iff in Hsize as [Hsize H3].
    apply andb_true_iff in Hsize as [H1 _]. apply Z.leb_le in H1, H3. lia. }
  assert (emptyRows width height <> []) as Hne.
  { intros Hnil. rewrite Hnil in Hheight. simpl in Hheight. lia. }
  destruct (autoPlaceWords_run _ words first others Hne Hrect Hsorted)
    as (res & added & Hverdict & Hres & _).
  rewrite Hheight, Hwidth in Hverdict, Hres. simpl in Hverdict.
  set (row := height / 2) in *.
  set (col := (width - Z.of_nat (length (wWord first))) / 2) in *.
  assert (0 <= row < height) as Hrow by (subst row; split; [apply Z.div_pos | apply Z.div_lt_upper_bound]; lia).
  assert (0 <= col /\ col + Z.of_nat (length (wWord first)) <= width) as [Hcol0 Hcol].
  { subst col. split; [apply Z.div_pos; lia|].
    pose proof (Z.mul_div_le (width - Z.of_nat (length (wWord first))) 2). lia. }
  destruct (passes_reaches_isolation_check (emptyRows width height) (wWord first)
              row col horizontal) as (res' & _ & Hverdict' & _).
  { split; [exact Hmin|]. split; [apply list_elem_of_here|].
    assert (forall i ch, wWord first !! i = Some ch ->
              spanCell (emptyRows width height) row col horizontal i
              = Some (createEmptyCell row (col + Z.of_nat i))) as Hcells.
    { intros i ch Hi. apply lookup_lt_Some in Hi. unfold spanCell, rowOf, colOf. simpl.
      apply Hin; lia. }
    split.
    - intros i ch Hi. rewrite (Hcells i ch Hi). eexists. split; [reflexivity|]. simpl. auto.
    - destruct (wWord first) as [|ch0 rest] eqn:Hword; [simpl in Hmin; lia|].
      exists O, ch0. eexists. split; [reflexivity|].
      split; [apply (Hcells O ch0 eq_refl) | discriminate]. }
  rewrite Hwords in Hverdict'. simpl in Hverdict'.
  rewrite Hverdict' in Hverdict. injection Hverdict as <-. simpl in Hres.
  exists added. exact Hres.
Qed.

Lemma autoPlaceWords_first_word_centred_witness :
  exists rest,
    placedResult (autoPlaceWords (emptyRows 6 5) [Sample.cat; Sample.tiger])
    = Returned (withPlacement Sample.tiger 2 0 horizontal :: rest).
Proof.
  apply (autoPlaceWords_first_word_centred 6 5 [Sample.cat; Sample.tiger]
           Sample.tiger [Sample.cat]).
  - reflexivity.
  - vm_compute. reflexivity.
  - simpl. lia.
  - simpl. lia.
Defined.

Lemma placeRemaining_nothing_placed (remaining : list wordData) (g : grid) :
  placeRemaining g remaining [] = (g, Returned []).
Proof. induction remaining as [|word remaining IH]; simpl; [reflexivity | exact IH]. Qed.

(** X12. The other words are only tried against words already placed:
    when the placement of the first word of the sorted array is refused,
    [autoPlaceWords] places nothing, returns the empty array and leaves
    the grid as it was. *)
Theorem autoPlaceWords_nothing_without_first (g : grid) (words : list wordData)
    (first : wordData) (others : list wordData) (res : verdict) :
  g <> [] ->
  jsSort byLengthDescending words = first :: others ->
  canPlaceWord g (wWord first) (Z.of_nat (length g) / 2)
    ((firstRowLength g - Z.of_nat (length (wWord first))) / 2) horizontal = Returned res ->
  canPlace res = false ->
  placedResult (autoPlaceWords g words) = Returned [] /\
  gridAfter (autoPlaceWords g words) = g.
Proof.
  intros Hne Hsorted Hverdict Hcan. unfold autoPlaceWords. rewrite Hsorted.
  destruct g as [|row0 g']; [contradiction|]. cbv zeta.
  change (Z.of_nat (length row0)) with (firstRowLength (row0 :: g')).
  set (g := row0 :: g') in *.
  set (first' := withPlacement first _ _ horizontal).
  assert (placeWord g first' = (g, Returned false)) as ->.
  { unfold placeWord, first'. cbn [withPlacement wWord wStartRow wStartCol wDirection].
    rewrite Hverdict, Hcan. reflexivity. }
  rewrite placeRemaining_nothing_placed. split; reflexivity.
Qed.

Lemma autoPlaceWords_nothing_without_first_witness :
  placedResult (autoPlaceWords Sample.emptyGrid
                  [Sample.cat; withPlacement Sample.tiger 0 0 horizontal;
                   mkWord (js "word_5") (js "PUZZLE") (js "A game") [] 0 0 None (Fin 0)])
  = Returned [].
Proof.
  refine (proj1 (autoPlaceWords_nothing_without_first Sample.emptyGrid _
           (mkWord (js "word_5") (js "PUZZLE") (js "A game") [] 0 0 None (Fin 0))
           [withPlacement Sample.tiger 0 0 horizontal; Sample.cat]
           (mkVerdict false [] [] StartOutsideGrid) _ _ _ _)).
  - discriminate.
  - vm_compute. reflexivity.
  - vm_compute. reflexivity.
  - reflexivity.
Defined.

End AutoPlaceFirstWord.

Section IntersectionFacts.

Import GridHelper GridNotions Specified.

Ltac decide_directions :=
  rewrite ?(bool_decide_eq_true_2 (horizontal = horizontal)),
    ?(bool_decide_eq_true_2 (vertical = vertical)),
    ?(bool_decide_eq_false_2 (horizontal = vertical)),
    ?(bool_decide_eq_false_2 (vertical = horizontal)) in * by (reflexivity || discriminate).

Lemma elem_of_concat_imap {A B : Type} (f : nat -> A -> list B) (l : list A) (y : B) :
  y ∈ concat (imap f l) <-> exists i x, l !! i = Some x /\ y ∈ f i x.
Proof.
  rewrite list_elem_of_In, in_concat. split.
  - intros (ys & Hys & Hy). apply list_elem_of_In, elem_of_lookup_imap in Hys
      as (i & x & -> & Hx).
    exists i, x. split; [exact Hx | apply list_elem_of_In, Hy].
  - intros (i & x & Hx & Hy). exists (f i x).
    split; [|apply list_elem_of_In, Hy].
    apply list_elem_of_In, elem_of_lookup_imap. eauto.
Qed.

Lemma list_prod_NoDup {A B : Type} (l : list A) (l' : list B) :
  NoDup l -> NoDup l' -> NoDup (list_prod l l').
Proof.
  intros Hl Hl'. induction Hl as [|x l Hx Hl IH]; [constructor|].
  simpl. apply NoDup_app. split; [|split; [|exact IH]].
  - apply (NoDup_fmap_2 (pair x)). exact Hl'.
  - intros [a b] Hin Hin'. apply list_elem_of_fmap in Hin as (y & [= -> ->] & _).
    apply list_elem_of_In, in_prod_iff in Hin' as [Hin' _].
    apply Hx. apply list_elem_of_In. exact Hin'.
Qed.

(** The crossings of one letter of the new word with the letters of the
    placed word, from its index [k] on. *)
Lemma crossings_of_letter (a : N) (i : nat) (mk : nat -> candidate) (full : jsstring) :
  (forall j, intersectionPos (mk j) = (i, j)) ->
  forall (w : jsstring) (k : nat),
    (forall j, w !! j = full !! (k + j)%nat) ->
    map intersectionPos
      (concat (imap (fun j b => if bool_decide (a = b) then [mk (k + j)%nat] else []) w))
    = List.filter (fun p => bool_decide (Some a = full !! snd p))
        (map (pair i) (seq k (length w))).
Proof.
  intros Hmk. induction w as [|b w IH]; intros k Hfull; [reflexivity|].
  rewrite imap_cons. cbn [concat length seq map List.filter snd].
  rewrite map_app. pose proof (Hfull O) as H0. rewrite Nat.add_0_r in H0. simpl in H0.
  rewrite <- H0.
  assert (map intersectionPos
            (concat (imap ((fun j b => if bool_decide (a = b) then [mk (k + j)%nat] else [])
                           ∘ S) w))
          = List.filter (fun p => bool_decide (Some a = full !! snd p))
              (map (pair i) (seq (S k) (length w)))) as Htail.
  { rewrite <- (IH (S k));
      [|intros j; pose proof (Hfull (S j)) as Hj; simpl in Hj; rewrite Hj; f_equal; lia].
    do 2 f_equal. apply imap_ext. intros j b' _. simpl.
    replace (k + S j)%nat with (S (k + j)) by lia. reflexivity. }
  rewrite Htail.
  destruct (bool_decide_reflect (a = b)) as [->|Hne].
  - rewrite bool_decide_eq_true_2 by reflexivity. simpl. rewrite Hmk, Nat.add_0_r.
    reflexivity.
  - rewrite bool_decide_eq_false_2 by congruence. reflexivity.
Qed.

Lemma crossings_of_word (mk : nat -> N -> nat -> candidate) (word2 full : jsstring) :
  (forall i a j, intersectionPos (mk i a j) = (i, j)) ->
  forall (w : jsstring) (k : nat),
    (forall i, w !! i = full !! (k + i)%nat) ->
    map intersectionPos
      (concat (imap (fun i a =>
         concat (imap (fun j b => if bool_decide (a = b) then [mk (k + i)%nat a j] else [])
                   word2)) w))
    = List.filter (fun p => bool_decide (full !! fst p = word2 !! snd p))
        (list_prod (seq k (length w)) (seq 0 (length word2))).
Proof.
  intros Hmk. induction w as [|a w IH]; intros k Hfull; [reflexivity|].
  rewrite imap_cons. cbn [concat length seq list_prod].
  rewrite map_app, List.filter_app.
  pose proof (Hfull O) as H0. rewrite Nat.add_0_r in H0. simpl in H0.
  f_equal.
  - rewrite Nat.add_0_r.
    etransitivity;
      [exact (crossings_of_letter a k (mk k a) word2 (Hmk k a) word2 O
                (fun j => eq_refl))|].
    apply filter_ext_in. intros [i j] Hin.
    apply in_map_iff in Hin as (j' & [= <- <-] & _).
    cbn [fst snd]. rewrite <- H0. reflexivity.
  - rewrite <- (IH (S k));
      [|intros i; pose proof (Hfull (S i)) as Hi; simpl in Hi; rewrite Hi; f_equal; lia].
    do 2 f_equal. apply imap_ext. intros i a' _. simpl.
    replace (k + S i)%nat with (S (k + i)) by lia. reflexivity.
Qed.

(** X13. The candidates [findPossibleIntersections] lists for a new word
    against a placed horizontal or vertical word are, exactly, one for
    each pair of a letter of the new word and an equal letter of the placed
    word, in the order of the letters of the new word and then of the
    placed word: the positions of the candidates are these pairs, each
    once, and a candidate is in the list exactly when it runs in the other
    direction and starts where the new word's letter comes to lie on the
    cell of the placed word's letter. *)
Theorem findPossibleIntersections_crossings (newWord : jsstring) (existingWord : wordData) :
  wDirection existingWord ∈ [horizontal; vertical] ->
  map intersectionPos (findPossibleIntersections newWord existingWord)
    = equalLetterPairs newWord (wWord existingWord) /\
  NoDup (map intersectionPos (findPossibleIntersections newWord existingWord)) /\
  forall cand : candidate,
    cand ∈ findPossibleIntersections newWord existingWord <->
    exists i j a,
      newWord !! i = Some a /\ wWord existingWord !! j = Some a /\
      intersectionPos cand = (i, j) /\ intersectionLetter cand = [a] /\
      candidateDirection cand ∈ [horizontal; vertical] /\
      candidateDirection cand <> wDirection existingWord /\
      rowOf (candidateDirection cand) (candidateRow cand) i
        = rowOf (wDirection existingWord) (wStartRow existingWord) j /\
      colOf (candidateDirection cand) (candidateCol cand) i
        = colOf (wDirection existingWord) (wStartCol existingWord) j.
Proof.
  intros Hdir.
  assert (map intersectionPos (findPossibleIntersections newWord existingWord)
          = equalLetterPairs newWord (wWord existingWord)) as Hpairs.
  { unfold findPossibleIntersections, equalLetterPairs. cbv zeta.
    apply (crossings_of_word
             (fun i a j =>
                mkCandidate
                  (if bool_decide (wDirection existingWord = horizontal)
                   then wStartRow existingWord - Z.of_nat i
                   else wStartRow existingWord + Z.of_nat j)
                  (if bool_decide (wDirection existingWord = horizontal)
                   then wStartCol existingWord + Z.of_nat j
                   else wStartCol existingWord - Z.of_nat i)
                  (if bool_decide (wDirection existingWord = horizontal) then vertical
                   else horizontal)
                  [a] (i, j))
             (wWord existingWord) newWord (fun _ _ _ => eq_refl) newWord O).
    intros i. reflexivity. }
  split; [exact Hpairs|]. split.
  { rewrite Hpairs. unfold equalLetterPairs. apply NoDup_ListNoDup, List.NoDup_filter.
    apply NoDup_ListNoDup, list_prod_NoDup; apply NoDup_ListNoDup, List.seq_NoDup. }
  intros cand. unfold findPossibleIntersections. rewrite elem_of_concat_imap.
  assert (horizontal <> vertical) as Hhv by discriminate.
  split.
  - intros (i & a & Hi & Hcand). apply elem_of_concat_imap in Hcand as (j & b & Hj & Hcand).
    destruct (bool_decide_reflect (a = b)) as [<-|]; [|inversion Hcand].
    cbv zeta in Hcand. apply list_elem_of_singleton in Hcand as ->.
    exists i, j, a. cbn [intersectionPos intersectionLetter candidateDirection
                         candidateRow candidateCol].
    split; [exact Hi|]. split; [exact Hj|]. split; [reflexivity|]. split; [reflexivity|].
    apply elem_of_cons in Hdir as [Hd|Hd];
      [|apply list_elem_of_singleton in Hd]; rewrite Hd; unfold rowOf, colOf.
    + decide_directions.
      split; [apply list_elem_of_further, list_elem_of_here|].
      split; [congruence|]. split; lia.
    + decide_directions.
      split; [apply list_elem_of_here|]. split; [congruence|]. split; lia.
  - intros (i & j & a & Hi & Hj & Hpos & Hletter & Hcd & Hperp & Hrow & Hcol).
    exists i, a. split; [exact Hi|]. apply elem_of_concat_imap.
    exists j, a. split; [exact Hj|].
    rewrite bool_decide_eq_true_2 by reflexivity. cbv zeta. apply list_elem_of_singleton.
    destruct cand as [cr cc cd cl cp]. simpl in *. subst cl cp.
    apply elem_of_cons in Hdir as [Hd|Hd];
      [|apply list_elem_of_singleton in Hd]; rewrite Hd in *;
      (apply elem_of_cons in Hcd as [Hc|Hc];
        [|apply list_elem_of_singleton in Hc]); subst cd; try contradiction;
      unfold rowOf, colOf in Hrow, Hcol.
    + decide_directions. f_equal; lia.
    + decide_directions. f_equal; lia.
Qed.

Lemma findPossibleIntersections_crossings_witness :
  map intersectionPos (findPossibleIntersections (js "CAR") Sample.cat)
    = [(0, 0); (1, 1)]%nat /\
  mkCandidate 2 2 vertical (js "C") (O, O)
    ∈ findPossibleIntersections (js "CAR") Sample.cat.
Proof.
  destruct (findPossibleIntersections_crossings (js "CAR") Sample.cat)
    as (Hpairs & _ & Hcand).
  - apply list_elem_of_here.
  - split; [rewrite Hpairs; reflexivity|].
    apply Hcand. exists O, O, 67%N. simpl. repeat split; try reflexivity.
    + apply list_elem_of_further, list_elem_of_here.
    + discriminate.
Defined.

End IntersectionFacts.

(** ** clearGrid *)

Section ClearFacts.

Import GridHelper GridTools GridNotions Specified.

(** X14. [clearGrid] takes the letters away and nothing else of a
    placement: on a grid as the mutators keep it, every cell is left
    without a letter but with its word ids, number and directions, so
    [hasWordsOnGrid] answers [false] for a grid whose cells still list
    words. With [keepAnswers] the letter of each cell that is not blocked
    is saved as its [gameValue]. *)
Theorem clearGrid_hides_words (g : grid) (keepAnswers : bool) :
  gridInvariant g ->
  hasWordsOnGrid (clearGrid g keepAnswers) = false /\
  map length (clearGrid g keepAnswers) = map length g /\
  forall a b c, lookup2 g a b = Some c ->
    exists c', lookup2 (clearGrid g keepAnswers) a b = Some c' /\
      letter c' = [] /\ wordIds c' = wordIds c /\ number c' = number c /\
      directions c' = directions c /\ blocked c' = blocked c /\
      isStart c' = isStart c /\ isEnd c' = isEnd c /\
      isIntersection c' = isIntersection c /\
      (blocked c = false ->
       gameValue c' = (if keepAnswers then Some (letter c) else gameValue c) /\
       userInput c' = [] /\ isCorrect c' = None /\
       highlighted c' = false /\ selected c' = false).
Proof.
  intros Hinv.
  assert (forall row c, row ∈ g -> c ∈ row -> letter (clearCell keepAnswers c) = []) as Hletter.
  { intros row c Hrow Hc. unfold clearCell. destruct (blocked c) eqn:Hb; [|reflexivity].
    destruct (Hinv row c Hrow Hc) as (_ & _ & Hempty & Hfull).
    destruct (wordIds c) as [|y ids] eqn:Hids; [apply Hempty; reflexivity|].
    assert (y :: ids <> []) as Hne by discriminate.
    destruct (Hfull Hne) as [_ Hfree]. congruence. }
  split; [|split].
  - unfold hasWordsOnGrid, clearGrid. apply existsb_false. intros row' Hrow'.
    apply (list_elem_of_fmap (map _)) in Hrow' as (row & -> & Hrow).
    apply existsb_false. intros c' Hc'.
    apply (list_elem_of_fmap (clearCell keepAnswers)) in Hc' as (c & -> & Hc).
    rewrite (Hletter row c Hrow Hc). reflexivity.
  - unfold clearGrid. rewrite map_map. apply map_ext. intros row. apply length_map.
  - intros a b c Hc. unfold clearGrid. rewrite lookup2_map, Hc. simpl.
    exists (clearCell keepAnswers c). split; [reflexivity|].
    destruct (lookup2_elem _ _ _ _ Hc) as (row & Hrow & Hin).
    split; [exact (Hletter row c Hrow Hin)|].
    unfold clearCell. destruct (blocked c) eqn:Hb; simpl;
      repeat split; try reflexivity; congruence.
Qed.

Lemma clearGrid_hides_words_witness :
  hasWordsOnGrid Sample.catGrid = true /\
  hasWordsOnGrid (clearGrid Sample.catGrid true) = false.
Proof.
  split; [vm_compute; reflexivity|].
  apply (clearGrid_hides_words Sample.catGrid true), catGrid_invariant.
Defined.

(** X15. The answers [clearGrid] saves with [keepAnswers] do not survive
    a second such call: it saves the letters again, which the first call
    has emptied, so every cell that is not blocked ends with an empty
    [gameValue]. *)
Theorem clearGrid_twice_loses_answers (g : grid) (a b : nat) (c : cell) :
  lookup2 g a b = Some c -> blocked c = false ->
  (exists c1, lookup2 (clearGrid g true) a b = Some c1 /\ gameValue c1 = Some (letter c)) /\
  (exists c2, lookup2 (clearGrid (clearGrid g true) true) a b = Some c2 /\
              gameValue c2 = Some []).
Proof.
  intros Hc Hfree. unfold clearGrid. rewrite !lookup2_map, Hc. simpl.
  unfold clearCell. rewrite Hfree. simpl. rewrite ?Hfree. simpl.
  split; eexists; split; reflexivity.
Qed.

Lemma clearGrid_twice_loses_answers_witness :
  (gameValue <$> lookup2 (clearGrid Sample.catGrid true) 2 2) = Some (Some (js "C")) /\
  (gameValue <$> lookup2 (clearGrid (clearGrid Sample.catGrid true) true) 2 2)
  = Some (Some []).
Proof.
  destruct (clearGrid_twice_loses_answers Sample.catGrid 2 2
              (placeLetter Sample.cat 0 67%N (createEmptyCell 2 2)))
    as [(c1 & H1 & G1) (c2 & H2 & G2)].
  - vm_compute. reflexivity.
  - reflexivity.
  - rewrite H1, H2. simpl. rewrite G1, G2. split; reflexivity.
Defined.

End ClearFacts.

(** ** validateSingleWord and quickValidate *)

Section SingleWordFacts.

Import GridHelper GridValidator GridChecks GridNotions Specified.

Variable g : grid.
Variable w : wordData.

Local Abbreviation cellAt k :=
  (spanCell g (wStartRow w) (wStartCol w) (wDirection w) k).

Local Abbreviation positionAt k :=
  (isValidPosition g (rowOf (wDirection w) (wStartRow w) k)
     (colOf (wDirection w) (wStartCol w) k)).

Lemma spanCell_at_index (k : nat) :
  positionAt k = true ->
  cellAt k =
  (r ← at_index g (rowOf (wDirection w) (wStartRow w) k);
   at_index r (colOf (wDirection w) (wStartCol w) k)).
Proof. intros Hvalid. unfold spanCell, getCell. rewrite Hvalid. reflexivity. Qed.

Lemma conflict_test (l : jsstring) (ch : N) :
  truthy l && negb (bool_decide (l = [ch])) = false <-> l = [] \/ l = [ch].
Proof.
  destruct l as [|x l]; simpl; [tauto|].
  destruct (bool_decide_reflect (x :: l = [ch])) as [->|Hne]; simpl.
  - tauto.
  - split; [discriminate|]. intros [H|H]; [discriminate | contradiction].
Qed.

(** The loop of [validateSingleWord]: it only ever turns a valid result
    invalid, with an error pushed, and it does so at each cell of the grid
    that is blocked or holds another letter. *)
Lemma checkWordCells_spec (letters : list N) : forall (i : nat) (result v : wordVerdict),
  checkWordCells g w i letters result = Returned v ->
  (wordIsValid result = true <-> wordErrors result = []) ->
  (wordIsValid v = true <-> wordErrors v = []) /\
  (wordIsValid v = true ->
   v = result /\
   forall k ch, letters !! k = Some ch -> positionAt (i + k) = true ->
     exists c, cellAt (i + k) = Some c /\ blocked c = false /\
               (letter c = [] \/ letter c = [ch])).
Proof.
  induction letters as [|ch letters IH]; intros i result v Hrun Hinv; simpl in Hrun.
  - injection Hrun as <-. split; [exact Hinv|]. intros _. split; [reflexivity|].
    intros k ch Hk. discriminate.
  - change ((0 <=? rowOf (wDirection w) (wStartRow w) i)
            && (rowOf (wDirection w) (wStartRow w) i <? heightOf g)
            && (0 <=? colOf (wDirection w) (wStartCol w) i)
            && (colOf (wDirection w) (wStartCol w) i <? widthOf g))
      with (positionAt i) in Hrun.
    assert (forall result',
              checkWordCells g w (S i) letters result' = Returned v ->
              (wordIsValid result' = true <-> wordErrors result' = []) ->
              (wordIsValid v = true <-> wordErrors v = []) /\
              (wordIsValid v = true ->
               v = result' /\
               forall k ch', letters !! k = Some ch' -> positionAt (i + S k) = true ->
                 exists c, cellAt (i + S k) = Some c /\ blocked c = false /\
                           (letter c = [] \/ letter c = [ch']))) as Hrest.
    { intros result' Hrun' Hinv'. destruct (IH (S i) result' v Hrun' Hinv') as [H1 H2].
      split; [exact H1|]. intros Hv. destruct (H2 Hv) as [-> Hcells].
      split; [reflexivity|]. intros k ch' Hk.
      replace (i + S k)%nat with (S i + k)%nat by lia. apply Hcells, Hk. }
    assert (forall errs x, (false = true <-> errs ++ [x] = ([] : list finding))) as Hbad.
    { intros errs x. split; [discriminate|]. intros H. destruct errs; discriminate. }
    destruct (positionAt i) eqn:Hvalid.
    + rewrite <- (spanCell_at_index i Hvalid) in Hrun.
      destruct (cellAt i) as [c|] eqn:Hc; [|discriminate]. cbv zeta in Hrun.
      destruct (blocked c) eqn:Hb.
      * match type of Hrun with checkWordCells _ _ _ _ ?r = _ =>
          destruct (Hrest r Hrun) as [H1 H2] end.
        { destruct (truthy (letter c) && negb (bool_decide (letter c = [ch]))); apply Hbad. }
        split; [exact H1|]. intros Hv. destruct (H2 Hv) as [-> _]. exfalso.
        destruct (truthy (letter c) && negb (bool_decide (letter c = [ch])));
          simpl in Hv; discriminate.
      * destruct (truthy (letter c) && negb (bool_decide (letter c = [ch]))) eqn:Hconflict.
        -- destruct (Hrest _ Hrun (Hbad _ _)) as [H1 H2].
           split; [exact H1|]. intros Hv. destruct (H2 Hv) as [-> _]. discriminate.
        -- destruct (Hrest _ Hrun Hinv) as [H1 H2].
           split; [exact H1|]. intros Hv. destruct (H2 Hv) as [-> Hcells].
           split; [reflexivity|]. intros [|k] ch' Hk Hpos.
           ++ injection Hk as <-. rewrite Nat.add_0_r. exists c.
              split; [exact Hc|]. split; [exact Hb|]. apply conflict_test, Hconflict.
           ++ apply (Hcells k ch' Hk Hpos).
    + destruct (Hrest _ Hrun Hinv) as [H1 H2].
      split; [exact H1|]. intros Hv. destruct (H2 Hv) as [-> Hcells].
      split; [reflexivity|]. intros [|k] ch' Hk Hpos.
      * rewrite Nat.add_0_r in Hpos. congruence.
      * apply (Hcells k ch' Hk Hpos).
Qed.

Lemma checkWordCells_clean (letters : list N) : forall (i : nat) (result : wordVerdict),
  (forall k ch, letters !! k = Some ch ->
     exists c, cellAt (i + k) = Some c /\ blocked c = false /\
               (letter c = [] \/ letter c = [ch])) ->
  checkWordCells g w i letters result = Returned result.
Proof.
  induction letters as [|ch letters IH]; intros i result Hcells; simpl; [reflexivity|].
  destruct (Hcells O ch eq_refl) as (c & Hc & Hb & Hl). rewrite Nat.add_0_r in Hc.
  pose proof (getCell_valid _ _ _ _ Hc) as Hvalid.
  change ((0 <=? rowOf (wDirection w) (wStartRow w) i)
          && (rowOf (wDirection w) (wStartRow w) i <? heightOf g)
          && (0 <=? colOf (wDirection w) (wStartCol w) i)
          && (colOf (wDirection w) (wStartCol w) i <? widthOf g))
    with (positionAt i).
  rewrite Hvalid, <- (spanCell_at_index i Hvalid), Hc. cbv zeta.
  rewrite Hb, (proj2 (conflict_test _ _) Hl). apply IH.
  intros k ch' Hk. replace (S i + k)%nat with (i + S k)%nat by lia.
  apply (Hcells (S k) ch' Hk).
Qed.

(** The bounds test of [validateSingleWord] and [quickValidate], for a
    word with a letter: the first and the last letter are at positions of
    the grid. *)
Lemma within_bounds (k : nat) (ch : N) :
  wWord w !! k = Some ch ->
  let len := Z.of_nat (length (wWord w)) in
  let endRow :=
    if bool_decide (wDirection w = vertical) then wStartRow w + len - 1
    else wStartRow w in
  let endCol :=
    if bool_decide (wDirection w = horizontal) then wStartCol w + len - 1
    else wStartCol w in
  (wStartRow w <? 0) || (wStartCol w <? 0) ||
  (heightOf g <=? endRow) || (widthOf g <=? endCol) = false ->
  positionAt k = true.
Proof.
  intros Hk len endRow endCol Hbounds. apply lookup_lt_Some in Hk.
  apply orb_false_iff in Hbounds as [Hbounds H4]. apply orb_false_iff in Hbounds as [Hbounds H3].
  apply orb_false_iff in Hbounds as [H1 H2].
  apply Z.ltb_ge in H1, H2. apply Z.leb_gt in H3, H4.
  unfold isValidPosition, rowOf, colOf. subst endRow endCol len.
  unfold heightOf, widthOf in *.
  destruct (bool_decide (wDirection w = vertical)),
    (bool_decide (wDirection w = horizontal));
    repeat (apply andb_true_iff; split);
    try apply Z.leb_le; try apply Z.ltb_lt; lia.
Qed.

Lemma bounds_of_cells :
  wDirection w ∈ [horizontal; vertical] -> wWord w <> [] ->
  (forall k ch, wWord w !! k = Some ch -> positionAt k = true) ->
  let len := Z.of_nat (length (wWord w)) in
  let endRow :=
    if bool_decide (wDirection w = vertical) then wStartRow w + len - 1
    else wStartRow w in
  let endCol :=
    if bool_decide (wDirection w = horizontal) then wStartCol w + len - 1
    else wStartCol w in
  (wStartRow w <? 0) || (wStartCol w <? 0) ||
  (heightOf g <=? endRow) || (widthOf g <=? endCol) = false.
Proof.
  intros Hdir Hne Hcells len endRow endCol.
  destruct (wWord w) as [|ch0 rest] eqn:Hword; [contradiction|].
  pose proof (Hcells O ch0 eq_refl) as Hfirst.
  destruct (lookup_lt_is_Some_2 (ch0 :: rest) (length rest)) as [chn Hn]; [simpl; lia|].
  pose proof (Hcells (length rest) chn Hn) as Hlast.
  unfold isValidPosition in Hfirst, Hlast. rewrite rowOf_0, colOf_0 in Hfirst.
  repeat match goal with H : _ && _ = true |- _ => apply andb_true_iff in H as [? ?] end.
  repeat match goal with H : (_ <=? _) = true |- _ => apply Z.leb_le in H end.
  repeat match goal with H : (_ <? _) = true |- _ => apply Z.ltb_lt in H end.
  subst len endRow endCol. simpl length. unfold heightOf, widthOf, rowOf, colOf in *.
  assert (horizontal <> vertical) as Hhv by discriminate.
  apply elem_of_cons in Hdir as [Hd|Hd]; [|apply list_elem_of_singleton in Hd];
    rewrite Hd in *.
  - rewrite (bool_decide_eq_true_2 (horizontal = horizontal)) in * by reflexivity.
    rewrite (bool_decide_eq_false_2 (horizontal = vertical)) in * by exact Hhv.
    repeat (apply orb_false_iff; split); try apply Z.ltb_ge; try apply Z.leb_gt; lia.
  - rewrite (bool_decide_eq_true_2 (vertical = vertical)) in * by reflexivity.
    rewrite (bool_decide_eq_false_2 (vertical = horizontal)) in * by congruence.
    repeat (apply orb_false_iff; split); try apply Z.ltb_ge; try apply Z.leb_gt; lia.
Qed.

Lemma validateSingleWord_clean :
  wDirection w ∈ [horizontal; vertical] -> wWord w <> [] ->
  (forall k ch, wWord w !! k = Some ch ->
     exists c, cellAt k = Some c /\ blocked c = false /\
               (letter c = [] \/ letter c = [ch])) ->
  validateSingleWord g w = Returned (mkWordVerdict true []).
Proof.
  intros Hdir Hne Hcells. unfold validateSingleWord, isValidWordStructure, includes.
  rewrite bool_decide_eq_true_2 by exact Hdir. simpl negb. cbv iota zeta.
  rewrite (bounds_of_cells Hdir Hne).
  - apply checkWordCells_clean. exact Hcells.
  - intros k ch Hk. destruct (Hcells k ch Hk) as (c & Hc & _).
    apply (getCell_valid _ _ _ _ Hc).
Qed.

(** X16. What [validateSingleWord] answers for a word with a letter, when
    it answers: the word is valid exactly when no error was pushed, and
    exactly when its direction is one of the two and each of its letters
    lies over a cell of the grid that is not blocked and holds no other
    letter. *)
Theorem validateSingleWord_valid_iff (v : wordVerdict) :
  wWord w <> [] ->
  validateSingleWord g w = Returned v ->
  (wordIsValid v = true <-> wordErrors v = []) /\
  (wordIsValid v = true <->
   wDirection w ∈ [horizontal; vertical] /\
   forall k ch, wWord w !! k = Some ch ->
     exists c, cellAt k = Some c /\ blocked c = false /\
               (letter c = [] \/ letter c = [ch])).
Proof.
  intros Hne Hrun.
  assert (wDirection w ∈ [horizontal; vertical] ->
          (forall k ch, wWord w !! k = Some ch ->
             exists c, cellAt k = Some c /\ blocked c = false /\
                       (letter c = [] \/ letter c = [ch])) ->
          wordIsValid v = true /\ wordErrors v = []) as Hclean.
  { intros Hdir Hcells. rewrite (validateSingleWord_clean Hdir Hne Hcells) in Hrun.
    injection Hrun as <-. auto. }
  unfold validateSingleWord, isValidWordStructure, includes in Hrun.
  destruct (bool_decide_reflect (wDirection w ∈ [horizontal; vertical])) as [Hdir|Hdir];
    simpl negb in Hrun; cbv iota zeta in Hrun.
  2:{ injection Hrun as <-. simpl. split; split; try discriminate. tauto. }
  match type of Hrun with checkWordCells _ _ _ _ ?r = _ =>
    destruct (checkWordCells_spec (wWord w) 0 r v Hrun) as [H1 H2] end.
  { match goal with |- context [if ?b then _ else _] => destruct b end; simpl;
      split; auto; discriminate. }
  split; [exact H1|]. split; [|intros [_ Hcells]; apply Hclean; assumption].
  intros Hv. split; [exact Hdir|]. destruct (H2 Hv) as [-> Hcells].
  match type of Hv with context [if ?b then _ else _] => destruct b eqn:Hbounds end;
    [discriminate|].
  intros k ch Hk. apply (Hcells k ch Hk). simpl. eapply within_bounds; eassumption.
Qed.

End SingleWordFacts.

Section SingleWordAndPlacement.

Import GridHelper GridValidator GridChecks GridNotions Specified.

Lemma validateSingleWord_valid_iff_witness :
  wordIsValid (mkWordVerdict false [ConflictingLetter 2 4]) = true <->
  wordErrors (mkWordVerdict false [ConflictingLetter 2 4]) = [].
Proof.
  apply (validateSingleWord_valid_iff Sample.catGrid
           (withPlacement Sample.car 2 2 horizontal)).
  - discriminate.
  - vm_compute. reflexivity.
Defined.

(** X17. [validateSingleWord] finds no fault with a placement that
    [canPlaceWord] accepts, and still finds none once [placeWord] has
    written the word, when [canPlaceWord] itself refuses to place it
    again. *)
Theorem validateSingleWord_accepts_placement (g : grid) (w : wordData) (res : verdict) :
  canPlaceWord g (wWord w) (wStartRow w) (wStartCol w) (wDirection w) = Returned res ->
  canPlace res = true ->
  validateSingleWord g w = Returned (mkWordVerdict true []) /\
  validateSingleWord (fst (placeWord g w)) w = Returned (mkWordVerdict true []).
Proof.
  intros Hverdict Hcan.
  destruct (accepted_verdict w g res Hverdict Hcan) as (Hdir & Hlen & Hcells).
  assert (wWord w <> []) as Hne by (intros Hnil; rewrite Hnil in Hlen; simpl in Hlen; lia).
  split; [apply validateSingleWord_clean; assumption|].
  destruct (placeWord_cells g w res Hverdict Hcan) as (g1 & -> & _ & Hfwd & _). simpl.
  apply validateSingleWord_clean; [assumption | assumption |].
  intros k ch Hk. destruct (Hfwd k ch Hk) as (c & _ & Hfree & _ & Hc1).
  exists (placeLetter w k ch c). split; [exact Hc1|].
  destruct (placeLetter_fields w k ch c) as (Hl & Hb & _). cbv zeta in *.
  split; [congruence | right; exact Hl].
Qed.

Lemma validateSingleWord_accepts_placement_witness :
  validateSingleWord Sample.emptyGrid Sample.cat = Returned (mkWordVerdict true []) /\
  validateSingleWord (fst (placeWord Sample.emptyGrid Sample.cat)) Sample.cat
  = Returned (mkWordVerdict true []).
Proof.
  apply (validateSingleWord_accepts_placement Sample.emptyGrid Sample.cat
           (mkVerdict true [] [] NoReason)).
  - vm_compute. reflexivity.
  - reflexivity.
Defined.

(** X18. When [quickValidate] answers [true], the grid is an array whose
    height and width are within the size rules, the number of words is
    within the count rules, and every letter of every word is at a
    position of the grid. *)
Theorem quickValidate_sound (this : validator) (ga : gridArg) (words : wordMap) :
  quickValidate this ga words = true ->
  exists g,
    ga = GridArray g /\
    minGridSize (vRules this) <= heightOf g <= maxGridSize (vRules this) /\
    minGridSize (vRules this) <= widthOf g <= maxGridSize (vRules this) /\
    (minWordsCount (vRules this) <= length words <= maxWordsCount (vRules this))%nat /\
    (1 <= length words)%nat /\
    forall word k ch, word ∈ mapValues words -> wWord word !! k = Some ch ->
      isValidPosition g (rowOf (wDirection word) (wStartRow word) k)
        (colOf (wDirection word) (wStartCol word) k) = true.
Proof.
  unfold quickValidate. destruct ga as [|g]; [discriminate|].
  destruct ((length g =? 0)%nat || (length words =? 0)%nat) eqn:Hempty; [discriminate|].
  cbv zeta.
  destruct ((heightOf g <? minGridSize (vRules this)) ||
            (widthOf g <? minGridSize (vRules this)) ||
            (maxGridSize (vRules this) <? heightOf g) ||
            (maxGridSize (vRules this) <? widthOf g)) eqn:Hsize; [discriminate|].
  destruct ((length words <? minWordsCount (vRules this))%nat ||
            (maxWordsCount (vRules this) <? length words)%nat) eqn:Hcount; [discriminate|].
  intros Hwords. exists g. split; [reflexivity|].
  apply orb_false_iff in Hempty as [_ Hsome]. apply Nat.eqb_neq in Hsome.
  apply orb_false_iff in Hsize as [Hsize H4]. apply orb_false_iff in Hsize as [Hsize H3].
  apply orb_false_iff in Hsize as [H1 H2]. apply Z.ltb_ge in H1, H2, H3, H4.
  apply orb_false_iff in Hcount as [H5 H6]. apply Nat.ltb_ge in H5, H6.
  split; [lia|]. split; [lia|]. split; [lia|]. split; [lia|].
  intros word k ch Hword Hk.
  pose proof (proj1 (forallb_forall _ _) Hwords word (proj1 (list_elem_of_In _ _) Hword))
    as Hin.
  apply negb_true_iff in Hin. eapply within_bounds; eassumption.
Qed.

Lemma quickValidate_sound_witness :
  exists g, GridArray Sample.catGrid = GridArray g /\ (5 <= heightOf g <= 25).
Proof.
  destruct (quickValidate_sound newValidator (GridArray Sample.catGrid)
              [(wId Sample.cat, Sample.cat); (wId Sample.car, Sample.car)])
    as (g & Hg & Hheight & _).
  - vm_compute. reflexivity.
  - exists g. split; [exact Hg | exact Hheight].
Defined.

End SingleWordAndPlacement.

(** ** The word helper *)

Section WordHelperFacts.

Import WordHelper WordTools Specified.

(** X19. [areAnagrams] decides whether the two words are made of the
    same code units, each as often in the one as in the other. *)
Theorem areAnagrams_iff_permutation (word1 word2 : jsstring) :
  areAnagrams word1 word2 = true <-> word1 ≡ₚ word2.
Proof.
  unfold areAnagrams. split.
  - destruct (negb (length word1 =? length word2)%nat); [discriminate|].
    intros Hsorted. apply bool_decide_eq_true_1 in Hsorted.
    rewrite <- (jsSort_perm byCodeUnit word1), Hsorted. apply jsSort_perm.
  - intros Hperm. rewrite (Permutation_length Hperm), Nat.eqb_refl. simpl.
    apply bool_decide_eq_true_2.
    apply (StronglySorted_unique_strong (fun a b : N => Z.of_N a <= Z.of_N b)).
    + intros x1 x2 _ _ H12 H21. lia.
    + apply (jsSort_sorted byCodeUnit Z.of_N). reflexivity.
    + apply (jsSort_sorted byCodeUnit Z.of_N). reflexivity.
    + rewrite !jsSort_perm. exact Hperm.
Qed.

Lemma difficultyValue_range (len rare clusters combos : nat) :
  (0 < len)%nat ->
  (0 <= difficultyValue len rare clusters combos <= 1)%Q.
Proof.
  intros Hlen. unfold difficultyValue. split; [|apply Q.le_min_r].
  assert (0 <= inject_Z (Z.of_nat len))%Q as H1 by (apply (inject_nat_le 0); lia).
  assert (0 < inject_Z (Z.of_nat len))%Q as H1' by (rewrite <- (Zlt_Qlt 0); lia).
  assert (0 <= inject_Z (Z.of_nat rare))%Q as H2 by (apply (inject_nat_le 0); lia).
  assert (0 <= inject_Z (Z.of_nat clusters))%Q as H3 by (apply (inject_nat_le 0); lia).
  assert (0 <= inject_Z (Z.of_nat combos))%Q as H4 by (apply (inject_nat_le 0); lia).
  apply Q.min_glb; [|discriminate].
  assert (0 <= Qmin (inject_Z (Z.of_nat len) / 15) (4 # 10))%Q as Ha.
  { apply Q.min_glb; [|discriminate]. apply Qle_shift_div_l; [reflexivity|].
    rewrite Qmult_0_l. exact H1. }
  assert (0 <= inject_Z (Z.of_nat rare) / inject_Z (Z.of_nat len) * (3 # 10))%Q as Hb.
  { apply Qmult_le_0_compat; [|discriminate].
    apply Qle_shift_div_l; [exact H1'|]. rewrite Qmult_0_l. exact H2. }
  assert (0 <= inject_Z (Z.of_nat clusters) * (1 # 10))%Q as Hc.
  { apply Qmult_le_0_compat; [exact H3 | discriminate]. }
  assert (0 <= inject_Z (Z.of_nat combos) * (1 # 10))%Q as Hd.
  { apply Qmult_le_0_compat; [exact H4 | discriminate]. }
  lra.
Qed.

(** X20. The difficulty of a word with a letter is a number from 0 to 1;
    the empty word has none ([0 / 0]). *)
Theorem calculateWordDifficulty_range (word : jsstring) :
  ((0 < length word)%nat ->
   exists q, calculateWordDifficulty word = Fin q /\ (0 <= q <= 1)%Q) /\
  calculateWordDifficulty [] = NaN.
Proof.
  split; [|reflexivity]. intros Hlen.
  destruct (calculateWordDifficulty_value word Hlen) as (q & Hq & Heq).
  exists q. split; [exact Hq|]. rewrite Heq. apply difficultyValue_range, Hlen.
Qed.

Lemma calculateWordDifficulty_range_witness :
  exists q, calculateWordDifficulty Sample.oneRareLetter = Fin q /\ (0 <= q <= 1)%Q.
Proof.
  apply (proj1 (calculateWordDifficulty_range Sample.oneRareLetter)). simpl. lia.
Defined.

Lemma codePoints_length (word : jsstring) : forall n, (length word <= n)%nat ->
  (length (codePoints word) <= length word)%nat.
Proof.
  intros n. revert word. induction n as [|n IH]; intros word Hn.
  - destruct word; [simpl; lia | simpl in Hn; lia].
  - destruct word as [|c [|c' rest]]; simpl; [lia | lia |].
    destruct (isHighSurrogate c && isLowSurrogate c').
    + simpl. specialize (IH rest). simpl in Hn. lia.
    + simpl. specialize (IH (c' :: rest)). simpl in Hn, IH. lia.
Qed.

Lemma rarity_sum_le (chars : list jsstring) : forall acc,
  (fold_left (fun rarity char => (rarity + rarityPoints char)%nat) chars acc
   <= acc + 2 * length chars)%nat.
Proof.
  induction chars as [|char chars IH]; intros acc; simpl; [lia|].
  specialize (IH (acc + rarityPoints char)%nat).
  assert (rarityPoints char <= 2)%nat.
  { unfold rarityPoints. destruct (includes char rarityLetters); [lia|].
    destruct (negb (includes char commonLetters)); lia. }
  lia.
Qed.

(** X21. The rarity of a word with a letter is a number from 0 to 2: a
    letter counts for at most 2, and a letter written with two code units
    counts once, while the sum is divided by the number of code units. The
    empty word has none ([0 / 0]). *)
Theorem calculateWordRarity_range (word : jsstring) :
  ((0 < length word)%nat ->
   exists q, calculateWordRarity word = Fin q /\ (0 <= q <= 2)%Q) /\
  calculateWordRarity [] = NaN.
Proof.
  split; [|reflexivity]. intros Hlen. unfold calculateWordRarity. cbv zeta.
  set (rarity := fold_left _ (codePoints word) O).
  assert (rarity <= 2 * length word)%nat as Hle.
  { pose proof (rarity_sum_le (codePoints word) O).
    pose proof (codePoints_length word (length word) (le_n _)). subst rarity. lia. }
  rewrite (div_counts rarity (length word) Hlen). eexists. split; [reflexivity|].
  assert (0 < inject_Z (Z.of_nat (length word)))%Q as Hpos by (rewrite <- (Zlt_Qlt 0); lia).
  split.
  - apply Qle_shift_div_l; [exact Hpos|]. rewrite Qmult_0_l. apply (inject_nat_le 0). lia.
  - apply Qle_shift_div_r; [exact Hpos|].
    change 2%Q with (inject_Z 2). rewrite <- inject_Z_mult, <- Zle_Qle. lia.
Qed.

Lemma calculateWordRarity_range_witness :
  exists q, calculateWordRarity Sample.oneRareLetter = Fin q /\ (0 <= q <= 2)%Q.
Proof.
  apply (proj1 (calculateWordRarity_range Sample.oneRareLetter)). simpl. lia.
Defined.

End WordHelperFacts.

Section IntersectionQuality.

Import WordHelper WordTools Specified.

Lemma div_Fin (x y : Q) : ~ (y == 0)%Q -> div (Fin x) (Fin y) = Fin (x / y).
Proof.
  intros Hy. unfold div. destruct (Qeq_bool y 0) eqn:E; [|reflexivity].
  apply Qeq_bool_iff in E. contradiction.
Qed.

Lemma centre_distance (index len : nat) :
  (index < len)%nat ->
  (0 <= Qabs (inject_Z (Z.of_nat index) + - (inject_Z (Z.of_nat len) / 2))
     <= inject_Z (Z.of_nat len) / 2)%Q.
Proof.
  intros Hlt.
  pose proof (inject_nat_le 0 index ltac:(lia)) as H0.
  pose proof (inject_nat_le index len ltac:(lia)) as H1.
  change (inject_Z (Z.of_nat 0)) with 0%Q in H0.
  generalize dependent (inject_Z (Z.of_nat index)).
  generalize (inject_Z (Z.of_nat len)). intros b a Ha Hab.
  split; [apply Qabs_nonneg|]. apply Qabs_Qle_condition.
  unfold Qdiv. change (/ 2)%Q with (1 # 2)%Q. lra.
Qed.

(** The part of the quality that depends on the distance from the
    centres: the quotient is between 0 and one half. *)
Lemma centre_quotient (word1 word2 : jsstring) (index1 index2 : nat) :
  (index1 < length word1)%nat -> (index2 < length word2)%nat ->
  exists t,
    div (div (add (abs (sub (ofNat index1) (div (ofNat (length word1)) (Fin 2))))
                  (abs (sub (ofNat index2) (div (ofNat (length word2)) (Fin 2)))))
             (Fin 2))
        (ofNat (Nat.max (length word1) (length word2))) = Fin t /\
    (0 <= t <= 1 # 2)%Q.
Proof.
  intros H1 H2. unfold ofNat, ofZ.
  rewrite !(div_Fin _ 2) by discriminate. cbn [sub neg add abs].
  rewrite (div_Fin _ 2) by discriminate.
  set (M := Nat.max (length word1) (length word2)).
  assert (0 < inject_Z (Z.of_nat M))%Q as HM by (rewrite <- (Zlt_Qlt 0); lia).
  rewrite div_Fin by (intros E; rewrite E in HM; discriminate HM).
  eexists. split; [reflexivity|].
  destruct (centre_distance index1 (length word1) H1) as [Ha0 Ha].
  destruct (centre_distance index2 (length word2) H2) as [Hb0 Hb].
  pose proof (inject_nat_le (length word1) M ltac:(lia)) as HL1.
  pose proof (inject_nat_le (length word2) M ltac:(lia)) as HL2.
  revert Ha0 Ha Hb0 Hb HL1 HL2 HM.
  generalize (Qabs (inject_Z (Z.of_nat index1) + - (inject_Z (Z.of_nat (length word1)) / 2))).
  generalize (Qabs (inject_Z (Z.of_nat index2) + - (inject_Z (Z.of_nat (length word2)) / 2))).
  generalize (inject_Z (Z.of_nat (length word1))). generalize (inject_Z (Z.of_nat (length word2))).
  generalize (inject_Z (Z.of_nat M)). unfold Qdiv. change (/ 2)%Q with (1 # 2)%Q.
  intros m l2 l1 a2 a1 Ha0 Ha Hb0 Hb HL1 HL2 HM.
  split.
  - apply Qle_shift_div_l; [exact HM|]. lra.
  - apply Qle_shift_div_r; [exact HM|]. lra.
Qed.

Lemma intersection_quality_finite (word1 word2 : jsstring) (index1 index2 : nat) :
  (index1 < length word1)%nat -> (index2 < length word2)%nat ->
  exists q, calculateIntersectionQuality word1 word2 index1 index2 = Fin q.
Proof.
  intros H1 H2. unfold calculateIntersectionQuality. cbv zeta.
  destruct (centre_quotient word1 word2 index1 index2 H1 H2) as (t & -> & _).
  cbn [sub neg add mul].
  destruct (word1 !! index1) as [ch|]; [destruct (isRare ch)|]; cbn [add];
    match goal with |- context [JSNumber.min (Fin ?x) (Fin 1)] =>
      destruct (min_Fin x 1) as (q & -> & _); eauto end.
Qed.

(** X22. The quality of an intersection at two letters of the words is a
    number from 0.65 to 1: the distance from the centres takes at most 0.15
    of the 0.3 it weighs. *)
Theorem calculateIntersectionQuality_range (word1 word2 : jsstring)
    (index1 index2 : nat) :
  (index1 < length word1)%nat -> (index2 < length word2)%nat ->
  exists q,
    calculateIntersectionQuality word1 word2 index1 index2 = Fin q /\
    (65 # 100 <= q <= 1)%Q.
Proof.
  intros H1 H2. unfold calculateIntersectionQuality. cbv zeta.
  destruct (centre_quotient word1 word2 index1 index2 H1 H2) as (t & -> & Ht0 & Ht).
  cbn [sub neg add mul].
  assert (forall x, (65 # 100 <= x)%Q ->
            exists q, JSNumber.min (Fin x) (Fin 1) = Fin q /\ (65 # 100 <= q <= 1)%Q) as Hmin.
  { intros x Hx. destruct (min_Fin x 1) as (q & -> & Hq). exists q. split; [reflexivity|].
    rewrite Hq. split; [apply Q.min_glb; [exact Hx | discriminate] | apply Q.le_min_r]. }
  destruct (word1 !! index1) as [ch|]; [destruct (isRare ch)|];
    cbn [add]; apply Hmin; lra.
Qed.

Lemma calculateIntersectionQuality_range_witness :
  exists q,
    calculateIntersectionQuality (js "CAT") (js "CAR") 0 0 = Fin q /\
    (65 # 100 <= q <= 1)%Q.
Proof.
  apply (calculateIntersectionQuality_range (js "CAT") (js "CAR") 0 0); simpl; lia.
Defined.

End IntersectionQuality.

Section SortBy.

Context {A : Type} (cmp : A -> A -> Z) (R : A -> A -> Prop) (P : A -> Prop).

Hypothesis R_trans : forall x y z, P x -> P y -> P z -> R x y -> R y z -> R x z.
Hypothesis cmp_R : forall x y, P x -> P y -> cmp x y <= 0 -> R x y.
Hypothesis cmp_R' : forall x y, P x -> P y -> 0 < cmp x y -> R y x.

Lemma sortInsert_sorted_by (x : A) (l : list A) :
  P x -> Forall P l -> StronglySorted R l -> StronglySorted R (sortInsert cmp x l).
Proof.
  intros Hx HP Hsorted. induction Hsorted as [|y l Hl IH Hy]; simpl.
  - constructor; constructor.
  - apply Forall_cons in HP as [HPy HPl].
    destruct (Z.leb_spec (cmp x y) 0) as [Hle|Hgt].
    + constructor; [constructor; assumption|].
      pose proof (cmp_R x y Hx HPy Hle) as Hxy. constructor; [exact Hxy|].
      rewrite Forall_forall in Hy, HPl |- *. intros z Hz.
      apply (R_trans x y z); auto.
    + constructor; [apply IH, HPl|].
      rewrite (sortInsert_perm cmp x l). constructor; [|exact Hy].
      apply cmp_R'; assumption.
Qed.

Lemma jsSort_sorted_by (l : list A) :
  Forall P l -> StronglySorted R (jsSort cmp l).
Proof.
  induction l as [|x l IH]; intros HP; simpl; [constructor|].
  apply Forall_cons in HP as [Hx HPl].
  apply sortInsert_sorted_by; [exact Hx | | apply IH, HPl].
  rewrite (jsSort_perm cmp l). exact HPl.
Qed.

End SortBy.

Section FindIntersections.

Import GridHelper WordHelper WordTools Specified.

Lemma comparatorSign_descending (x y : Q) :
  (comparatorSign (sub (Fin y) (Fin x)) <= 0 -> le (Fin y) (Fin x) = true) /\
  (0 < comparatorSign (sub (Fin y) (Fin x)) -> le (Fin x) (Fin y) = true).
Proof.
  cbn [sub neg add comparatorSign le].
  destruct (0 ?= y + - x)%Q eqn:E; split; intros H; try lia; apply Qle_bool_iff.
  - apply Qeq_alt in E. lra.
  - apply Qlt_alt in E. lra.
  - apply Qgt_alt in E. lra.
Qed.

Lemma quality_descending_sorted {A : Type} (cmp : A -> A -> Z) (quality : A -> num)
    (l : list A) :
  (forall a b, cmp a b = comparatorSign (sub (quality b) (quality a))) ->
  Forall (fun a => exists q, quality a = Fin q) l ->
  StronglySorted (fun a b => le (quality b) (quality a) = true) (jsSort cmp l).
Proof.
  intros Hcmp. apply jsSort_sorted_by.
  - intros x y z [qx Hx] [qy Hy] [qz Hz]. rewrite Hx, Hy, Hz. cbn [le].
    rewrite !Qle_bool_iff. intros. lra.
  - intros x y [qx Hx] [qy Hy]. rewrite Hcmp, Hx, Hy. apply comparatorSign_descending.
  - intros x y [qx Hx] [qy Hy]. rewrite Hcmp, Hx, Hy. apply comparatorSign_descending.
Qed.

Lemma findIntersections_elem (word1 word2 : jsstring) (x : crossingOption) :
  x ∈ findIntersections word1 word2 <->
  exists i j a,
    word1 !! i = Some a /\ word2 !! j = Some a /\
    x = mkCrossingOption [a] i j (calculateIntersectionQuality word1 word2 i j).
Proof.
  unfold findIntersections. cbv zeta. rewrite jsSort_perm, elem_of_concat_imap. split.
  - intros (i & a & Hi & Hx). apply elem_of_concat_imap in Hx as (j & b & Hj & Hx).
    destruct (bool_decide_reflect (a = b)) as [<-|]; [|inversion Hx].
    apply list_elem_of_singleton in Hx. eauto 6.
  - intros (i & j & a & Hi & Hj & ->). exists i, a. split; [exact Hi|].
    apply elem_of_concat_imap. exists j, a. split; [exact Hj|].
    rewrite bool_decide_eq_true_2 by reflexivity. apply list_elem_of_here.
Qed.

Lemma findIntersections_quality (word1 word2 : jsstring) :
  Forall (fun x => exists q, quality x = Fin q) (findIntersections word1 word2).
Proof.
  apply Forall_forall. intros x Hx.
  apply findIntersections_elem in Hx as (i & j & a & Hi & Hj & ->). simpl.
  apply lookup_lt_Some in Hi, Hj.
  apply (intersection_quality_finite word1 word2 i j Hi Hj).
Qed.

End FindIntersections.

Section PlacementOptions.

Import GridHelper WordHelper WordTools Specified.

(** X23. [findIntersections] lists, exactly, the pairs of a letter of
    the first word and an equal letter of the second, each with its
    quality, and lists them with the quality never increasing. *)
Theorem findIntersections_sorted_pairs (word1 word2 : jsstring) :
  (forall x, x ∈ findIntersections word1 word2 <->
     exists i j a,
       word1 !! i = Some a /\ word2 !! j = Some a /\
       x = mkCrossingOption [a] i j (calculateIntersectionQuality word1 word2 i j)) /\
  StronglySorted (fun x y => le (quality y) (quality x) = true)
    (findIntersections word1 word2).
Proof.
  split; [apply findIntersections_elem|].
  unfold findIntersections. cbv zeta.
  apply quality_descending_sorted; [reflexivity|].
  rewrite <- (jsSort_perm byQualityDescending). apply findIntersections_quality.
Qed.

Lemma calculatePlacement_within (newWord existingWord : wordData)
    (intersection : crossingOption) (size : gridSize) (opt : placementOption) :
  calculatePlacementFromIntersection newWord existingWord intersection size = Some opt ->
  optionDirection opt ∈ [horizontal; vertical] /\
  optionQuality opt = quality intersection /\
  forall k, (k < length (wWord newWord))%nat ->
    0 <= rowOf (optionDirection opt) (optionRow opt) k < sizeHeight size /\
    0 <= colOf (optionDirection opt) (optionCol opt) k < sizeWidth size.
Proof.
  unfold calculatePlacementFromIntersection. cbv zeta.
  match goal with |- context [if ?b then None else _] => destruct b eqn:Hbounds end;
    [discriminate|].
  intros [= <-]. cbn [optionDirection optionRow optionCol optionQuality].
  apply orb_false_iff in Hbounds as [Hbounds H4]. apply orb_false_iff in Hbounds as [Hbounds H3].
  apply orb_false_iff in Hbounds as [H1 H2].
  apply Z.ltb_ge in H1, H2. apply Z.leb_gt in H3, H4.
  assert (horizontal <> vertical) as Hhv by discriminate.
  destruct (bool_decide (wDirection existingWord = horizontal)); unfold rowOf, colOf.
  - rewrite (bool_decide_eq_true_2 (vertical = vertical)) in * by reflexivity.
    rewrite (bool_decide_eq_false_2 (vertical = horizontal)) in * by congruence.
    split; [apply list_elem_of_further, list_elem_of_here|]. split; [reflexivity|].
    intros k Hk. lia.
  - rewrite (bool_decide_eq_true_2 (horizontal = horizontal)) in * by reflexivity.
    rewrite (bool_decide_eq_false_2 (horizontal = vertical)) in * by exact Hhv.
    split; [apply list_elem_of_here|]. split; [reflexivity|].
    intros k Hk. lia.
Qed.

Lemma generatePlacementOptions_elem (word : wordData) (existingWords : list wordData)
    (size : gridSize) (opt : placementOption) :
  existingWords <> [] ->
  (opt ∈ generatePlacementOptions word existingWords size <->
   exists existingWord intersection,
     existingWord ∈ existingWords /\
     intersection ∈ findIntersections (wWord word) (wWord existingWord) /\
     calculatePlacementFromIntersection word existingWord intersection size = Some opt).
Proof.
  intros Hne. unfold generatePlacementOptions.
  destruct existingWords as [|w0 rest]; [contradiction|]. simpl Nat.eqb. cbv iota zeta.
  rewrite jsSort_perm, list_elem_of_In, in_flat_map. split.
  - intros (existingWord & Hin & Hopt). exists existingWord.
    apply list_elem_of_In, list_elem_of_omap in Hopt as (intersection & Hi & Hsome).
    exists intersection. split; [apply list_elem_of_In, Hin | auto].
  - intros (existingWord & intersection & Hin & Hi & Hsome). exists existingWord.
    split; [apply list_elem_of_In, Hin|]. apply list_elem_of_In, list_elem_of_omap. eauto.
Qed.

(** X24. With words already placed, every option of
    [generatePlacementOptions] keeps each letter of the word inside the
    grid, runs in one of the two directions and has the quality of an
    intersection with a placed word, and the options come with the quality
    never increasing. The single option for a first word is not checked
    against the grid: it starts left of it when the word is longer than the
    grid is wide. *)
Theorem generatePlacementOptions_within_grid (word : wordData)
    (existingWords : list wordData) (size : gridSize) :
  (existingWords <> [] ->
   (forall opt, opt ∈ generatePlacementOptions word existingWords size ->
      optionDirection opt ∈ [horizontal; vertical] /\
      (exists q, optionQuality opt = Fin q) /\
      forall k, (k < length (wWord word))%nat ->
        0 <= rowOf (optionDirection opt) (optionRow opt) k < sizeHeight size /\
        0 <= colOf (optionDirection opt) (optionCol opt) k < sizeWidth size) /\
   StronglySorted (fun x y => le (optionQuality y) (optionQuality x) = true)
     (generatePlacementOptions word existingWords size)) /\
  (existingWords = [] ->
   exists opt,
     generatePlacementOptions word existingWords size = [opt] /\
     optionDirection opt = horizontal /\
     optionRow opt = sizeHeight size / 2 /\
     (sizeWidth size < Z.of_nat (length (wWord word)) -> optionCol opt < 0)).
Proof.
  split.
  - intros Hne.
    assert (forall opt, opt ∈ generatePlacementOptions word existingWords size ->
              optionDirection opt ∈ [horizontal; vertical] /\
              (exists q, optionQuality opt = Fin q) /\
              forall k, (k < length (wWord word))%nat ->
                0 <= rowOf (optionDirection opt) (optionRow opt) k < sizeHeight size /\
                0 <= colOf (optionDirection opt) (optionCol opt) k < sizeWidth size) as Hall.
    { intros opt Hopt.
      apply (generatePlacementOptions_elem _ _ _ _ Hne) in Hopt
        as (existingWord & intersection & _ & Hi & Hsome).
      destruct (calculatePlacement_within _ _ _ _ _ Hsome) as (Hdir & Hq & Hin).
      split; [exact Hdir|]. split; [|exact Hin]. rewrite Hq.
      exact (proj1 (Forall_forall _ _) (findIntersections_quality _ _) intersection Hi). }
    split; [exact Hall|].
    assert (Forall (fun opt => exists q, optionQuality opt = Fin q)
              (generatePlacementOptions word existingWords size)) as Hfin.
    { apply Forall_forall. intros opt Hopt. apply (Hall opt Hopt). }
    revert Hfin. unfold generatePlacementOptions.
    destruct existingWords as [|w0 rest]; [contradiction|]. simpl Nat.eqb. cbv iota zeta.
    intros Hfin. apply quality_descending_sorted; [reflexivity|].
    rewrite <- (jsSort_perm byOptionQualityDescending). exact Hfin.
  - intros ->. unfold generatePlacementOptions. simpl. eexists. split; [reflexivity|].
    simpl. split; [reflexivity|]. split; [reflexivity|]. intros Hlong.
    apply Z.div_lt_upper_bound; lia.
Qed.

End PlacementOptions.

(** ** The checks of validateGrid *)

Section CheckLogic.

Import GridHelper GridValidator ReportNotions.

Lemma andThen_returned {A B : Type} (m : check A) (f : A -> check B) (r r' : report)
    (b : B) :
  andThen m f r = (r', Returned b) ->
  exists a r1, m r = (r1, Returned a) /\ f a r1 = (r', Returned b).
Proof.
  unfold andThen. destruct (m r) as [r1 [a|]]; [eauto | discriminate].
Qed.

Lemma forEach_returned {A S : Type} (body : S -> A -> check S) (x : A) (l : list A)
    (s s' : S) (r r' : report) :
  forEach body (x :: l) s r = (r', Returned s') ->
  exists s1 r1, body s x r = (r1, Returned s1) /\ forEach body l s1 r1 = (r', Returned s').
Proof. simpl. apply andThen_returned. Qed.

(** A relation between the report before and the report after a
    computation, kept by each step of it. *)
Context (R : report -> report -> Prop).
Hypothesis R_refl : forall r, R r r.
Hypothesis R_trans : forall r1 r2 r3, R r1 r2 -> R r2 r3 -> R r1 r3.

Local Abbreviation via := (via R).

Lemma via_done {A : Type} (a : A) : via (done_with a).
Proof. intros r. apply R_refl. Qed.

Lemma via_raise {A : Type} : via (@raise A).
Proof. intros r. apply R_refl. Qed.

Lemma via_andThen {A B : Type} (m : check A) (f : A -> check B) :
  via m -> (forall a, via (f a)) -> via (andThen m f).
Proof.
  intros Hm Hf r. unfold andThen. specialize (Hm r).
  destruct (m r) as [r1 [a|]]; simpl in *; [|exact Hm].
  eapply R_trans; [exact Hm | apply Hf].
Qed.

Lemma via_when (b : bool) (m : check unit) : via m -> via (when b m).
Proof. intros Hm. destruct b; [exact Hm | apply via_done]. Qed.

Lemma via_defined {A : Type} (o : option A) : via (defined o).
Proof. destruct o; [apply via_done | apply via_raise]. Qed.

Lemma via_cellOf (g : grid) (row col : Z) : via (cellOf g row col).
Proof. apply via_andThen; [apply via_defined | intros r; apply via_defined]. Qed.

Lemma via_forEach {A S : Type} (body : S -> A -> check S) (l : list A) :
  (forall s x, via (body s x)) -> forall s, via (forEach body l s).
Proof.
  intros Hbody. induction l as [|x l IH]; intros s; simpl; [apply via_done|].
  apply via_andThen; [apply Hbody | exact IH].
Qed.

Lemma via_if {A : Type} (b : bool) (m1 m2 : check A) :
  via m1 -> via m2 -> via (if b then m1 else m2).
Proof. destruct b; auto. Qed.

Ltac via_steps :=
  repeat first
    [ apply via_done | apply via_raise | apply via_defined | apply via_cellOf
    | apply via_when | apply via_andThen; [|intros ?]
    | apply via_forEach; intros ? ? | apply via_if ].

Variable this : validator.

Lemma via_hasIntersections (g : grid) (word : wordData) (letters : list N) :
  forall i, via (hasIntersections g word i letters).
Proof.
  induction letters as [|ch letters IH]; intros i; simpl; [apply via_done|].
  apply via_andThen; [apply via_cellOf|]. intros c. apply via_if; [apply via_done | apply IH].
Qed.

Lemma via_dfs (g : grid) (depth : nat) : forall row col st, via (dfs depth g row col st).
Proof.
  induction depth as [|depth IH]; intros row col st; simpl; [apply via_raise|].
  apply via_if; [apply via_done|]. apply via_andThen; [apply via_cellOf|]. intros c.
  apply via_if; [apply via_done|].
  repeat (apply via_andThen; [apply IH | intros ?]). apply IH.
Qed.

Lemma via_findConnectedComponents (g : grid) : via (findConnectedComponents g).
Proof.
  unfold findConnectedComponents. apply via_andThen; [|intros ?; apply via_done].
  apply via_forEach. intros vc rc. apply via_if; [apply via_done|].
  apply via_andThen; [apply via_cellOf|]. intros c. apply via_if; [|apply via_done].
  apply via_andThen; [apply via_dfs | intros ?; apply via_done].
Qed.

Lemma via_findIsolatedCells (g : grid) : via (findIsolatedCells g).
Proof. unfold findIsolatedCells. via_steps. Qed.

Lemma via_analyzeSymmetry (g : grid) : via (analyzeSymmetry g).
Proof. unfold analyzeSymmetry. via_steps. Qed.

Lemma via_analyzeQuadrantDistribution (g : grid) : via (analyzeQuadrantDistribution g).
Proof. unfold analyzeQuadrantDistribution. via_steps. Qed.

Lemma via_analyzeCenterFilling (g : grid) : via (analyzeCenterFilling g).
Proof. unfold analyzeCenterFilling. via_steps. Qed.

Lemma via_analyzeAesthetics (g : grid) : via (analyzeAesthetics g).
Proof.
  unfold analyzeAesthetics. apply via_andThen; [apply via_analyzeQuadrantDistribution|].
  intros q. apply via_andThen; [apply via_analyzeCenterFilling | intros ?; apply via_done].
Qed.

(** The steps that write to the report. *)
Hypothesis R_warning : forall m r, R r (fst (pushWarning m r)).
Hypothesis R_warnings : forall ms r, R r (fst (pushWarnings ms r)).
Hypothesis R_suggestions : forall ms r, R r (fst (pushSuggestions ms r)).
Variable ok : (details -> details) -> Prop.
Hypothesis R_details : forall f r, ok f -> R r (fst (updateDetails f r)).
Hypothesis ok_intersections : forall x, ok (fun d =>
  mkDetails (dGridSize d) (dWordsCount d) (dDuplicates d) (dPlacementErrors d)
    (Some x) (dIntegrityIssues d) (dDensity d) (dConnectivity d) (dQuality d)).
Hypothesis ok_integrity : forall x, ok (fun d =>
  mkDetails (dGridSize d) (dWordsCount d) (dDuplicates d) (dPlacementErrors d)
    (dIntersections d) (Some x) (dDensity d) (dConnectivity d) (dQuality d)).
Hypothesis ok_density : forall x, ok (fun d =>
  mkDetails (dGridSize d) (dWordsCount d) (dDuplicates d) (dPlacementErrors d)
    (dIntersections d) (dIntegrityIssues d) (Some x) (dConnectivity d) (dQuality d)).
Hypothesis ok_connectivity : forall x, ok (fun d =>
  mkDetails (dGridSize d) (dWordsCount d) (dDuplicates d) (dPlacementErrors d)
    (dIntersections d) (dIntegrityIssues d) (dDensity d) (Some x) (dQuality d)).
Hypothesis ok_quality : forall x, ok (fun d =>
  mkDetails (dGridSize d) (dWordsCount d) (dDuplicates d) (dPlacementErrors d)
    (dIntersections d) (dIntegrityIssues d) (dDensity d) (dConnectivity d) (Some x)).

Lemma via_validateIntersections (g : grid) (words : wordMap) :
  via (validateIntersections this g words).
Proof.
  unfold validateIntersections. cbv zeta. apply via_andThen.
  - apply via_forEach. intros isolatedWords word.
    apply via_andThen; [apply via_hasIntersections | intros ?; apply via_done].
  - intros isolatedWords. apply via_andThen; [apply via_when; intros r; apply R_warning|].
    intros _. apply via_andThen; [apply via_when; intros r; apply R_warning|].
    intros _ r. apply R_details, ok_intersections.
Qed.

Lemma via_validateGridIntegrity (g : grid) (words : wordMap) :
  via (validateGridIntegrity g words).
Proof.
  unfold validateGridIntegrity. cbv zeta. apply via_andThen.
  - apply via_forEach. intros issues word. apply via_andThen; [apply via_defined|].
    intros r0. apply via_if; [|apply via_done].
    apply via_andThen; [apply via_defined | intros ?; apply via_done].
  - intros issues1. apply via_andThen; [apply via_when; intros r; apply R_warnings|].
    intros _ r. apply R_details, ok_integrity.
Qed.

Lemma via_validateDensity (g : grid) : via (validateDensity this g).
Proof.
  unfold validateDensity. cbv zeta.
  repeat (apply via_andThen; [apply via_when; intros r; apply R_warning | intros _]).
  intros r. apply R_details, ok_density.
Qed.

Lemma via_validateIsolation (g : grid) (words : wordMap) :
  via (validateIsolation this g words).
Proof.
  unfold validateIsolation.
  apply via_andThen; [apply via_findConnectedComponents | intros connectedComponents].
  apply via_andThen; [apply via_findIsolatedCells | intros isolated].
  repeat (apply via_andThen; [apply via_when; intros r; apply R_warning | intros _]).
  intros r. apply R_details, ok_connectivity.
Qed.

Lemma via_analyzeGridQuality (g : grid) (words : wordMap) :
  via (analyzeGridQuality g words).
Proof.
  unfold analyzeGridQuality. cbv zeta.
  apply via_andThen; [apply via_analyzeSymmetry | intros sym].
  apply via_andThen; [apply via_analyzeAesthetics | intros aes].
  apply via_andThen; [intros r; apply R_suggestions | intros _].
  intros r. apply R_details, ok_quality.
Qed.

End CheckLogic.

Section ValidateGridFacts.

Import GridHelper GridValidator ReportNotions GridNotions Specified.

Variable localeCompare : jsstring -> jsstring -> Z.

(** The checks behind a report that [runChecks] returned. *)
Lemma runChecks_returned (this : validator) (ga : gridArg) (words : wordMap)
    (r0 r : report) :
  runChecks this ga words r0 = (r, Returned tt) ->
  exists g r1 r2 r3 r4 r5 r6 r7 r8 r9,
    ga = GridArray g /\
    validateGridStructure ga r0 = (r1, Returned tt) /\
    validateGridSize this ga r1 = (r2, Returned tt) /\
    validateWords this words r2 = (r3, Returned tt) /\
    validateWordPlacements g words r3 = (r4, Returned tt) /\
    validateIntersections this g words r4 = (r5, Returned tt) /\
    validateGridIntegrity g words r5 = (r6, Returned tt) /\
    validateDensity this g r6 = (r7, Returned tt) /\
    validateIsolation this g words r7 = (r8, Returned tt) /\
    analyzeGridQuality g words r8 = (r9, Returned tt) /\
    r = set_isValid (length (errors r9) =? 0)%nat
          (set_score (calculateOverallScore this r9) r9).
Proof.
  unfold runChecks. intros Hrun.
  apply andThen_returned in Hrun as ([] & r1 & H1 & Hrun).
  apply andThen_returned in Hrun as ([] & r2 & H2 & Hrun).
  destruct ga as [|g]; [discriminate|].
  apply andThen_returned in Hrun as ([] & r3 & H3 & Hrun).
  apply andThen_returned in Hrun as ([] & r4 & H4 & Hrun).
  apply andThen_returned in Hrun as ([] & r5 & H5 & Hrun).
  apply andThen_returned in Hrun as ([] & r6 & H6 & Hrun).
  apply andThen_returned in Hrun as ([] & r7 & H7 & Hrun).
  apply andThen_returned in Hrun as ([] & r8 & H8 & Hrun).
  apply andThen_returned in Hrun as ([] & r9 & H9 & Hrun).
  injection Hrun as <-.
  exists g, r1, r2, r3, r4, r5, r6, r7, r8, r9. auto 12.
Qed.

(** What a call that misses the cache returns and stores. *)
Lemma validateGrid_miss (this this' : validator) (ga : gridArg) (words : wordMap)
    (strictness key : jsstring) (r : report) :
  generateCacheKey localeCompare ga words strictness = Returned key ->
  validationCache this !! key = None ->
  validateGrid localeCompare this ga words strictness = (this', Returned r) ->
  let this1 := mkValidator (vRules this) strictness (validationCache this) in
  this' = mkValidator (vRules this) strictness (<[key := r]> (validationCache this)) /\
  (runChecks this1 ga words freshResult = (r, Returned tt) \/
   exists r', runChecks this1 ga words freshResult = (r', Thrown) /\ r = onFailure r').
Proof.
  intros Hkey Hmiss. unfold validateGrid. rewrite Hkey, Hmiss. cbv zeta.
  destruct (runChecks _ ga words freshResult) as [r' [[]|]]; intros [= <- <-];
    (split; [reflexivity|]); [left | right]; eauto.
Qed.

Lemma fresh_report_coherent (this : validator) (ga : gridArg) (words : wordMap)
    (r : report) :
  (runChecks this ga words freshResult = (r, Returned tt) \/
   exists r', runChecks this ga words freshResult = (r', Thrown) /\ r = onFailure r') ->
  coherent r.
Proof.
  intros [Hrun|(r' & _ & ->)]; unfold coherent.
  - apply runChecks_returned in Hrun
      as (g & r1 & r2 & r3 & r4 & r5 & r6 & r7 & r8 & r9 & _ & _ & _ & _ & _ & _ & _ & _ & _
          & _ & ->).
    simpl. rewrite Nat.eqb_eq. apply length_zero_iff_nil.
  - destruct (onFailure_report r') as (_ & -> & ->).
    split; [discriminate|]. intros H. destruct (errors r'); discriminate.
Qed.

Lemma validateGrid_coherent (this this' : validator) (ga : gridArg) (words : wordMap)
    (strictness : jsstring) (r : report) :
  cacheCoherent this ->
  validateGrid localeCompare this ga words strictness = (this', Returned r) ->
  coherent r /\ cacheCoherent this'.
Proof.
  intros Hcache Hcall.
  destruct (generateCacheKey localeCompare ga words strictness) as [key|] eqn:Hkey.
  2:{ unfold validateGrid in Hcall. rewrite Hkey in Hcall. discriminate. }
  destruct (validationCache this !! key) as [cached|] eqn:Hhit.
  - unfold validateGrid in Hcall. rewrite Hkey, Hhit in Hcall. injection Hcall as <- <-.
    split; [apply (Hcache key cached Hhit) | exact Hcache].
  - destruct (validateGrid_miss _ _ _ _ _ _ _ Hkey Hhit Hcall) as [-> Hfresh].
    apply fresh_report_coherent in Hfresh. split; [exact Hfresh|].
    intros key' r' Hlookup. simpl in Hlookup.
    destruct (decide (key = key')) as [<-|Hne].
    + rewrite lookup_insert_eq in Hlookup. injection Hlookup as <-. exact Hfresh.
    + rewrite lookup_insert_ne in Hlookup by exact Hne. apply (Hcache key' r' Hlookup).
Qed.

(** X25. Every report of a validator says it is valid exactly when it
    lists no error. This holds of the cache of a new validator, is kept by
    [clearCache], [setRules] and [setStrictness], and is kept by
    [validateGrid], whose report, computed or taken from the cache, has the
    property. *)
Theorem validateGrid_reports_coherent (this : validator) :
  cacheCoherent newValidator /\
  (cacheCoherent this ->
   cacheCoherent (clearCache this) /\
   (forall newRules, cacheCoherent (setRules this newRules)) /\
   (forall strictness, cacheCoherent (setStrictness this strictness)) /\
   (forall ga words strictness this' r,
      validateGrid localeCompare this ga words strictness = (this', Returned r) ->
      coherent r /\ cacheCoherent this')).
Proof.
  assert (forall v : validator, validationCache v = ∅ -> cacheCoherent v) as Hempty.
  { intros v Hv key r Hlookup. rewrite Hv, lookup_empty in Hlookup. discriminate. }
  split; [apply Hempty; reflexivity|]. intros Hcache.
  split; [apply Hempty; reflexivity|]. split; [intros; apply Hempty; reflexivity|].
  split.
  - intros strictness. unfold setStrictness.
    destruct (includes strictness [RELAXED; NORMAL; STRICT]);
      [apply Hempty; reflexivity | exact Hcache].
  - intros ga words strictness this' r. apply validateGrid_coherent, Hcache.
Qed.

End ValidateGridFacts.

Section ValidateGridExamples.

Import GridHelper GridValidator ReportNotions GridNotions Specified.

Lemma validateGrid_reports_coherent_witness :
  coherent Sample.catReport.
Proof.
  destruct (validateGrid_reports_coherent Sample.byCodeUnits newValidator) as [Hnew Hkeep].
  destruct (Hkeep Hnew) as (_ & _ & _ & Hcall).
  destruct (Hcall (GridArray Sample.catGrid) Sample.catWords NORMAL
              (fst (validateGrid Sample.byCodeUnits newValidator (GridArray Sample.catGrid)
                      Sample.catWords NORMAL))
              Sample.catReport) as [Hreport _]; [|exact Hreport].
  vm_compute. reflexivity.
Defined.

End ValidateGridExamples.

Section ScoreRange.

Import GridHelper GridValidator ReportNotions GridNotions Specified.

Variable localeCompare : jsstring -> jsstring -> Z.

Lemma overallScore_range (this : validator) (result : report) :
  boundedScoreInputs (reportDetails result) ->
  exists z, calculateOverallScore this result = ofZ z /\ 0 <= z <= 100.
Proof.
  intros Hq. unfold calculateOverallScore. cbv zeta. apply clamp_range.
  pose proof (penalties_atMost (length (errors result)) (length (warnings result)) 20 5
                ltac:(lia) ltac:(lia)) as H2.
  change (ofZ 20) with (Fin 20) in H2. change (ofZ 5) with (Fin 5) in H2.
  unfold boundedScoreInputs in Hq.
  destruct (dQuality (reportDetails result)) as [q|];
    [|apply (atMost_defined 100); exact H2].
  destruct Hq as (Hh & Hv & Hb). apply (atMost_defined (100 + 4 * 5 + 1 * 10)).
  assert (Double.atMost (100 + 4 * 5 + 1 * 10)
            (Double.add
               (Double.add
                  (Double.sub
                     (Double.sub (ofZ 100)
                        (Double.mul (ofNat (length (errors result))) (Fin 20)))
                     (Double.mul (ofNat (length (warnings result))) (Fin 5)))
                  (Double.mul
                     (Double.add (Double.double (symHorizontal (qSymmetry q)))
                        (Double.double (symVertical (qSymmetry q))))
                     (Fin 5)))
               (Double.mul (Double.double (balance (qAesthetics q))) (Fin 10)))) as H4.
  { apply (add_atMost (100 + 4 * 5) (1 * 10)); [| | lia | lia | reflexivity].
    - apply (add_atMost 100 (4 * 5)); [exact H2 | | lia | lia | reflexivity].
      change (Fin 5) with (ofZ 5).
      apply (mul_atMost 4 5); [| lia | lia | reflexivity].
      apply (add_atMost 2 2); [| | lia | lia | reflexivity].
      + apply double_atMost; [exact Hh | split; [lia | reflexivity]].
      + apply double_atMost; [exact Hv | split; [lia | reflexivity]].
    - change (Fin 10) with (ofZ 10).
      apply (mul_atMost 1 10); [| lia | lia | reflexivity].
      apply double_atMost; [exact Hb | split; [lia | reflexivity]]. }
  destruct (dDensity (reportDetails result)) as [d|]; [|exact H4].
  match goal with |- context [if ?c then _ else _] => destruct c end; [|exact H4].
  apply sub_atMost; [exact H4 | | split; [lia | reflexivity]].
  unfold Double.atLeast. change (inject_Z 0) with 0%Q. lra.
Qed.

Lemma ratio_atMost (n d : nat) (k : Z) :
  0 <= k -> ((0 < d)%nat -> Z.of_nat n <= k * Z.of_nat d) ->
  Double.atMost k (if (0 <? d)%nat then ratio n d else Fin 0).
Proof.
  intros Hk Hn. destruct (Nat.ltb_spec 0 d) as [Hd|Hd].
  - unfold ratio. rewrite div_counts by assumption. simpl.
    apply Qle_shift_div_r.
    + rewrite <- (Zlt_Qlt 0). lia.
    + rewrite <- inject_Z_mult, <- Zle_Qle. exact (Hn Hd).
  - simpl. rewrite <- (Zle_Qle 0). exact Hk.
Qed.

(** A loop that adds at most one to its counter at each round. *)
Lemma forEach_counter {A : Type} (body : nat -> A -> check nat) (l : list A) :
  (forall n x r r1 n1, body n x r = (r1, Returned n1) -> (n1 <= S n)%nat) ->
  forall n r r' n',
    forEach body l n r = (r', Returned n') -> (n' <= n + length l)%nat.
Proof.
  intros Hbody. induction l as [|x l IH]; intros n r r' n' Hrun.
  - injection Hrun as _ <-. simpl. lia.
  - apply forEach_returned in Hrun as (n1 & r1 & Hstep & Hrun).
    apply Hbody in Hstep. apply IH in Hrun. simpl. lia.
Qed.

Lemma positions_length (rows cols : list Z) :
  length (positions rows cols) = (length rows * length cols)%nat.
Proof.
  unfold positions.
  assert (forall x : Z, length (c ← cols; [(x, c)]) = length cols) as Hrow.
  { intros x. induction cols as [|c cols IHc]; [reflexivity|].
    rewrite bind_cons. simpl. rewrite IHc. reflexivity. }
  induction rows as [|x rows IH]; [reflexivity|].
  rewrite bind_cons, length_app, IH, Hrow. reflexivity.
Qed.

Lemma upto_length (n : Z) : length (upto n) = Z.to_nat n.
Proof. unfold upto. rewrite length_map, length_seq. reflexivity. Qed.

Lemma analyzeSymmetry_bounded (g : grid) (r r' : report) (sym : symmetry) :
  analyzeSymmetry g r = (r', Returned sym) ->
  Double.atMost 2 (symHorizontal sym) /\ Double.atMost 2 (symVertical sym).
Proof.
  unfold analyzeSymmetry. cbv zeta. intros Hrun.
  apply andThen_returned in Hrun as (n1 & r1 & H1 & Hrun).
  apply andThen_returned in Hrun as (n2 & r2 & H2 & Hrun).
  injection Hrun as _ <-. cbn [symHorizontal symVertical].
  assert (forall (f : Z * Z -> check cell) (f' : Z * Z -> check cell) n x r0 r3 n3,
            (do a <- f x; do b <- f' x;
             done_with (if eqb (blocked a) (blocked b) then S n else n)) r0
            = (r3, Returned n3) -> (n3 <= S n)%nat) as Hbody.
  { intros f f' n x r0 r3 n3 Hstep.
    apply andThen_returned in Hstep as (a & ra & _ & Hstep).
    apply andThen_returned in Hstep as (b & rb & _ & Hstep).
    injection Hstep as _ <-. destruct (eqb (blocked a) (blocked b)); lia. }
  apply forEach_counter in H1;
    [|intros n x; apply (Hbody (fun rc => cellOf g (fst rc) (snd rc))
                           (fun rc => cellOf g (heightOf g - 1 - fst rc) (snd rc)))].
  apply forEach_counter in H2;
    [|intros n x; apply (Hbody (fun cr => cellOf g (snd cr) (fst cr))
                           (fun cr => cellOf g (snd cr) (widthOf g - 1 - fst cr)))].
  rewrite positions_length, !upto_length in H1, H2.
  assert (0 <= heightOf g) as Hh by (unfold heightOf; lia).
  pose proof (Z.div_pos (heightOf g) 2 Hh eq_refl) as Hh2.
  pose proof (Z.div_mod (heightOf g) 2 ltac:(lia)) as Eh.
  pose proof (Z.mod_pos_bound (heightOf g) 2 eq_refl) as Bh.
  destruct (Z.le_gt_cases 0 (widthOf g)) as [Hw|Hw].
  - pose proof (Z.div_pos (widthOf g) 2 Hw eq_refl) as Hw2.
    pose proof (Z.div_mod (widthOf g) 2 ltac:(lia)) as Ew.
    pose proof (Z.mod_pos_bound (widthOf g) 2 eq_refl) as Bw.
    apply Nat2Z.inj_le in H1, H2.
    rewrite Nat2Z.inj_add, Nat2Z.inj_mul, !Z2Nat.id in H1, H2 by lia.
    set (a := widthOf g `div` 2) in *. set (b := heightOf g `div` 2) in *.
    split; apply ratio_atMost; try lia; intros Hd;
      rewrite Z2Nat.id by nia;
      (assert (1 <= a) by (destruct (Z.le_gt_cases 1 a) as [?|?]; [assumption|];
                           assert (a = 0) as Ea by lia; rewrite Ea in Hd; simpl in Hd; lia));
      nia.
  - exfalso. unfold widthOf, firstRowLength in Hw. destruct g as [|row g]; simpl in Hw; lia.
Qed.

Lemma analyzeAesthetics_bounded (g : grid) (r r' : report) (aes : aesthetics) :
  0 < heightOf g -> 0 < widthOf g ->
  analyzeAesthetics g r = (r', Returned aes) ->
  Double.atMost 1 (balance aes).
Proof.
  intros Hh Hw. unfold analyzeAesthetics. cbv zeta. intros Hrun.
  apply andThen_returned in Hrun as (q & r1 & _ & Hrun).
  apply andThen_returned in Hrun as (c & r2 & _ & Hrun).
  injection Hrun as _ <-. cbn [balance].
  apply sub_atMost; [apply Qle_refl | | split; [lia | reflexivity]].
  unfold Double.div, JSNumber.div, ofZ.
  destruct (Qeq_bool (inject_Z (heightOf g * widthOf g)) 0) eqn:E.
  { apply Qeq_bool_iff in E. unfold Qeq in E. simpl in E. nia. }
  cbn [Double.double]. apply nearest_atLeast; [|lia].
  change (inject_Z 0) with 0%Q. apply Qle_shift_div_l.
  - rewrite <- (Zlt_Qlt 0). nia.
  - rewrite Qmult_0_l. rewrite <- (Zle_Qle 0). lia.
Qed.

Lemma analyzeGridQuality_details (g : grid) (words : wordMap) (r r' : report) :
  0 < heightOf g -> 0 < widthOf g ->
  analyzeGridQuality g words r = (r', Returned tt) ->
  boundedScoreInputs (reportDetails r').
Proof.
  intros Hh Hw. unfold analyzeGridQuality. cbv zeta. intros Hrun.
  apply andThen_returned in Hrun as (sym & r1 & Hsym & Hrun).
  apply andThen_returned in Hrun as (aes & r2 & Haes & Hrun).
  apply andThen_returned in Hrun as ([] & r3 & _ & Hrun).
  injection Hrun as <-. unfold boundedScoreInputs. simpl.
  destruct (analyzeSymmetry_bounded _ _ _ _ Hsym) as [? ?].
  pose proof (analyzeAesthetics_bounded _ _ _ _ Hh Hw Haes). auto.
Qed.

(** X26. For a grid with at least one row and one column, the score of
    a report that [validateGrid] computes is a whole number from 0 to
    100, whether its checks ran to the end or failed. *)
Theorem validateGrid_score_range (this this' : validator) (g : grid) (words : wordMap)
    (strictness key : jsstring) (r : report) :
  generateCacheKey localeCompare (GridArray g) words strictness = Returned key ->
  validationCache this !! key = None ->
  0 < heightOf g -> 0 < widthOf g ->
  validateGrid localeCompare this (GridArray g) words strictness = (this', Returned r) ->
  exists z, score r = ofZ z /\ 0 <= z <= 100.
Proof.
  intros Hkey Hmiss Hh Hw Hcall.
  destruct (validateGrid_miss _ _ _ _ _ _ _ _ Hkey Hmiss Hcall) as [_ [Hrun|(r' & _ & ->)]].
  2:{ exists 0. split; [apply onFailure_report | lia]. }
  apply runChecks_returned in Hrun
    as (g' & r1 & r2 & r3 & r4 & r5 & r6 & r7 & r8 & r9 & [= <-] & _ & _ & _ & _ & _ & _
        & H7 & H8 & H9 & ->).
  simpl. apply overallScore_range.
  exact (analyzeGridQuality_details _ _ _ _ Hh Hw H9).
Qed.

End ScoreRange.

Section ScoreRangeExample.

Import GridHelper GridValidator ReportNotions GridNotions Specified.

Lemma validateGrid_score_range_witness :
  exists z, score Sample.catReport = ofZ z /\ 0 <= z <= 100.
Proof.
  apply (validateGrid_score_range Sample.byCodeUnits newValidator
           (fst (validateGrid Sample.byCodeUnits newValidator (GridArray Sample.catGrid)
                   Sample.catWords NORMAL))
           Sample.catGrid Sample.catWords NORMAL
           (match generateCacheKey Sample.byCodeUnits (GridArray Sample.catGrid)
                    Sample.catWords NORMAL with
            | Returned key => key
            | Thrown => []
            end)).
  - vm_compute. reflexivity.
  - reflexivity.
  - reflexivity.
  - reflexivity.
  - vm_compute. reflexivity.
Defined.

End ScoreRangeExample.

Section ValidReportFacts.

Import GridHelper GridValidator ReportNotions GridNotions Specified.

(** A loop that pushes one error for each element failing a test. *)
Lemma forEach_pushError {A : Type} (p : A -> bool) (e : A -> message) (l : list A) :
  forall r, exists r',
    forEach (fun _ x => when (p x) (pushError (e x))) l tt r = (r', Returned tt) /\
    errors r' = errors r ++ map e (List.filter p l).
Proof.
  induction l as [|x l IH]; intros r; simpl.
  - exists r. rewrite app_nil_r. auto.
  - destruct (p x).
    + destruct (IH (fst (pushError (e x) r))) as (r' & Hrun & Herr).
      exists r'. split; [exact Hrun|]. rewrite Herr. simpl. rewrite <- app_assoc. reflexivity.
    + exact (IH r).
Qed.

Lemma filter_nil {A : Type} (p : A -> bool) (l : list A) (x : A) :
  List.filter p l = [] -> x ∈ l -> p x = false.
Proof.
  intros Hnil Hx. destruct (p x) eqn:Hp; [|reflexivity].
  assert (In x (List.filter p l)) as Hin by (apply filter_In; split; [apply list_elem_of_In, Hx | exact Hp]).
  rewrite Hnil in Hin. destruct Hin.
Qed.

Lemma validateGridStructure_clean (g : grid) (r r' : report) :
  validateGridStructure (GridArray g) r = (r', Returned tt) ->
  errors r' = [] ->
  errors r = [] /\ g <> [] /\ rectangular g.
Proof.
  unfold validateGridStructure. destruct g as [|row0 rest].
  { simpl. intros [= <-]. simpl. intros H. destruct (errors r); discriminate. }
  simpl Nat.eqb. cbv iota zeta. intros Hrun Hclean.
  apply andThen_returned in Hrun as ([] & r1 & Hrows & Hcells).
  match type of Hrows with forEach _ ?l _ _ = _ =>
    destruct (forEach_pushError
                (fun ir : nat * list cell =>
                   negb (Z.of_nat (length (snd ir)) =? widthOf (row0 :: rest)))
                (fun ir => RowHasBadLength (fst ir)) l r) as (r1' & Hrows' & Herr1) end.
  rewrite Hrows in Hrows'. injection Hrows' as <-.
  match type of Hcells with forEach _ ?l _ _ = _ =>
    destruct (forEach_pushError
                (fun ijc : nat * nat * cell => negb (isValidCellStructure (snd ijc)))
                (fun ijc => CellHasBadStructure (fst (fst ijc)) (snd (fst ijc))) l r1)
      as (r2' & Hcells' & Herr2) end.
  rewrite Hcells in Hcells'. injection Hcells' as <-.
  rewrite Hclean in Herr2. symmetry in Herr2. apply app_eq_nil in Herr2 as [Herr2 _].
  rewrite Herr2 in Herr1. symmetry in Herr1. apply app_eq_nil in Herr1 as [Hr Hrows1].
  split; [exact Hr|]. split; [discriminate|].
  apply map_eq_nil in Hrows1.
  intros row Hrow. apply elem_of_cons in Hrow as [->|Hrow]; [reflexivity|].
  apply list_elem_of_lookup_1 in Hrow as [i Hi].
  assert ((S i, row) ∈ tail (imap pair (row0 :: rest))) as Hin.
  { simpl. apply elem_of_lookup_imap. exists i, row. auto. }
  pose proof (filter_nil _ _ _ Hrows1 Hin) as Hlen. simpl in Hlen.
  apply negb_false_iff, Z.eqb_eq in Hlen. exact Hlen.
Qed.

Lemma validateGridSize_clean (this : validator) (g : grid) (r r' : report) :
  validateGridSize this (GridArray g) r = (r', Returned tt) ->
  errors r' = [] ->
  errors r = [] /\
  minGridSize (vRules this) <= heightOf g <= maxGridSize (vRules this) /\
  minGridSize (vRules this) <= widthOf g <= maxGridSize (vRules this).
Proof.
  unfold validateGridSize. cbv zeta.
  destruct ((heightOf g <? minGridSize (vRules this)) ||
            (widthOf g <? minGridSize (vRules this))) eqn:Hsmall;
  destruct ((maxGridSize (vRules this) <? heightOf g) ||
            (maxGridSize (vRules this) <? widthOf g)) eqn:Hlarge;
  unfold andThen, when, pushError, pushWarning, updateDetails, done_with;
  repeat match goal with |- context [if ?b then _ else _] => destruct b end;
  intros [= <-]; simpl; intros Hclean;
  try (repeat (apply app_eq_nil in Hclean as [Hclean ?]); discriminate).
  all: apply orb_false_iff in Hsmall as [H1 H2]; apply orb_false_iff in Hlarge as [H3 H4];
    apply Z.ltb_ge in H1, H2, H3, H4; repeat split; try assumption; lia.
Qed.

Lemma push_not_clean (r : report) (m : message) : errors (fst (pushError m r)) <> [].
Proof. simpl. destruct (errors r); discriminate. Qed.

(** The loop of [validateWords] over the indexed words. *)
Lemma validateWords_loop (this : validator) (l : list (nat * wordData)) :
  forall (st st' : seen) (r r' : report),
  forEach (fun st iw =>
      let index := fst iw in
      let word := snd iw in
      if negb (isValidWordStructure word) then
        pushError (WordHasBadStructure (index + 1)) ;; done_with st
      else
        when (length (wWord word) <? minWordLength (vRules this))%nat
          (pushError (WordTooShort (wWord word))) ;;
        when (maxWordLength (vRules this) <? length (wWord word))%nat
          (pushError (WordTooLong (wWord word))) ;;
        let st1 :=
          if includes (wWord word) (wordTexts st) then
            mkSeen (wordTexts st) (wordNumbers st) (S (duplicateWords st))
              (duplicateNumbers st)
          else
            mkSeen (wordTexts st ++ [wWord word]) (wordNumbers st)
              (duplicateWords st) (duplicateNumbers st) in
        let st2 :=
          match wNumber word with
          | Some n =>
              if n =? 0 then st1
              else if bool_decide (n ∈ wordNumbers st1) then
                mkSeen (wordTexts st1) (wordNumbers st1) (duplicateWords st1)
                  (S (duplicateNumbers st1))
              else
                mkSeen (wordTexts st1) (wordNumbers st1 ++ [n]) (duplicateWords st1)
                  (duplicateNumbers st1)
          | None => st1
          end in
        when (negb (truthy (wClue word)) || (length (trim (wClue word)) <? 5)%nat)
          (pushWarning (ClueTooShort (wWord word))) ;;
        done_with st2) l st r = (r', Returned st') ->
  errors r' = [] ->
  errors r = [] /\
  (forall iw, iw ∈ l ->
     wDirection (snd iw) ∈ [horizontal; vertical] /\
     (minWordLength (vRules this) <= length (wWord (snd iw))
      <= maxWordLength (vRules this))%nat) /\
  (duplicateWords st <= duplicateWords st')%nat /\
  (duplicateWords st' = duplicateWords st ->
   wordTexts st' = wordTexts st ++ map (fun iw => wWord (snd iw)) l /\
   (NoDup (wordTexts st) -> NoDup (wordTexts st'))).
Proof.
  induction l as [|[index word] l IH]; intros st st' r r' Hrun Hclean.
  - injection Hrun as <- <-. split; [exact Hclean|]. split; [intros iw Hiw; inversion Hiw|].
    split; [lia|]. intros _. rewrite app_nil_r. auto.
  - apply forEach_returned in Hrun as (s1 & r1 & Hbody & Hrest).
    destruct (IH s1 st' r1 r' Hrest Hclean) as (Hr1 & Hwords & Hmono & Htexts).
    cbv zeta in Hbody. cbn [fst snd] in Hbody.
    unfold isValidWordStructure in Hbody. unfold includes in Hbody at 1.
    destruct (bool_decide_reflect (wDirection word ∈ [horizontal; vertical])) as [Hdir|Hdir];
      simpl negb in Hbody; cbv iota in Hbody.
    2:{ exfalso. unfold andThen in Hbody. simpl in Hbody. injection Hbody as <- _.
        simpl in Hr1. destruct (errors r); discriminate. }
    destruct (Nat.ltb_spec (length (wWord word)) (minWordLength (vRules this))) as [Hshort|Hmin].
    { exfalso. unfold andThen, when, pushError, pushWarning, done_with in Hbody.
      repeat match type of Hbody with context [if ?b then _ else _] => destruct b end;
        injection Hbody as <- _; simpl in Hr1;
        repeat (apply app_eq_nil in Hr1 as [Hr1 ?]); discriminate. }
    destruct (Nat.ltb_spec (maxWordLength (vRules this)) (length (wWord word))) as [Hlong|Hmax].
    { exfalso. unfold andThen, when, pushError, pushWarning, done_with in Hbody.
      repeat match type of Hbody with context [if ?b then _ else _] => destruct b end;
        injection Hbody as <- _; simpl in Hr1;
        repeat (apply app_eq_nil in Hr1 as [Hr1 ?]); discriminate. }
    assert (errors r = [] /\
            duplicateWords s1 =
              (if includes (wWord word) (wordTexts st) then S (duplicateWords st)
               else duplicateWords st) /\
            wordTexts s1 =
              (if includes (wWord word) (wordTexts st) then wordTexts st
               else wordTexts st ++ [wWord word])) as (Hr & Hdup & Htext).
    { unfold andThen, when, pushWarning, done_with in Hbody.
      destruct (negb (truthy (wClue word)) || (length (trim (wClue word)) <? 5)%nat);
        injection Hbody as <- <-; simpl in Hr1; (split; [exact Hr1|]);
        destruct (includes (wWord word) (wordTexts st));
        destruct (wNumber word) as [n|]; simpl;
        try destruct (n =? 0); simpl;
        repeat match goal with |- context [if ?b then _ else _] => destruct b end;
        simpl; auto. }
    split; [exact Hr|]. split.
    { intros iw Hiw. apply elem_of_cons in Hiw as [->|Hiw]; [|apply Hwords, Hiw].
      simpl. split; [exact Hdir | lia]. }
    unfold includes in Hdup, Htext.
    destruct (bool_decide_reflect (wWord word ∈ wordTexts st)) as [Hin|Hout].
    + split; [lia|]. intros Heq. lia.
    + split; [lia|]. intros Heq. rewrite Hdup in Htexts.
      destruct (Htexts Heq) as [Hall Hnodup]. rewrite Htext in Hall, Hnodup.
      split; [rewrite Hall, <- app_assoc; reflexivity|].
      intros Hnd. apply Hnodup. apply NoDup_app. split; [exact Hnd|].
      split; [|apply NoDup_singleton].
      intros x Hx1 Hx2. apply list_elem_of_singleton in Hx2 as ->. contradiction.
Qed.

Lemma validateWords_clean (this : validator) (words : wordMap) (r r' : report) :
  validateWords this words r = (r', Returned tt) ->
  errors r' = [] ->
  errors r = [] /\
  (minWordsCount (vRules this) <= length words)%nat /\
  (forall word, word ∈ mapValues words ->
     wDirection word ∈ [horizontal; vertical] /\
     (minWordLength (vRules this) <= length (wWord word)
      <= maxWordLength (vRules this))%nat) /\
  NoDup (map wWord (mapValues words)).
Proof.
  unfold validateWords. cbv zeta. intros Hrun Hclean.
  apply andThen_returned in Hrun as ([] & ra & Hcount & Hrun).
  apply andThen_returned in Hrun as ([] & rb & Hmany & Hrun).
  apply andThen_returned in Hrun as (st & rc & Hloop & Hrun).
  apply andThen_returned in Hrun as ([] & rd & Hdup & Hrun).
  apply andThen_returned in Hrun as ([] & re & Hnum & Hrun).
  injection Hrun as <-. simpl in Hclean.
  assert (errors rd = []) as Hrd.
  { destruct (0 <? duplicateNumbers st)%nat; injection Hnum as <-; exact Hclean. }
  assert (errors rc = [] /\ duplicateWords st = O) as [Hrc Hnodup].
  { destruct (Nat.ltb_spec 0 (duplicateWords st)); injection Hdup as <-.
    - exfalso. exact (push_not_clean _ _ Hrd).
    - split; [exact Hrd | lia]. }
  destruct (validateWords_loop this _ _ _ _ _ Hloop Hrc) as (Hrb & Hwords & _ & Htexts).
  assert (errors ra = []) as Hra.
  { destruct (maxWordsCount (vRules this) <? length (mapValues words))%nat;
      injection Hmany as <-; exact Hrb. }
  assert (errors r = [] /\ (minWordsCount (vRules this) <= length words)%nat) as [Hr Hmin].
  { unfold mapValues in Hcount. rewrite length_map in Hcount.
    destruct (Nat.ltb_spec (length words) (minWordsCount (vRules this))); injection Hcount as <-.
    - exfalso. exact (push_not_clean _ _ Hra).
    - auto. }
  split; [exact Hr|]. split; [exact Hmin|]. split.
  - intros word Hword. apply list_elem_of_lookup_1 in Hword as [i Hi].
    apply (Hwords (i, word)). apply elem_of_lookup_imap. eauto.
  - destruct (Htexts Hnodup) as [Hall Hnd]. simpl in Hall, Hnd.
    assert (map (fun iw : nat * wordData => wWord (snd iw)) (imap pair (mapValues words))
            = map wWord (mapValues words)) as Hmap.
    { generalize (mapValues words). intros l. apply list_eq. intros i.
      change (map ?f ?l) with (f <$> l). rewrite !list_lookup_fmap, list_lookup_imap.
      destruct (l !! i); reflexivity. }
    rewrite <- Hmap, <- Hall. apply Hnd, NoDup_nil_2.
Qed.

Lemma cellOf_returned (g : grid) (row col : Z) (r r' : report) (c : cell) :
  cellOf g row col r = (r', Returned c) ->
  r' = r /\ (r0 ← at_index g row; at_index r0 col) = Some c.
Proof.
  unfold cellOf, andThen, defined, done_with, raise.
  destruct (at_index g row) as [r0|]; simpl; [|discriminate].
  destruct (at_index r0 col) as [c0|]; [|discriminate]. intros [= <- <-]. auto.
Qed.

(** The loop of [validateWordPlacements] over the letters of one word. *)
Lemma validateWordPlacements_letters (g : grid) (word : wordData) (l : list (nat * N)) :
  forall (overlapping overlapping' : nat) (r r' : report),
  forEach (fun overlapping ich =>
      let row := rowOf (wDirection word) (wStartRow word) (fst ich) in
      let col := colOf (wDirection word) (wStartCol word) (fst ich) in
      let expectedLetter := [snd ich] in
      do c <- cellOf g row col;
      if blocked c then
        pushError (WordThroughBlockedCell (wWord word) row col) ;;
        done_with overlapping
      else
        do overlapping1 <-
          (if truthy (letter c) && negb (bool_decide (letter c = expectedLetter))
           then pushError (LetterMismatch row col expectedLetter (letter c)) ;;
                done_with (S overlapping)
           else done_with overlapping);
        when (negb (includes (wId word) (wordIds c)))
          (pushWarning (WordNotRegistered (wWord word) row col)) ;;
        done_with overlapping1) l overlapping r = (r', Returned overlapping') ->
  errors r' = [] ->
  errors r = [] /\
  forall ich, ich ∈ l ->
    exists c,
      (r0 ← at_index g (rowOf (wDirection word) (wStartRow word) (fst ich));
       at_index r0 (colOf (wDirection word) (wStartCol word) (fst ich))) = Some c /\
      blocked c = false /\ (letter c = [] \/ letter c = [snd ich]).
Proof.
  induction l as [|[i ch] l IH]; intros ov ov' r r' Hrun Hclean.
  - injection Hrun as <- <-. split; [exact Hclean|]. intros ich Hich. inversion Hich.
  - apply forEach_returned in Hrun as (s1 & r1 & Hbody & Hrest).
    destruct (IH s1 ov' r1 r' Hrest Hclean) as (Hr1 & Hcells).
    cbv zeta in Hbody. cbn [fst snd] in Hbody.
    apply andThen_returned in Hbody as (c & r0 & Hcell & Hbody).
    apply cellOf_returned in Hcell as [-> Hc].
    destruct (blocked c) eqn:Hb.
    { exfalso. unfold andThen in Hbody. simpl in Hbody. injection Hbody as <- _.
      simpl in Hr1. destruct (errors r); discriminate. }
    destruct (truthy (letter c) && negb (bool_decide (letter c = [ch]))) eqn:Hconflict.
    { exfalso. unfold andThen, when, pushError, pushWarning, done_with in Hbody.
      destruct (negb (includes (wId word) (wordIds c))); injection Hbody as <- _;
        simpl in Hr1; destruct (errors r); discriminate. }
    assert (errors r = []) as Hr.
    { unfold andThen, when, pushWarning, done_with in Hbody.
      destruct (negb (includes (wId word) (wordIds c))); injection Hbody as <- _;
        exact Hr1. }
    split; [exact Hr|]. intros ich Hich. apply elem_of_cons in Hich as [->|Hich].
    + exists c. simpl. split; [exact Hc|]. split; [exact Hb|]. apply conflict_test, Hconflict.
    + apply Hcells, Hich.
Qed.

(** The loop of [validateWordPlacements] over the words. *)
Lemma validateWordPlacements_words (g : grid) (l : list wordData) :
  forall (counts counts' : nat * nat) (r r' : report),
  forEach (fun counts word =>
      let len := Z.of_nat (length (wWord word)) in
      let endRow :=
        if bool_decide (wDirection word = vertical) then wStartRow word + len - 1
        else wStartRow word in
      let endCol :=
        if bool_decide (wDirection word = horizontal) then wStartCol word + len - 1
        else wStartCol word in
      if (wStartRow word <? 0) || (wStartCol word <? 0) ||
         (heightOf g <=? endRow) || (widthOf g <=? endCol) then
        pushError (WordLeavesGrid (wWord word)) ;;
        done_with (S (fst counts), snd counts)
      else
        do overlapping <- forEach (fun overlapping ich =>
            let row := rowOf (wDirection word) (wStartRow word) (fst ich) in
            let col := colOf (wDirection word) (wStartCol word) (fst ich) in
            let expectedLetter := [snd ich] in
            do c <- cellOf g row col;
            if blocked c then
              pushError (WordThroughBlockedCell (wWord word) row col) ;;
              done_with overlapping
            else
              do overlapping1 <-
                (if truthy (letter c) && negb (bool_decide (letter c = expectedLetter))
                 then pushError (LetterMismatch row col expectedLetter (letter c)) ;;
                      done_with (S overlapping)
                 else done_with overlapping);
              when (negb (includes (wId word) (wordIds c)))
                (pushWarning (WordNotRegistered (wWord word) row col)) ;;
              done_with overlapping1)
          (imap pair (wWord word)) (snd counts);
        done_with (fst counts, overlapping)) l counts r = (r', Returned counts') ->
  errors r' = [] ->
  errors r = [] /\
  forall word k ch, word ∈ l -> wWord word !! k = Some ch ->
    exists c,
      getCell g (rowOf (wDirection word) (wStartRow word) k)
        (colOf (wDirection word) (wStartCol word) k) = Some c /\
      blocked c = false /\ (letter c = [] \/ letter c = [ch]).
Proof.
  induction l as [|word l IH]; intros counts counts' r r' Hrun Hclean.
  - injection Hrun as <- <-. split; [exact Hclean|]. intros word k ch Hword. inversion Hword.
  - apply forEach_returned in Hrun as (s1 & r1 & Hbody & Hrest).
    destruct (IH s1 counts' r1 r' Hrest Hclean) as (Hr1 & Hwords).
    cbv zeta in Hbody.
    match type of Hbody with (if ?b then _ else _) _ = _ => destruct b eqn:Hbounds end.
    { exfalso. unfold andThen in Hbody. simpl in Hbody. injection Hbody as <- _.
      simpl in Hr1. destruct (errors r); discriminate. }
    apply andThen_returned in Hbody as (ov & r0 & Hletters & Hbody).
    injection Hbody as <- _.
    destruct (validateWordPlacements_letters g word _ _ _ _ _ Hletters Hr1) as (Hr & Hcells).
    split; [exact Hr|]. intros word' k ch Hword Hk.
    apply elem_of_cons in Hword as [->|Hword]; [|apply (Hwords word' k ch Hword Hk)].
    destruct (Hcells (k, ch)) as (c & Hc & Hfree & Hletter).
    { apply elem_of_lookup_imap. eauto. }
    exists c. split; [|auto]. simpl in Hc.
    pose proof (within_bounds g word k ch Hk Hbounds) as Hvalid.
    pose proof (spanCell_at_index g word k Hvalid) as Hspan.
    unfold spanCell in Hspan. rewrite Hspan. exact Hc.
Qed.

Lemma validateWordPlacements_clean (g : grid) (words : wordMap) (r r' : report) :
  validateWordPlacements g words r = (r', Returned tt) ->
  errors r' = [] ->
  errors r = [] /\
  forall word k ch, word ∈ mapValues words -> wWord word !! k = Some ch ->
    exists c,
      getCell g (rowOf (wDirection word) (wStartRow word) k)
        (colOf (wDirection word) (wStartCol word) k) = Some c /\
      blocked c = false /\ (letter c = [] \/ letter c = [ch]).
Proof.
  unfold validateWordPlacements. cbv zeta. intros Hrun Hclean.
  apply andThen_returned in Hrun as (counts & r1 & Hloop & Hrun).
  injection Hrun as <-. simpl in Hclean.
  apply (validateWordPlacements_words g _ _ _ _ _ Hloop Hclean).
Qed.

Lemma sameErrors_steps (this : validator) (g : grid) (words : wordMap) :
  via sameErrors (validateIntersections this g words) /\
  via sameErrors (validateGridIntegrity g words) /\
  via sameErrors (validateDensity this g) /\
  via sameErrors (validateIsolation this g words) /\
  via sameErrors (analyzeGridQuality g words).
Proof.
  assert (forall r, sameErrors r r) as Hrefl by reflexivity.
  assert (forall r1 r2 r3, sameErrors r1 r2 -> sameErrors r2 r3 -> sameErrors r1 r3)
    as Htrans by (unfold sameErrors; congruence).
  repeat split.
  - apply via_validateIntersections with (ok := fun _ => True); auto; reflexivity.
  - apply via_validateGridIntegrity with (ok := fun _ => True); auto; reflexivity.
  - apply via_validateDensity with (ok := fun _ => True); auto; reflexivity.
  - apply via_validateIsolation with (ok := fun _ => True); auto; reflexivity.
  - apply via_analyzeGridQuality with (ok := fun _ => True); auto; reflexivity.
Qed.

Variable localeCompare : jsstring -> jsstring -> Z.

(** X27. A report that [validateGrid] computes and finds valid vouches
    for the puzzle: the grid is an array with a row, all rows as long as
    the first, its height and width within the size rules; there are at
    least as many words as the rules ask for, no text twice, each word in
    one of the two directions and of a length within the rules; and each
    letter of each word lies over a cell of the grid that is not blocked
    and holds no other letter. *)
Theorem validateGrid_valid_sound (this this' : validator) (ga : gridArg)
    (words : wordMap) (strictness key : jsstring) (r : report) :
  generateCacheKey localeCompare ga words strictness = Returned key ->
  validationCache this !! key = None ->
  validateGrid localeCompare this ga words strictness = (this', Returned r) ->
  isValid r = true ->
  exists g,
    ga = GridArray g /\ g <> [] /\ rectangular g /\
    minGridSize (vRules this) <= heightOf g <= maxGridSize (vRules this) /\
    minGridSize (vRules this) <= widthOf g <= maxGridSize (vRules this) /\
    (minWordsCount (vRules this) <= length words)%nat /\
    NoDup (map wWord (mapValues words)) /\
    forall word, word ∈ mapValues words ->
      wDirection word ∈ [horizontal; vertical] /\
      (minWordLength (vRules this) <= length (wWord word)
       <= maxWordLength (vRules this))%nat /\
      forall k ch, wWord word !! k = Some ch ->
        exists c,
          getCell g (rowOf (wDirection word) (wStartRow word) k)
            (colOf (wDirection word) (wStartCol word) k) = Some c /\
          blocked c = false /\ (letter c = [] \/ letter c = [ch]).
Proof.
  intros Hkey Hmiss Hcall Hvalid.
  destruct (validateGrid_miss _ _ _ _ _ _ _ _ Hkey Hmiss Hcall) as [_ [Hrun|(r' & _ & ->)]].
  2:{ destruct (onFailure_report r') as (_ & Hinvalid & _). congruence. }
  apply runChecks_returned in Hrun
    as (g & r1 & r2 & r3 & r4 & r5 & r6 & r7 & r8 & r9 & -> & H1 & H2 & H3 & H4 & H5 & H6
        & H7 & H8 & H9 & ->).
  simpl in Hvalid. apply Nat.eqb_eq, length_zero_iff_nil in Hvalid.
  set (this1 := mkValidator (vRules this) strictness (validationCache this)) in *.
  destruct (sameErrors_steps this1 g words) as (S5 & S6 & S7 & S8 & S9).
  pose proof (S5 r4) as E5. pose proof (S6 r5) as E6. pose proof (S7 r6) as E7.
  pose proof (S8 r7) as E8. pose proof (S9 r8) as E9.
  rewrite H5 in E5. rewrite H6 in E6. rewrite H7 in E7. rewrite H8 in E8. rewrite H9 in E9.
  unfold sameErrors in *. simpl in E5, E6, E7, E8, E9.
  assert (errors r4 = []) as Hr4 by congruence.
  destruct (validateWordPlacements_clean _ _ _ _ H4 Hr4) as (Hr3 & Hcells).
  destruct (validateWords_clean _ _ _ _ H3 Hr3) as (Hr2 & Hcount & Hwords & Hnodup).
  destruct (validateGridSize_clean _ _ _ _ H2 Hr2) as (Hr1 & Hheight & Hwidth).
  destruct (validateGridStructure_clean _ _ _ H1 Hr1) as (_ & Hne & Hrect).
  exists g. split; [reflexivity|]. split; [exact Hne|]. split; [exact Hrect|].
  split; [exact Hheight|]. split; [exact Hwidth|]. split; [exact Hcount|].
  split; [exact Hnodup|]. intros word Hword.
  destruct (Hwords word Hword) as [Hdir Hlen].
  split; [exact Hdir|]. split; [exact Hlen|]. intros k ch Hk.
  apply (Hcells word k ch Hword Hk).
Qed.

End ValidReportFacts.

Section ValidReportExample.

Import GridHelper GridValidator ReportNotions GridNotions Specified.

Lemma validateGrid_valid_sound_witness :
  exists g,
    GridArray Sample.catGridAfterCar = GridArray g /\ g <> [] /\ rectangular g.
Proof.
  destruct (validateGrid_valid_sound Sample.byCodeUnits newValidator
              (fst (validateGrid Sample.byCodeUnits newValidator
                      (GridArray Sample.catGridAfterCar)
                      [(wId Sample.cat, Sample.cat); (wId Sample.car, Sample.car)] RELAXED))
              (GridArray Sample.catGridAfterCar)
              [(wId Sample.cat, Sample.cat); (wId Sample.car, Sample.car)] RELAXED
              (match generateCacheKey Sample.byCodeUnits (GridArray Sample.catGridAfterCar)
                       [(wId Sample.cat, Sample.cat); (wId Sample.car, Sample.car)]
                       RELAXED with
               | Returned key => key
               | Thrown => []
               end)
              (match snd (validateGrid Sample.byCodeUnits newValidator
                            (GridArray Sample.catGridAfterCar)
                            [(wId Sample.cat, Sample.cat); (wId Sample.car, Sample.car)]
                            RELAXED) with
               | Returned r => r
               | Thrown => freshResult
               end))
    as (g & Hg & Hne & Hrect & _).
  - vm_compute. reflexivity.
  - reflexivity.
  - vm_compute. reflexivity.
  - vm_compute. reflexivity.
  - exists g. auto.
Defined.

End ValidReportExample.

(** ** The cache key *)

Section CacheKeyFacts.

Import GridHelper GridValidator ReportNotions GridNotions Specified.

Lemma toInt32_range (z : Z) : - 2 ^ 31 <= toInt32 z < 2 ^ 31.
Proof.
  unfold toInt32. pose proof (Z.mod_pos_bound (z + 2 ^ 31) (2 ^ 32) ltac:(lia)). lia.
Qed.

Lemma toInt32_wraps (z k : Z) : toInt32 (z + k * 2 ^ 32) = toInt32 z.
Proof.
  unfold toInt32. replace (z + k * 2 ^ 32 + 2 ^ 31) with (z + 2 ^ 31 + k * 2 ^ 32) by ring.
  rewrite Z_mod_plus_full. reflexivity.
Qed.

Lemma toInt32_offset (z : Z) : exists k, toInt32 z = z + k * 2 ^ 32.
Proof.
  exists (- ((z + 2 ^ 31) / 2 ^ 32)). unfold toInt32.
  rewrite (Z.mod_eq (z + 2 ^ 31) (2 ^ 32)) by lia. ring.
Qed.

Lemma simpleHash_step (hash char unbounded : Z) :
  hash = toInt32 unbounded ->
  toInt32 (toInt32 (hash * 32) - hash + char) = toInt32 (31 * unbounded + char).
Proof.
  intros ->. destruct (toInt32_offset unbounded) as [k1 ->].
  destruct (toInt32_offset ((unbounded + k1 * 2 ^ 32) * 32)) as [k2 ->].
  replace ((unbounded + k1 * 2 ^ 32) * 32 + k2 * 2 ^ 32 - (unbounded + k1 * 2 ^ 32) + char)
    with (31 * unbounded + char + (31 * k1 + k2) * 2 ^ 32) by ring.
  apply toInt32_wraps.
Qed.

(** X28. [simpleHash] computes the polynomial hash of the code units
    with factor 31, wrapped to a signed 32-bit integer: wrapping at each
    step, as the code does, gives what wrapping the exact polynomial once
    gives. *)
Theorem simpleHashValue_polynomial (str : jsstring) :
  simpleHashValue str = toInt32 (polynomialHash str) /\
  - 2 ^ 31 <= simpleHashValue str < 2 ^ 31.
Proof.
  assert (forall hash unbounded, hash = toInt32 unbounded ->
            fold_left (fun hash char => toInt32 (toInt32 (hash * 32) - hash + Z.of_N char))
              str hash
            = toInt32 (fold_left (fun hash char => 31 * hash + Z.of_N char) str unbounded))
    as Hfold.
  { induction str as [|char str IH]; intros hash unbounded Hhash; simpl; [exact Hhash|].
    apply IH, simpleHash_step, Hhash. }
  assert (simpleHashValue str = toInt32 (polynomialHash str)) as Heq.
  { apply Hfold. reflexivity. }
  split; [exact Heq|]. rewrite Heq. apply toInt32_range.
Qed.

Variable localeCompare : jsstring -> jsstring -> Z.

Lemma jsSort_unique_by_id (l l' : list wordData) :
  l ≡ₚ l' -> NoDup (map wId l) ->
  (forall a b, a ∈ map wId l -> b ∈ map wId l ->
     0 < localeCompare a b -> localeCompare b a <= 0) ->
  (forall a b c, a ∈ map wId l -> b ∈ map wId l -> c ∈ map wId l ->
     localeCompare a b <= 0 -> localeCompare b c <= 0 -> localeCompare a c <= 0) ->
  (forall a b, a ∈ map wId l -> b ∈ map wId l ->
     localeCompare a b <= 0 -> localeCompare b a <= 0 -> a = b) ->
  jsSort (fun a b => localeCompare (wId a) (wId b)) l
  = jsSort (fun a b => localeCompare (wId a) (wId b)) l'.
Proof.
  intros Hperm Hnodup Hasym Htrans Hanti.
  set (cmp := fun a b : wordData => localeCompare (wId a) (wId b)).
  assert (forall x, x ∈ l -> wId x ∈ map wId l) as Hid.
  { intros x Hx. apply list_elem_of_In, in_map, list_elem_of_In, Hx. }
  assert (forall x y, x ∈ l -> y ∈ l -> wId x = wId y -> x = y) as Hinj.
  { intros x y Hx Hy Heq. apply list_elem_of_lookup_1 in Hx as [i Hi].
    apply list_elem_of_lookup_1 in Hy as [j Hj].
    assert (i = j) as ->; [|congruence].
    apply (NoDup_lookup (map wId l) i j (wId x)); [exact Hnodup | |];
      change (map wId l) with (wId <$> l); rewrite list_lookup_fmap.
    - rewrite Hi. reflexivity.
    - rewrite Hj, Heq. reflexivity. }
  assert (forall k, k ≡ₚ l ->
            StronglySorted (fun a b => cmp a b <= 0) (jsSort cmp k)) as Hsorted.
  { intros k Hk. apply (jsSort_sorted_by cmp (fun a b => cmp a b <= 0) (fun x => x ∈ l)).
    - intros x y z Hx Hy Hz. apply Htrans; auto.
    - auto.
    - intros x y Hx Hy. apply Hasym; auto.
    - apply Forall_forall. intros x Hx. rewrite <- Hk. exact Hx. }
  apply (StronglySorted_unique_strong (fun a b => cmp a b <= 0)).
  - intros x y Hx Hy Hxy Hyx.
    rewrite jsSort_perm in Hx. rewrite jsSort_perm, <- Hperm in Hy.
    apply Hinj; [exact Hx | exact Hy |]. apply Hanti; auto.
  - apply Hsorted. reflexivity.
  - apply Hsorted. symmetry. exact Hperm.
  - rewrite !jsSort_perm. exact Hperm.
Qed.

(** X29. The cache key does not depend on the order in which the words
    were put in the map, when no two words share an id and [localeCompare]
    orders the ids: the words are sorted by id before they are hashed. *)
Theorem generateCacheKey_ignores_word_order (ga : gridArg) (words words' : wordMap)
    (strictness : jsstring) :
  words ≡ₚ words' ->
  NoDup (map wId (mapValues words)) ->
  ordersIds localeCompare words ->
  hashWords localeCompare words = hashWords localeCompare words' /\
  generateCacheKey localeCompare ga words strictness
  = generateCacheKey localeCompare ga words' strictness.
Proof.
  intros Hperm Hnodup (Hasym & Htrans & Hanti).
  assert (hashWords localeCompare words = hashWords localeCompare words') as Hhash.
  { unfold hashWords. cbv zeta. f_equal. f_equal. f_equal.
    apply jsSort_unique_by_id; try assumption.
    unfold mapValues. apply Permutation_map, Hperm. }
  split; [exact Hhash|]. unfold generateCacheKey. rewrite Hhash. reflexivity.
Qed.

End CacheKeyFacts.

Section CacheKeyExample.

Import GridHelper GridValidator ReportNotions GridNotions Specified.

Lemma generateCacheKey_ignores_word_order_witness :
  generateCacheKey Sample.byCodeUnits (GridArray Sample.catGrid)
    [(wId Sample.cat, Sample.cat); (wId Sample.car, Sample.car)] NORMAL
  = generateCacheKey Sample.byCodeUnits (GridArray Sample.catGrid)
      [(wId Sample.car, Sample.car); (wId Sample.cat, Sample.cat)] NORMAL.
Proof.
  apply (generateCacheKey_ignores_word_order Sample.byCodeUnits).
  - apply perm_swap.
  - simpl. apply NoDup_cons. split; [|apply NoDup_singleton].
    intros H. apply list_elem_of_singleton in H. discriminate H.
  - unfold ordersIds. simpl. repeat split.
    + intros a b Ha Hb.
      apply elem_of_cons in Ha as [->|Ha]; [|apply list_elem_of_singleton in Ha as ->];
        (apply elem_of_cons in Hb as [->|Hb]; [|apply list_elem_of_singleton in Hb as ->]);
        vm_compute; intros; congruence.
    + intros a b c Ha Hb Hc.
      apply elem_of_cons in Ha as [->|Ha]; [|apply list_elem_of_singleton in Ha as ->];
        (apply elem_of_cons in Hb as [->|Hb]; [|apply list_elem_of_singleton in Hb as ->]);
        (apply elem_of_cons in Hc as [->|Hc]; [|apply list_elem_of_singleton in Hc as ->]);
        vm_compute; intros; congruence.
    + intros a b Ha Hb.
      apply elem_of_cons in Ha as [->|Ha]; [|apply list_elem_of_singleton in Ha as ->];
        (apply elem_of_cons in Hb as [->|Hb]; [|apply list_elem_of_singleton in Hb as ->]);
        vm_compute; intros; congruence.
Defined.

End CacheKeyExample.
